(** * lofi-generator: composition engine and playback scheduler

    A shallow embedding of the TypeScript sources

    - [src/lib/lofi/rng.ts]            (module [Rng])
    - [src/lib/lofi/music-theory.ts]   (module [MusicTheory])
    - [src/lib/lofi/instruments.ts]    (module [Instruments], identifiers only)
    - [src/lib/lofi/presets.ts]        (module [Presets])
    - [src/lib/lofi/song.ts]           (modules [Song] and [SongGen])
    - [src/lib/lofi/song-scheduler.ts] (module [Scheduler])
    - [src/lib/lofi/engine.ts]         (module [Engine])

    followed by the properties of the composition engine and of the playback
    scheduler.

    Numbers.  A JavaScript number that the code only uses as an integer
    (bars, MIDI pitches, indices, handles, the generator state) is a [Z];
    such numbers are exact in JavaScript below 2^53, far above anything a
    Song reaches.  A number that is genuinely fractional (velocities,
    probabilities, seconds) is an IEEE-754 binary64 value, Rocq's primitive
    [float], so that [next () < p] and the like are evaluated bit for bit as
    a JavaScript engine evaluates them.  [Math.log], [Math.cos] and
    [Math.sin], whose results ECMAScript leaves to the implementation, are
    parameters ([Rng.MathLib]).

    Effects.  The generator state of [Rng] is threaded through a state and
    exception monad ([Rng.Gen]); the transport is a value that [schedule]
    transforms; the closures handed to the transport are first-order data
    ([Scheduler.Callback]) with one function per closure body; the calls the
    engine makes on its collaborators are logged ([Engine.Call]). *)

From Stdlib Require Import ZArith List String Ascii Bool Lia Floats.
From Stdlib Require Import DecimalString DecimalPos DecimalZ.
From Stdlib Require Import Sorted Permutation.
Import ListNotations.

Set Warnings "-inexact-float".
Local Open Scope string_scope.
Local Open Scope list_scope.
Local Open Scope Z_scope.

(* ================================================================== *)
(** * Part I: definitions                                              *)
(* ================================================================== *)

(** ** JavaScript primitives used by the sources *)
Module JS.

(** The outcome of an expression that may throw. *)
Inductive Result (A : Type) : Type :=
| Ok (a : A)
| Throw (msg : string).
Arguments Ok {A} a.
Arguments Throw {A} msg.

Definition bindR {A B} (r : Result A) (k : A -> Result B) : Result B :=
  match r with
  | Ok a => k a
  | Throw m => Throw m
  end.

(** [x | 0] and [x >>> 0] on an integral number. *)
Definition toUint32 (x : Z) : Z := x mod 4294967296.

Definition toInt32 (x : Z) : Z :=
  let u := toUint32 x in
  if u <? 2147483648 then u else u - 4294967296.

(** [Math.imul]. *)
Definition imul (a b : Z) : Z := toInt32 (toInt32 a * toInt32 b).

(** [a ^ b], [a | b] on numbers: both operands go through ToInt32. *)
Definition xor32 (a b : Z) : Z := toInt32 (Z.lxor (toInt32 a) (toInt32 b)).
Definition or32 (a b : Z) : Z := toInt32 (Z.lor (toInt32 a) (toInt32 b)).

(** [a >>> n]: ToUint32 of the left operand, then a logical shift. *)
Definition ushr (a n : Z) : Z := Z.shiftr (toUint32 a) n.

(** [a % b] keeps the sign of the dividend. *)
Definition jsrem (a b : Z) : Z := Z.rem a b.

(** [Math.floor (a / b)] for integral [a] and positive integral [b]. *)
Definition floordiv (a b : Z) : Z := a / b.

(** *** Strings *)

Definition is_digit (c : ascii) : bool :=
  let n := nat_of_ascii c in (48 <=? n)%nat && (n <=? 57)%nat.

Definition digit_val (c : ascii) : Z := Z.of_nat (nat_of_ascii c) - 48.

(** The white space skipped by [parseInt] (the ASCII part of it). *)
Definition is_space (c : ascii) : bool :=
  let n := nat_of_ascii c in
  (n =? 32)%nat || ((9 <=? n)%nat && (n <=? 13)%nat).

Fixpoint skip_space (s : string) : string :=
  match s with
  | String c r => if is_space c then skip_space r else s
  | EmptyString => s
  end.

(** Value of the longest prefix of decimal digits, starting from [acc]. *)
Fixpoint digits_acc (s : string) (acc : Z) : Z :=
  match s with
  | String c r => if is_digit c then digits_acc r (acc * 10 + digit_val c) else acc
  | EmptyString => acc
  end.

Definition starts_with_digit (s : string) : bool :=
  match s with
  | String c _ => is_digit c
  | EmptyString => false
  end.

(** [Number.parseInt (s, 10)]; [None] stands for NaN. *)
Definition parseInt (s : string) : option Z :=
  match skip_space s with
  | String "-" r => if starts_with_digit r then Some (- digits_acc r 0) else None
  | String "+" r => if starts_with_digit r then Some (digits_acc r 0) else None
  | r => if starts_with_digit r then Some (digits_acc r 0) else None
  end.

(** [x || 0] for a number [x]: NaN and 0 give 0. *)
Definition orZero (x : option Z) : Z :=
  match x with
  | Some v => v
  | None => 0
  end.

(** [s.split (":")]. *)
Fixpoint split_colon (s : string) : list string :=
  match s with
  | EmptyString => [EmptyString]
  | String c r =>
      if Ascii.eqb c ":" then EmptyString :: split_colon r
      else match split_colon r with
           | h :: t => String c h :: t
           | [] => [String c EmptyString]
           end
  end.

(** Number-to-string conversion of an integral number, as a template
    literal [`${n}`] performs it. *)
Definition show (n : Z) : string := NilEmpty.string_of_int (Z.to_int n).

(** *** Property lookup on an object literal

    [obj[key]] consults the own properties first and then the prototype
    chain; an object literal inherits the members of [Object.prototype]. *)
Definition objectPrototypeKeys : list string :=
  [ "constructor"; "__defineGetter__"; "__defineSetter__"; "hasOwnProperty";
    "__lookupGetter__"; "__lookupSetter__"; "isPrototypeOf";
    "propertyIsEnumerable"; "toString"; "valueOf"; "__proto__";
    "toLocaleString" ].

Inductive Property (A : Type) : Type :=
| Own (v : A)       (* an own property of the literal *)
| Inherited         (* a member of Object.prototype: neither null nor undefined *)
| Undefined.
Arguments Own {A} v.
Arguments Inherited {A}.
Arguments Undefined {A}.

Fixpoint assoc {A} (own : list (string * A)) (k : string) : option A :=
  match own with
  | [] => None
  | (k', v) :: r => if String.eqb k k' then Some v else assoc r k
  end.

Definition mem (k : string) (l : list string) : bool :=
  existsb (String.eqb k) l.

Definition get {A} (own : list (string * A)) (k : string) : Property A :=
  match assoc own k with
  | Some v => Own v
  | None => if mem k objectPrototypeKeys then Inherited else Undefined
  end.

(** [arr.indexOf (x)] on an array of strings; [None] stands for -1. *)
Fixpoint indexOf (l : list string) (x : string) : option Z :=
  match l with
  | [] => None
  | y :: r => if String.eqb x y then Some 0
              else match indexOf r x with
                   | Some i => Some (i + 1)
                   | None => None
                   end
  end.

(** *** Floating point *)

Definition ofZ (z : Z) : float :=
  match z with
  | Z0 => 0%float
  | Zpos _ => PrimFloat.of_uint63 (Uint63.of_Z z)
  | Zneg _ => PrimFloat.opp (PrimFloat.of_uint63 (Uint63.of_Z (- z)))
  end.

(** Truncation towards zero of a finite number; [None] for NaN and the
    infinities. *)
Definition truncF (f : float) : option Z :=
  match Prim2SF f with
  | S754_zero _ => Some 0
  | S754_finite neg m e =>
      let mag := if (0 <=? e) then Z.shiftl (Zpos m) e else Z.shiftr (Zpos m) (- e) in
      Some (if neg then - mag else mag)
  | _ => None
  end.

(** [Math.floor] of a finite number. *)
Definition floorF (f : float) : option Z :=
  match Prim2SF f with
  | S754_zero _ => Some 0
  | S754_finite neg m e =>
      let v := if neg then Zneg m else Zpos m in
      Some (if (0 <=? e) then Z.shiftl v e else Z.shiftr v (- e))
  | _ => None
  end.

(** [f | 0]: ToInt32 of a number (NaN and the infinities give 0). *)
Definition toInt32F (f : float) : Z :=
  match truncF f with
  | Some z => toInt32 z
  | None => 0
  end.

Definition is_neg_zero (a : float) : bool :=
  match Prim2SF a with
  | S754_zero true => true
  | _ => false
  end.

(** [Math.max] and [Math.min] of two numbers: NaN is contagious and
    [-0] is below [+0]. *)
Definition fmax (a b : float) : float :=
  if PrimFloat.is_nan a then a
  else if PrimFloat.is_nan b then b
  else if PrimFloat.ltb a b then b
  else if PrimFloat.ltb b a then a
  else if is_neg_zero a then b else a.

Definition fmin (a b : float) : float :=
  if PrimFloat.is_nan a then a
  else if PrimFloat.is_nan b then b
  else if PrimFloat.ltb a b then a
  else if PrimFloat.ltb b a then b
  else if is_neg_zero a then a else b.

End JS.


(** ** music-theory.ts *)
Module MusicTheory.
Import JS.

Definition MidiNote := Z.

Definition CHORD_SHAPES : list (string * list Z) :=
  [ ("maj7", [0; 4; 7; 11]);
    ("min7", [0; 3; 7; 10]);
    ("dom7", [0; 4; 7; 10]);
    ("maj", [0; 4; 7]);
    ("min", [0; 3; 7]);
    ("add9", [0; 4; 7; 14]);
    ("min9", [0; 3; 7; 10; 14]);
    ("maj9", [0; 4; 7; 11; 14]);
    ("m7b5", [0; 3; 6; 10]);
    ("dim7", [0; 3; 6; 9]);
    ("sus2", [0; 2; 7]);
    ("sus4", [0; 5; 7; 10]) ].

Definition SCALE_major : list Z := [0; 2; 4; 5; 7; 9; 11].
Definition SCALE_minor : list Z := [0; 2; 3; 5; 7; 8; 10].
Definition SCALE_dorian : list Z := [0; 2; 3; 5; 7; 9; 10].

Definition SCALES : list (string * list Z) :=
  [ ("major", SCALE_major);
    ("minor", SCALE_minor);
    ("dorian", SCALE_dorian);
    ("pentatonic", [0; 2; 4; 7; 9]);
    ("minPenta", [0; 3; 5; 7; 10]) ].

Definition NOTE_NAMES : list string :=
  [ "C"; "C#"; "D"; "D#"; "E"; "F"; "F#"; "G"; "G#"; "A"; "A#"; "B" ].

Definition CIRCLE_OF_FIFTHS : list string :=
  [ "C"; "G"; "D"; "A"; "E"; "B"; "F#"; "Db"; "Ab"; "Eb"; "Bb"; "F" ].

(** Diatonic chord qualities per scale degree (1-based). Major scale. *)
Definition DIATONIC_MAJOR : list (Z * string) :=
  [ (1, "maj7"); (2, "min7"); (3, "min7"); (4, "maj7");
    (5, "dom7"); (6, "min7"); (7, "m7b5") ].

(** Minor / Dorian *)
Definition DIATONIC_MINOR : list (Z * string) :=
  [ (1, "min7"); (2, "m7b5"); (3, "maj7"); (4, "min7");
    (5, "min7"); (6, "maj7"); (7, "dom7") ].

(** [table[k]] on a table keyed by the numbers 1..7. *)
Fixpoint lookupZ (t : list (Z * string)) (k : Z) : option string :=
  match t with
  | [] => None
  | (k', v) :: r => if k =? k' then Some v else lookupZ r k
  end.

(** [arr[i]] on an array of numbers; [None] stands for undefined. *)
Definition nthZ (l : list Z) (i : Z) : option Z :=
  if i <? 0 then None else nth_error l (Z.to_nat i).

Definition midiToName (midi : MidiNote) : string :=
  let octave := midi / 12 - 1 in
  let noteIdx := jsrem (jsrem midi 12 + 12) 12 in
  (nth (Z.to_nat noteIdx) NOTE_NAMES "" ++ show octave)%string.

(** *** [NOTE_NAME_REGEX = /^([A-G]#?)(-?\d+)$/] *)

Definition is_note_letter (c : ascii) : bool :=
  let n := nat_of_ascii c in (65 <=? n)%nat && (n <=? 71)%nat.

Fixpoint all_digits (s : string) : bool :=
  match s with
  | EmptyString => true
  | String c r => is_digit c && all_digits r
  end.

(** [-?\d+$] on the rest of the input. *)
Definition is_octave (s : string) : bool :=
  match s with
  | String "-" r => starts_with_digit r && all_digits r
  | _ => starts_with_digit s && all_digits s
  end.

(** [name.match (NOTE_NAME_REGEX)]: the two capture groups. *)
Definition matchNoteName (name : string) : option (string * string) :=
  match name with
  | String c r =>
      if is_note_letter c then
        match r with
        | String "#" r' =>
            if is_octave r' then Some (String c "#", r') else None
        | _ => if is_octave r then Some (String c "", r) else None
        end
      else None
  | EmptyString => None
  end.

Definition nameToMidi (name : string) : MidiNote :=
  match matchNoteName name with
  | None => 60
  | Some (m1, m2) =>
      let noteIdx := indexOf NOTE_NAMES m1 in
      let octave := orZero (parseInt m2) in
      match noteIdx with
      | None => 60
      | Some i => (octave + 1) * 12 + i
      end
  end.

(** [shape.map (...)] where [shape] came out of a table lookup followed by
    [?? fallback]: an own entry is used, a missing one is replaced by the
    fallback, and an inherited member of [Object.prototype] is kept -- it has
    no [map] method, so the call throws. *)
Definition tableOr (t : list (string * list Z)) (k : string) (fallback : list Z)
  : Result (list Z) :=
  match get t k with
  | Own shape => Ok shape
  | Undefined => Ok fallback
  | Inherited => Throw "TypeError: map is not a function"
  end.

Definition CHORD_SHAPES_maj7 : list Z :=
  match assoc CHORD_SHAPES "maj7" with
  | Some s => s
  | None => []
  end.

Definition SCALES_major : list Z :=
  match assoc SCALES "major" with
  | Some s => s
  | None => []
  end.

Definition buildChord (rootMidi : MidiNote) (quality : string)
  : Result (list MidiNote) :=
  bindR (tableOr CHORD_SHAPES quality CHORD_SHAPES_maj7) (fun shape =>
  Ok (map (fun interval => rootMidi + interval) shape)).

(** Stable insertion sort by [(a, b) => a - b]. *)
Fixpoint insertZ (x : Z) (l : list Z) : list Z :=
  match l with
  | [] => [x]
  | y :: r => if x - y <? 0 then x :: l else y :: insertZ x r
  end.

Definition sortZ (l : list Z) : list Z :=
  fold_left (fun acc x => insertZ x acc) l [].

Fixpoint indexOfZ (l : list Z) (x : Z) : option Z :=
  match l with
  | [] => None
  | y :: r => if x =? y then Some 0
              else match indexOfZ r x with
                   | Some i => Some (i + 1)
                   | None => None
                   end
  end.

(** Two-hand spread: LH root+5th low, RH 3rd+7th high *)
Definition spreadChord (rootMidi : MidiNote) (quality : string)
  : Result (list MidiNote) :=
  bindR (tableOr CHORD_SHAPES quality CHORD_SHAPES_maj7) (fun shape =>
  let notes := map (fun i => rootMidi + i) shape in
  let root := hd 0 notes in   (* every shape of the table is non-empty *)
  let fifth :=
    match indexOfZ shape 7 with
    | Some idx5 => nth (Z.to_nat idx5) notes 0
    | None => root + 7
    end in
  let upper := filter (fun n => negb (n =? root) && negb (n =? fifth)) notes in
  let left := [root - 12; fifth - 12] in
  let right := match upper with [] => [root + 4] | _ => upper end in
  Ok (filter (fun n => 28 <=? n) (sortZ (left ++ right)))).

(** Build scale as semitone offsets from root (for motif generation) *)
Definition buildScale (rootName scaleType : string) : Result (list Z) :=
  bindR (tableOr SCALES scaleType SCALES_major) (fun scale =>
  let rootPitch := jsrem (nameToMidi (rootName ++ "4")%string) 12 in
  Ok (map (fun s => jsrem (rootPitch + s) 12) scale)).

(** [for (oct = octaveLow; oct <= octaveHigh; oct++)] of [getScaleNotes]:
    the loop body iterates over [scale], which throws when [scale] is not
    iterable. *)
Fixpoint scaleOctaves (scale : list Z) (rootPitch : Z) (oct : Z) (n : nat)
  : list MidiNote :=
  match n with
  | O => []
  | S n' =>
      let base := (oct + 1) * 12 in
      map (fun offset => base + jsrem (rootPitch + offset + 12) 12) scale
        ++ scaleOctaves scale rootPitch (oct + 1) n'
  end.

Definition getScaleNotes (rootName scaleType : string) (octaveLow octaveHigh : Z)
  : Result (list MidiNote) :=
  let rootMidi := nameToMidi (rootName ++ "4")%string in
  let rootPitch := jsrem rootMidi 12 in
  match get SCALES scaleType with
  | Inherited =>
      if octaveLow <=? octaveHigh
      then Throw "TypeError: scale is not iterable"
      else Ok []
  | Own scale =>
      Ok (sortZ (scaleOctaves scale rootPitch octaveLow
                   (Z.to_nat (octaveHigh - octaveLow + 1))))
  | Undefined =>
      Ok (sortZ (scaleOctaves SCALES_major rootPitch octaveLow
                   (Z.to_nat (octaveHigh - octaveLow + 1))))
  end.

(** 7-note scale for chord degree resolution (pentatonic uses major/minor) *)
Definition CHORD_SCALES : list (string * list Z) :=
  [ ("major", SCALE_major);
    ("minor", SCALE_minor);
    ("dorian", SCALE_dorian);
    ("pentatonic", SCALE_major);
    ("minPenta", SCALE_minor) ].

Record Chord : Type := mkChord { root : MidiNote; quality : string }.

Definition isMinorFamily (scaleType : string) : bool :=
  String.eqb scaleType "minor" || String.eqb scaleType "minPenta"
  || String.eqb scaleType "dorian".

(** Index into the 7-note chord scale: [(((degree - 1) % 7) + 7) % 7]. *)
Definition degreeIdx (degree : Z) : Z := jsrem (jsrem (degree - 1) 7 + 7) 7.

(** [scale[degreeIdx] ?? 0] for [scale = CHORD_SCALES[scaleType] ??
    CHORD_SCALES.major]; indexing an inherited member gives undefined. *)
Definition degreeSemitone (scaleType : string) (degree : Z) : Z :=
  match get CHORD_SCALES scaleType with
  | Own scale => match nthZ scale (degreeIdx degree) with Some v => v | None => 0 end
  | Undefined => match nthZ SCALE_major (degreeIdx degree) with Some v => v | None => 0 end
  | Inherited => 0
  end.

(** Get diatonic chord for a scale degree (1-based). degree 2 in C major = Dm7. *)
Definition diatonicChord (key scaleType : string) (degree : Z) : Chord :=
  let rootMidi := nameToMidi (key ++ "4")%string in
  let diatonic := if isMinorFamily scaleType then DIATONIC_MINOR else DIATONIC_MAJOR in
  let normDegree := jsrem (jsrem (degree - 1) 7 + 7) 7 + 1 in
  let quality := match lookupZ diatonic normDegree with Some q => q | None => "maj7" end in
  let chordRootMidi := rootMidi + degreeSemitone scaleType degree in
  mkChord chordRootMidi quality.

(** Resolve [degree, quality] template to { root, quality } using key and scaleType *)
Definition resolveChordFromTemplate (key scaleType : string) (template : Z * string)
  : Chord :=
  let '(degree, quality) := template in
  let root := root (diatonicChord key scaleType degree) in
  mkChord root quality.

End MusicTheory.

(** ** instruments.ts: the voice identifiers *)
Module Instruments.

Inductive InstrumentId : Type :=
| pad | piano | violin | trumpet | guitar | contrabass | subbass | bass
| melody | texture.

Inductive DrumId : Type := kick | snare | hihat.

Definition InstrumentId_eqb (a b : InstrumentId) : bool :=
  match a, b with
  | pad, pad | piano, piano | violin, violin | trumpet, trumpet
  | guitar, guitar | contrabass, contrabass | subbass, subbass
  | bass, bass | melody, melody | texture, texture => true
  | _, _ => false
  end.

End Instruments.

(** ** presets.ts

    Of [LofiPreset] the record keeps every field the composition engine
    reads; the synthesizer option bags ([pad.options], [melody], [bass],
    [delayTime], [delayFeedback]) are consumed by the sound engine only. *)
Module Presets.
Import Instruments.

(** 16 steps per bar (16ths), velocity 0-1 *)
Record DrumPattern : Type := pattern
  { pat_kick : list float; pat_snare : list float; pat_hihat : list float }.

(** [degree, quality] - degree is 1-based scale degree *)
Definition ChordProgressionTemplate : Type := list (Z * string).

Inductive Voicing : Type := block | broken | arpeggio | spread.

Record ExtraInstrument : Type := mkExtra
  { extra_id : InstrumentId; extra_probability : float }.

Record LofiPreset : Type := mkPreset
  { name : string;
    tempoRange : Z * Z;
    swing : float;
    padVolume : float;                                (* pad.volume *)
    drumPatterns : list DrumPattern;
    drumFills : list DrumPattern;
    kickVolume : float;
    snareVolume : float;
    hihatVolume : float;
    reverbDecay : float;
    reverbMix : float;
    delayMix : float;
    filterCutoff : float;
    crackleMix : float;
    keys : list string;
    progressions : list ChordProgressionTemplate;
    scaleType : string;
    melodyRestProbability : float;
    motifLength : Z * Z;
    chordDurationBars : option Z;
    useSoftVoicings : option bool;
    chordVoicing : option (list Voicing);
    susChordProbability : option float;
    extraInstruments : option (list ExtraInstrument) }.

Local Open Scope float_scope.

Definition JAZZHOP_PATTERNS : list DrumPattern :=
  [pattern
      [1; 0; 0; 0; 1; 0; 0; 0; 1; 0; 0; 0; 1; 0; 0; 0]
      [0; 0; 0; 0; 1; 0; 0; 0; 0; 0; 0; 0; 1; 0; 0; 0]
      [0.3; 0.2; 0.3; 0.2; 0.3; 0.2; 0.3; 0.2; 0.3; 0.2; 0.3; 0.2; 0.3; 0.2; 0.3; 0.2];
    pattern
      [1; 0; 0; 0; 1; 0; 0; 0; 1; 0; 0; 0; 1; 0; 0.5; 0]
      [0; 0; 0.5; 0; 1; 0; 0; 0; 0; 0; 0.5; 0; 1; 0; 0; 0]
      [0.25; 0.15; 0.25; 0.15; 0.25; 0.15; 0.25; 0.15; 0.25; 0.15; 0.25; 0.15; 0.25; 0.15; 0.25; 0.15] ].

Definition JAZZHOP_FILLS : list DrumPattern :=
  [pattern
      [1; 0; 0; 0; 1; 0; 0; 0; 1; 0; 1; 0; 1; 0; 0; 0]
      [0; 0; 0; 0; 0; 0; 0; 0; 0.5; 0.5; 0.5; 0.5; 1; 0; 0; 0]
      [0.4; 0.3; 0.4; 0.3; 0.4; 0.3; 0.5; 0.4; 0.5; 0.4; 0.5; 0.4; 0.5; 0.4; 0.5; 0.4] ].

Definition CHILLHOP_PATTERNS : list DrumPattern :=
  [pattern
      [1; 0; 0; 0; 1; 0; 0; 0; 1; 0; 0; 0; 1; 0; 0; 0]
      [0; 0; 0; 0; 1; 0; 0; 0; 0; 0; 0; 0; 1; 0; 0; 0]
      [0.35; 0.2; 0.35; 0.2; 0.35; 0.2; 0.35; 0.2; 0.35; 0.2; 0.35; 0.2; 0.35; 0.2; 0.35; 0.2];
    pattern
      [1; 0; 0; 0; 1; 0; 0; 0; 1; 0; 0; 0; 1; 0; 0.6; 0]
      [0; 0; 0.4; 0; 1; 0; 0; 0; 0; 0; 0.4; 0; 1; 0; 0; 0]
      [0.3; 0.25; 0.3; 0.25; 0.3; 0.25; 0.3; 0.25; 0.3; 0.25; 0.3; 0.25; 0.3; 0.25; 0.3; 0.25] ].

Definition CHILLHOP_FILLS : list DrumPattern :=
  [pattern
      [1; 0; 0; 0; 1; 0; 0; 0; 1; 0; 1; 0; 1; 0; 0; 0]
      [0; 0; 0; 0; 0; 0; 0; 0; 0.5; 0.5; 0.5; 1; 1; 0; 0; 0]
      [0.3; 0.3; 0.35; 0.35; 0.4; 0.4; 0.45; 0.45; 0.5; 0.5; 0.5; 0.5; 0.5; 0.5; 0.5; 0.5] ].

Definition AMBIENT_PATTERNS : list DrumPattern :=
  [pattern
      [1; 0; 0; 0; 1; 0; 0; 0; 1; 0; 0; 0; 1; 0; 0; 0]
      [0; 0; 0; 0; 0.4; 0; 0; 0; 0; 0; 0; 0; 0.4; 0; 0; 0]
      [0.2; 0.15; 0.2; 0.15; 0.2; 0.15; 0.2; 0.15; 0.2; 0.15; 0.2; 0.15; 0.2; 0.15; 0.2; 0.15];
    pattern
      [1; 0; 0; 0; 0; 0; 0; 0; 1; 0; 0; 0; 0; 0; 0; 0]
      [0; 0; 0; 0; 0; 0; 0; 0; 0; 0; 0; 0; 0.3; 0; 0; 0]
      [0.15; 0.1; 0.15; 0.1; 0.15; 0.1; 0.15; 0.1; 0.15; 0.1; 0.15; 0.1; 0.15; 0.1; 0.15; 0.1] ].

Definition AMBIENT_FILLS : list DrumPattern :=
  [pattern
      [1; 0; 0; 0; 1; 0; 0; 0; 1; 0; 0; 0; 1; 0; 0; 0]
      [0; 0; 0; 0; 0; 0; 0; 0; 0; 0; 0.3; 0.3; 0.5; 0; 0; 0]
      [0.2; 0.2; 0.25; 0.25; 0.3; 0.3; 0.3; 0.3; 0.3; 0.3; 0.3; 0.3; 0.3; 0.3; 0.3; 0.3] ].

Definition BOOMBAP_PATTERNS : list DrumPattern :=
  [pattern
      [1; 0; 0; 0; 1; 0; 0; 0; 1; 0; 0; 0; 1; 0; 0; 0]
      [0; 0; 0; 0; 1; 0; 0; 0; 0; 0; 0; 0; 1; 0; 0; 0]
      [0.5; 0.2; 0.5; 0.2; 0.5; 0.2; 0.5; 0.2; 0.5; 0.2; 0.5; 0.2; 0.5; 0.2; 0.5; 0.2];
    pattern
      [1; 0; 0; 0.3; 1; 0; 0; 0; 1; 0; 0; 0; 1; 0; 0.4; 0]
      [0; 0; 0.6; 0; 1; 0; 0.6; 0; 0; 0; 0.6; 0; 1; 0; 0; 0]
      [0.55; 0.2; 0.55; 0.25; 0.55; 0.2; 0.55; 0.25; 0.55; 0.2; 0.55; 0.25; 0.55; 0.2; 0.55; 0.25] ].

Definition BOOMBAP_FILLS : list DrumPattern :=
  [pattern
      [1; 0; 0; 0; 1; 0; 1; 0; 1; 0; 0; 0; 1; 0; 1; 0]
      [0; 0; 0; 0; 0; 0; 0; 0; 0.6; 0.6; 0.6; 0.6; 1; 0; 0; 0]
      [0.6; 0.5; 0.6; 0.5; 0.65; 0.55; 0.65; 0.55; 0.7; 0.6; 0.7; 0.6; 0.7; 0.6; 0.7; 0.6] ].

Definition SLEEPY_PATTERNS : list DrumPattern :=
  [pattern
      [1; 0; 0; 0; 1; 0; 0; 0; 1; 0; 0; 0; 1; 0; 0; 0]
      [0; 0; 0; 0; 0.3; 0; 0; 0; 0; 0; 0; 0; 0.3; 0; 0; 0]
      [0.15; 0.1; 0.15; 0.1; 0.15; 0.1; 0.15; 0.1; 0.15; 0.1; 0.15; 0.1; 0.15; 0.1; 0.15; 0.1];
    pattern
      [1; 0; 0; 0; 0; 0; 0; 0; 1; 0; 0; 0; 0; 0; 0; 0]
      [0; 0; 0; 0; 0; 0; 0; 0; 0; 0; 0; 0; 0.25; 0; 0; 0]
      [0.12; 0.08; 0.12; 0.08; 0.12; 0.08; 0.12; 0.08; 0.12; 0.08; 0.12; 0.08; 0.12; 0.08; 0.12; 0.08] ].

Definition SLEEPY_FILLS : list DrumPattern :=
  [pattern
      [1; 0; 0; 0; 1; 0; 0; 0; 1; 0; 0; 0; 1; 0; 0; 0]
      [0; 0; 0; 0; 0; 0; 0; 0; 0; 0; 0.2; 0.2; 0.35; 0; 0; 0]
      [0.15; 0.15; 0.15; 0.15; 0.18; 0.18; 0.18; 0.18; 0.18; 0.18; 0.18; 0.18; 0.18; 0.18; 0.18; 0.18] ].

Definition PRESET_JAZZHOP : LofiPreset :=
  {| name := "Jazzhop";
     tempoRange := (70%Z, 80%Z);
     swing := 0.3;
     padVolume := (-4);
     drumPatterns := JAZZHOP_PATTERNS;
     drumFills := JAZZHOP_FILLS;
     kickVolume := (-2);
     snareVolume := (-5);
     hihatVolume := (-12);
     reverbDecay := 3.5;
     reverbMix := 0.35;
     delayMix := 0.2;
     filterCutoff := 1400;
     crackleMix := 0.06;
     keys := ["C"; "F"; "G"; "Am"; "Bb"; "Eb"];
     progressions :=
      [ [(1%Z, "min7"); (4%Z, "min7"); (1%Z, "min7"); (5%Z, "min7")];
        [(1%Z, "min7"); (4%Z, "min7"); (1%Z, "min7"); (4%Z, "min7")];
        [(4%Z, "min7"); (1%Z, "min7"); (5%Z, "min7"); (1%Z, "min7")] ];
     scaleType := "dorian";
     melodyRestProbability := 0.25;
     motifLength := (4%Z, 6%Z);
     chordDurationBars := None;
     useSoftVoicings := (Some true);
     chordVoicing := (Some [block; broken; arpeggio]);
     susChordProbability := (Some 0.15);
     extraInstruments := (Some [mkExtra piano 0.5; mkExtra trumpet 0.3]) |}.

Definition PRESET_CHILLHOP : LofiPreset :=
  {| name := "Chillhop";
     tempoRange := (80%Z, 90%Z);
     swing := 0.15;
     padVolume := (-6);
     drumPatterns := CHILLHOP_PATTERNS;
     drumFills := CHILLHOP_FILLS;
     kickVolume := (-2);
     snareVolume := (-6);
     hihatVolume := (-11);
     reverbDecay := 3;
     reverbMix := 0.4;
     delayMix := 0.18;
     filterCutoff := 1000;
     crackleMix := 0.07;
     keys := ["C"; "G"; "F"; "Am"; "Dm"; "Em"];
     progressions :=
      [ [(1%Z, "maj"); (5%Z, "maj"); (6%Z, "min"); (4%Z, "maj")];
        [(1%Z, "maj"); (6%Z, "min"); (4%Z, "maj"); (5%Z, "maj")];
        [(4%Z, "maj"); (1%Z, "maj"); (6%Z, "min"); (5%Z, "maj")];
        [(6%Z, "min"); (4%Z, "maj"); (1%Z, "maj"); (5%Z, "maj")] ];
     scaleType := "major";
     melodyRestProbability := 0.2;
     motifLength := (5%Z, 8%Z);
     chordDurationBars := None;
     useSoftVoicings := (Some true);
     chordVoicing := (Some [block; spread; arpeggio]);
     susChordProbability := (Some 0.2);
     extraInstruments := (Some [mkExtra piano 0.6; mkExtra violin 0.35; mkExtra guitar 0.25]) |}.

Definition PRESET_AMBIENT : LofiPreset :=
  {| name := "Ambient";
     tempoRange := (65%Z, 75%Z);
     swing := 0.05;
     padVolume := (-4);
     drumPatterns := AMBIENT_PATTERNS;
     drumFills := AMBIENT_FILLS;
     kickVolume := (-4);
     snareVolume := (-10);
     hihatVolume := (-16);
     reverbDecay := 5;
     reverbMix := 0.5;
     delayMix := 0.25;
     filterCutoff := 1200;
     crackleMix := 0.08;
     keys := ["Am"; "Dm"; "Em"; "C"; "F"];
     progressions :=
      [ [(1%Z, "min"); (4%Z, "min"); (1%Z, "min"); (4%Z, "min")];
        [(1%Z, "min"); (5%Z, "min"); (1%Z, "min"); (5%Z, "min")];
        [(4%Z, "min"); (1%Z, "min"); (5%Z, "min"); (1%Z, "min")] ];
     scaleType := "pentatonic";
     melodyRestProbability := 0.6;
     motifLength := (3%Z, 4%Z);
     chordDurationBars := (Some 2%Z);
     useSoftVoicings := (Some true);
     chordVoicing := (Some [block; spread]);
     susChordProbability := None;
     extraInstruments := (Some [mkExtra violin 0.3]) |}.

Definition PRESET_BOOMBAP : LofiPreset :=
  {| name := "Boom Bap";
     tempoRange := (85%Z, 95%Z);
     swing := 0.1;
     padVolume := (-6);
     drumPatterns := BOOMBAP_PATTERNS;
     drumFills := BOOMBAP_FILLS;
     kickVolume := 0;
     snareVolume := (-4);
     hihatVolume := (-10);
     reverbDecay := 2.5;
     reverbMix := 0.3;
     delayMix := 0.12;
     filterCutoff := 1000;
     crackleMix := 0.15;
     keys := ["Am"; "Dm"; "Em"; "Gm"; "Cm"; "Fm"];
     progressions :=
      [ [(1%Z, "min"); (5%Z, "min"); (1%Z, "min"); (5%Z, "min")];
        [(1%Z, "min"); (4%Z, "min"); (1%Z, "min"); (5%Z, "min")];
        [(1%Z, "min"); (4%Z, "min"); (5%Z, "min"); (1%Z, "min")] ];
     scaleType := "minPenta";
     melodyRestProbability := 0.4;
     motifLength := (3%Z, 5%Z);
     chordDurationBars := None;
     useSoftVoicings := (Some true);
     chordVoicing := None;
     susChordProbability := None;
     extraInstruments := None |}.

Definition PRESET_SLEEPY : LofiPreset :=
  {| name := "Sleepy";
     tempoRange := (60%Z, 70%Z);
     swing := 0.08;
     padVolume := (-6);
     drumPatterns := SLEEPY_PATTERNS;
     drumFills := SLEEPY_FILLS;
     kickVolume := (-3);
     snareVolume := (-8);
     hihatVolume := (-14);
     reverbDecay := 4;
     reverbMix := 0.45;
     delayMix := 0.2;
     filterCutoff := 1100;
     crackleMix := 0.05;
     keys := ["C"; "F"; "G"; "Am"; "Dm"];
     progressions :=
      [ [(1%Z, "maj"); (4%Z, "maj"); (1%Z, "maj"); (5%Z, "maj")];
        [(1%Z, "maj"); (5%Z, "maj"); (6%Z, "min"); (4%Z, "maj")];
        [(6%Z, "min"); (4%Z, "maj"); (1%Z, "maj"); (5%Z, "maj")] ];
     scaleType := "pentatonic";
     melodyRestProbability := 0.65;
     motifLength := (3%Z, 4%Z);
     chordDurationBars := None;
     useSoftVoicings := (Some true);
     chordVoicing := None;
     susChordProbability := None;
     extraInstruments := None |}.

Definition PRESETS : list LofiPreset :=
  [ PRESET_JAZZHOP; PRESET_CHILLHOP; PRESET_AMBIENT; PRESET_BOOMBAP; PRESET_SLEEPY ].

End Presets.

(** ** rng.ts: Mulberry32 seeded PRNG *)
Module Rng.
Import JS.

(** The parts of [Math] whose results ECMAScript leaves to the
    implementation. *)
Record MathLib : Type := mkMath
  { m_log : float -> float; m_cos : float -> float; m_sin : float -> float }.

Definition PI : float := 3.141592653589793%float.

(** The only field of the class.  [next] adds to it without wrapping, so it
    is an integral number that grows by [0x6d2b79f5] per draw. *)
Record Rng : Type := mkRng { state : Z }.

(** [constructor (seed) { this.state = seed | 0 }] *)
Definition new (seed : Z) : Rng := mkRng (toInt32 seed).

(** A computation over one generator that may throw. *)
Definition Gen (A : Type) : Type := Rng -> Result (A * Rng).

Definition ret {A} (a : A) : Gen A := fun r => Ok (a, r).

Definition bind {A B} (c : Gen A) (k : A -> Gen B) : Gen B :=
  fun r => match c r with
           | Ok (a, r') => k a r'
           | Throw m => Throw m
           end.

Definition throw {A} (msg : string) : Gen A := fun _ => Throw msg.

Definition liftR {A} (x : Result A) : Gen A :=
  fun r => match x with
           | Ok a => Ok (a, r)
           | Throw m => Throw m
           end.

Declare Scope gen_scope.
Delimit Scope gen_scope with gen.
Notation "'let*' x ':=' c 'in' k" := (bind c (fun x => k))
  (at level 10, x pattern, c at level 100, k at level 200) : gen_scope.
Local Open Scope gen_scope.

(** The integer core of [next]: the new state and the 32-bit output. *)
Definition step (st : Z) : Z * Z :=
  let t0 := st + 0x6d2b79f5 in
  let t1 := imul (xor32 t0 (ushr t0 15)) (or32 t0 1) in
  let t2 := xor32 t1 (t1 + imul (xor32 t1 (ushr t1 7)) (or32 t1 61)) in
  (t0, toUint32 (xor32 t2 (ushr t2 14))).

(** Returns float in [0, 1) *)
Definition next : Gen float :=
  fun r => let '(st', u) := step (state r) in
           Ok ((ofZ u / 4294967296)%float, mkRng st').

(** Integer in [min, max] inclusive *)
Definition int (min max : Z) : Gen Z :=
  let* x := next in
  ret (toInt32F (x * ofZ (max - min + 1) + ofZ min)%float).

(** Float in [min, max) *)
Definition float_ (min max : float) : Gen float :=
  let* x := next in
  ret (x * (max - min) + min)%float.

(** [arr[i]]; reading past the end gives undefined, which no caller
    expects: the embedding stops there. *)
Definition index {A} (arr : list A) (i : Z) : Gen A :=
  match (if i <? 0 then None else nth_error arr (Z.to_nat i)) with
  | Some a => ret a
  | None => throw "undefined array element"
  end.

(** Pick one item from array *)
Definition pick {A} (arr : list A) : Gen A :=
  let* i := int 0 (Z.of_nat (List.length arr) - 1) in
  index arr i.

Fixpoint weightedLoop {A} (items : list A) (weights : list float) (r : float)
  (last : option A) : option A :=
  match items with
  | [] => last
  | it :: items' =>
      let r' := (r - hd PrimFloat.nan weights)%float in
      if PrimFloat.leb r' 0 then Some it
      else weightedLoop items' (tl weights) r' (Some it)
  end.

(** Pick with weights (weights need not sum to 1) *)
Definition weightedPick {A} (items : list A) (weights : list float) : Gen A :=
  let total := fold_left PrimFloat.add weights 0%float in
  let* x := next in
  match weightedLoop items weights (x * total)%float None with
  | Some a => ret a
  | None => throw "undefined array element"
  end.

(** Boolean with probability p *)
Definition chance (p : float) : Gen bool :=
  let* x := next in
  ret (PrimFloat.ltb x p).

(** Box-Muller transform for Gaussian distribution *)
Definition gaussian (math : MathLib) (mean stddev : float) : Gen float :=
  let* u1 := next in
  let* u2 := next in
  if PrimFloat.ltb u1 1e-10 then ret mean
  else
    let z := (PrimFloat.sqrt (-2 * m_log math u1) * m_cos math (2 * PI * u2))%float in
    ret (mean + stddev * z)%float.

(** Fork: create a child Rng from current state (isolated sub-generation) *)
Definition fork (r : Rng) : Rng := new (state r).

(** Run a sub-generator on a fork of the current generator; the current
    generator is left as it is. *)
Definition forked {A} (c : Gen A) : Gen A :=
  fun r => match c (fork r) with
           | Ok (a, _) => Ok (a, r)
           | Throw m => Throw m
           end.

(** The functorial action on results. *)
Definition mapGen {A B} (f : A -> B) (c : Gen A) : Gen B :=
  fun r => match c r with
           | Ok (a, r') => Ok (f a, r')
           | Throw m => Throw m
           end.

(** Monadic left fold, the shape of every [for] loop of the generator. *)
Fixpoint foldM {A S} (f : S -> A -> Gen S) (l : list A) (s : S) : Gen S :=
  match l with
  | [] => ret s
  | a :: l' => let* s' := f s a in foldM f l' s'
  end.

(** The values of [i] in [for (i = 0; i < n; i++)]. *)
Definition range (n : Z) : list Z := map Z.of_nat (seq 0 (Z.to_nat n)).

(** The values of [i] in [for (i = 0; i < n; i += step)] for a positive
    [step]. *)
Definition rangeStep (n step : Z) : list Z :=
  map (fun k => k * step) (range ((n + step - 1) / step)).

End Rng.

(** ** song.ts: the data model *)
Module Song.
Import Instruments Presets.

Record InstrumentNoteEvent : Type := mkNote
  { time : string;
    note : string;
    duration : string;
    velocity : float;
    instrument : InstrumentId }.

Record DrumEvent : Type := mkDrum
  { dtime : string;
    dinstrument : DrumId;
    dvelocity : float }.

Inductive SectionName : Type := intro | verse | chorus | bridge | outro.

Record SongSection : Type := mkSection
  { name : SectionName;
    startBar : Z;
    bars : Z;
    instrumentEvents : list InstrumentNoteEvent;
    drumEvents : list DrumEvent;
    padVolume : Z }.

Record SongFXParams : Type := mkFX
  { fx_reverbDecay : float;
    fx_reverbMix : float;
    fx_delayMix : float;
    fx_filterCutoff : float;
    fx_crackleMix : float }.

Record Song : Type := mkSong
  { seed : Z;
    preset : LofiPreset;
    key : string;
    tempo : Z;
    swing : float;
    sections : list SongSection;
    totalBars : Z;
    fxParams : SongFXParams }.

Record Motif : Type := mkMotif
  { degrees : list Z;
    durations : list string;
    velocities : list float }.

(** [`${bar}:${beat}:${sixteenth}`] *)
Definition timeString (bar beat sixteenth : Z) : string :=
  (JS.show bar ++ ":" ++ JS.show beat ++ ":" ++ JS.show sixteenth)%string.

(** What a listener can tell of a Song: how many sections it has, how long
    each is, and the events of each, field by field. *)
Definition Observation : Type :=
  (nat * list Z * list (list InstrumentNoteEvent) * list (list DrumEvent))%type.

Definition observation (song : Song) : Observation :=
  (List.length (sections song),
   map bars (sections song),
   map instrumentEvents (sections song),
   map drumEvents (sections song)).

Definition observe (r : JS.Result Song) : JS.Result Observation :=
  match r with
  | JS.Ok song => JS.Ok (observation song)
  | JS.Throw m => JS.Throw m
  end.

Definition withSeed (s : Z) (song : Song) : Song :=
  mkSong s (preset song) (key song) (tempo song) (swing song) (sections song)
         (totalBars song) (fxParams song).

Definition sectionName_eqb (a b : SectionName) : bool :=
  match a, b with
  | intro, intro | verse, verse | chorus, chorus | bridge, bridge
  | outro, outro => true
  | _, _ => false
  end.

Definition sectionNameString (n : SectionName) : string :=
  match n with
  | intro => "intro"
  | verse => "verse"
  | chorus => "chorus"
  | bridge => "bridge"
  | outro => "outro"
  end.

End Song.

(** ** song.ts: SongBuilder *)
Module SongGen.
Import JS Instruments Presets Song MusicTheory Rng.
Local Open Scope gen_scope.

Definition SECTION_STRUCTURES : list (list SectionName) :=
  [ [intro; verse; chorus; verse; bridge; chorus; outro];
    [intro; verse; chorus; verse; chorus; outro];
    [intro; verse; verse; bridge; chorus; outro];
    [verse; chorus; verse; bridge; chorus] ].

Definition SECTION_BARS (n : SectionName) : Z * Z :=
  match n with
  | intro => (2, 4)
  | verse => (4, 8)
  | chorus => (4, 8)
  | bridge => (4, 8)
  | outro => (2, 4)
  end.

Definition CHORD_VELOCITIES : list float := [0.88; 0.72; 0.62; 0.55]%float.

Definition maybeSusQuality (q : string) (prob : float) : Gen string :=
  if PrimFloat.leb prob 0 then ret q
  else
    let* hit := chance prob in
    if negb hit then ret q
    else if String.eqb q "maj" then
      let* c := chance 0.5 in ret (if c then "sus2" else "sus4")
    else if String.eqb q "min" then ret "sus4"
    else ret q.

(** [progression[i]] followed by a destructuring of the template, which
    throws on undefined. *)
Definition templateAt (progression : ChordProgressionTemplate) (i : Z)
  : Result (Z * string) :=
  match (if i <? 0 then None else nth_error progression (Z.to_nat i)) with
  | Some t => Ok t
  | None => Throw "TypeError: undefined is not iterable"
  end.

Definition progLen (progression : ChordProgressionTemplate) : Z :=
  Z.of_nat (List.length progression).

Definition chordAtBar (key : string) (progression : ChordProgressionTemplate)
  (preset : LofiPreset) (bar : Z) : Result Z :=
  bindR (templateAt progression (jsrem bar (progLen progression))) (fun template =>
  Ok (MusicTheory.root (resolveChordFromTemplate key (scaleType preset) template))).

(** [preset.chordDurationBars ?? 1] *)
Definition chordBarsOf (preset : LofiPreset) : Z :=
  match chordDurationBars preset with Some n => n | None => 1 end.

(** [preset.chordVoicing ?? ["block"]] *)
Definition voicingsOf (preset : LofiPreset) : list Voicing :=
  match chordVoicing preset with Some l => l | None => [block] end.

(** The triad substitution applied when [preset.useSoftVoicings] is set. *)
Definition softQuality (preset : LofiPreset) (quality : string) : string :=
  match useSoftVoicings preset with
  | Some true =>
      if String.eqb quality "maj7" then "maj"
      else if String.eqb quality "min7" then "min"
      else quality
  | _ => quality
  end.

(** [for (i = 0; i < n; i += step)]; a non-positive [step] never leaves
    the loop. *)
Definition forStep {S} (n step : Z) (f : S -> Z -> Gen S) (s : S) : Gen S :=
  if (step <=? 0) && (0 <? n) then throw "loop does not terminate"
  else foldM f (rangeStep n step) s.

Definition forRange {S} (n : Z) (f : S -> Z -> Gen S) (s : S) : Gen S :=
  foldM f (range n) s.

(** [arr[i] = x]: inside the array the element is replaced, at its end the
    array grows by one. *)
Fixpoint setNth {A} (l : list A) (i : nat) (x : A) : list A :=
  match l, i with
  | [], _ => [x]
  | _ :: r, O => x :: r
  | a :: r, S i' => a :: setNth r i' x
  end.

Definition lenZ {A} (l : list A) : Z := Z.of_nat (List.length l).

(** The result of a computation on [r], dropping the final generator. *)
Definition evalOn {A} (c : Gen A) (r : Rng) : Result A :=
  match c r with
  | Ok (a, _) => Ok a
  | Throw m => Throw m
  end.

Definition isEdge (n : SectionName) : bool :=
  match n with intro | outro => true | _ => false end.

Section WithMath.
Variable math : MathLib.

Definition generateMotif (scale : list Z) (lengthRange : Z * Z) : Gen Motif :=
  forked (
    let* len := int (fst lengthRange) (snd lengthRange) in
    let scaleLen := lenZ scale in
    let chordTones := [0; 2; 4] in
    let* startDeg := pick chordTones in
    let* degrees :=
      foldM (fun (degrees : list Z) (_ : Z) =>
               let last := List.last degrees 0 in
               let* move := weightedPick [-1; -2; -3; 1; 2; 3]
                              [35; 10; 5; 35; 10; 5]%float in
               let next := Z.max 0 (Z.min (scaleLen - 1) (last + move)) in
               ret (degrees ++ [next]))
            (range (len - 1)) [startDeg] in
    let* durations :=
      forRange len (fun (durations : list string) _ =>
               let* d := weightedPick ["8n"; "4n"; "2n"] [70; 25; 5]%float in
               ret (durations ++ [d])) [] in
    let* velocities :=
      forRange len (fun (velocities : list float) i =>
               let t := (ofZ i / ofZ (Z.max 1 (len - 1)))%float in
               let arc := (0.5 + 0.35 * m_sin math (t * PI))%float in
               let* g := gaussian math 0 0.08 in
               ret (velocities ++ [(0.6 + g + arc * 0.2)%float])) [] in
    ret (mkMotif degrees durations velocities)).

Definition varyMotif (motif : Motif) (amount : float) : Gen Motif :=
  forked (
    if PrimFloat.leb amount 0 then ret motif
    else
      let degrees := degrees motif in
      let durations := durations motif in
      let velocities := velocities motif in
      let scaleLen := 7 in
      let* c1 := chance (amount * 0.3)%float in
      let* degrees :=
        if c1 && (0 <? lenZ degrees) then
          let* i := int 0 (lenZ degrees - 1) in
          let* d := index degrees i in
          let* delta := pick [-1; 1] in
          ret (setNth degrees (Z.to_nat i)
                 (Z.max 0 (Z.min (scaleLen - 1) (d + delta))))
        else ret degrees in
      let* c2 := chance (amount * 0.2)%float in
      let* degrees :=
        if c2 && (2 <=? lenZ degrees) then
          let* i := int 0 (lenZ degrees - 2) in
          let* a := index degrees i in
          let* b := index degrees (i + 1) in
          ret (setNth (setNth degrees (Z.to_nat i) b) (Z.to_nat (i + 1)) a)
        else ret degrees in
      let* c3 := chance (amount * 0.2)%float in
      let* durations :=
        if c3 then
          let* i := int 0 (lenZ durations - 1) in
          let* d := pick ["8n"; "4n"; "2n"] in
          ret (setNth durations (Z.to_nat i) d)
        else ret durations in
      let* c4 := chance (amount * 0.15)%float in
      let* degrees :=
        if c4 && (0 <? lenZ degrees) then
          let* i := int 0 (lenZ degrees - 1) in
          ret (setNth degrees (Z.to_nat i) (-1))
        else ret degrees in
      ret (mkMotif degrees durations velocities)).

Definition invertMotif (motif : Motif) : Motif :=
  match degrees motif with
  | [] => motif
  | first :: _ =>
      mkMotif (map (fun d => if d =? -1 then -1 else first - (d - first))
                 (degrees motif))
              (durations motif) (velocities motif)
  end.

Definition fragmentMotif (motif : Motif) (keepRatio : float) : Motif :=
  let keep :=
    match floorF (ofZ (lenZ (degrees motif)) * keepRatio)%float with
    | Some k => Z.max 1 k
    | None => 0          (* Math.max (1, NaN) is NaN, and slice (0, NaN) is empty *)
    end in
  mkMotif (firstn (Z.to_nat keep) (degrees motif))
          (firstn (Z.to_nat keep) (durations motif))
          (firstn (Z.to_nat keep) (velocities motif)).

Definition resolveChords (key : string) (progression : ChordProgressionTemplate)
  (preset : LofiPreset) (sectionStartBar sectionBars : Z)
  : Gen (list InstrumentNoteEvent) :=
  forked (
    let len := progLen progression in
    let chordBars := chordBarsOf preset in
    let padVol := Presets.padVolume preset in
    let baseVel := fmax 0.5 (0.7 + padVol / 25)%float in
    let voicingModes := voicingsOf preset in
    let susProb := match susChordProbability preset with
                   | Some p => p
                   | None => 0%float
                   end in
    forStep sectionBars chordBars (fun (events : list InstrumentNoteEvent) bar =>
      let* (degree, quality) :=
        liftR (templateAt progression (jsrem (bar / chordBars) len)) in
      let q := softQuality preset quality in
      let* q := maybeSusQuality q susProb in
      let root := MusicTheory.root (resolveChordFromTemplate key (scaleType preset) (degree, q)) in
      let* mode := pick voicingModes in
      let duration := if chordBars =? 2 then "2m" else "1n" in
      let baseTime := timeString (sectionStartBar + bar) 0 0 in
      let* chordNotes :=
        liftR (match mode with
               | spread => spreadChord root q
               | _ => bindR (buildChord root q) (fun ns =>
                        Ok (filter (fun n => 28 <=? n) (map (fun n => n - 12) ns)))
               end) in
      let* voicing :=
        foldM (fun (voicing : list (string * float)) '(i, n) =>
                 let velCurve := nth i CHORD_VELOCITIES 0.6%float in
                 let* jitter := gaussian math 0 0.02 in
                 ret (voicing ++
                        [(midiToName n,
                          fmax 0.35 (fmin 0.65 (baseVel * velCurve + jitter)%float))]))
              (combine (seq 0 (List.length chordNotes)) chordNotes) [] in
      let held := map (fun v => mkNote baseTime (fst v) duration (snd v) pad) voicing in
      match mode with
      | block => ret (events ++ held)
      | broken | arpeggio =>
          let step := "8n" in
          let* c := chance 0.5 in
          let ordering := if c then voicing else rev voicing in
          ret (events ++
                 map (fun '(i, v) =>
                        let sixteenth := Z.of_nat i * 2 in
                        let beat := sixteenth / 4 in
                        let rem := jsrem sixteenth 4 in
                        mkNote (timeString (sectionStartBar + bar) beat rem)
                               (fst v) step (snd v) pad)
                     (combine (seq 0 (List.length ordering)) ordering))
      | spread => ret (events ++ held)
      end) []).

Definition durTo16 (d : string) : Z :=
  if String.eqb d "8n" then 2
  else if String.eqb d "4n" then 4
  else if String.eqb d "2n" then 8
  else 2.

Definition lengthen (d : string) : string :=
  if String.eqb d "8n" then "4n"
  else if String.eqb d "4n" then "2n"
  else d.

(** The notes of one two-bar slot of [generateMelody]. *)
Definition melodySlot (m : Motif) (scale : list Z) (key : string)
  (progression : ChordProgressionTemplate) (preset : LofiPreset)
  (slotStartBar : Z) (events : list InstrumentNoteEvent)
  : Gen (list InstrumentNoteEvent) :=
  let restProb := melodyRestProbability preset in
  let scaleLen := lenZ scale in
  let* (events, _) :=
    foldM (fun '(events, sixteenth) '(i, deg) =>
      if deg =? -1 then ret (events, sixteenth)
      else
        let* rest := chance restProb in
        if rest then ret (events, sixteenth)
        else
          let* pitchClass :=
            index scale (jsrem (jsrem deg scaleLen + scaleLen) scaleLen) in
          let octaveOffset := if scaleLen <=? deg then 1
                              else if deg <? 0 then -1 else 0 in
          let midi := 60 + pitchClass + octaveOffset * 12 in
          let note := midiToName midi in
          let bar := slotStartBar + sixteenth / 16 in
          let rem := jsrem sixteenth 16 in
          let beat := rem / 4 in
          let sixteen := jsrem rem 4 in
          let time := timeString bar beat sixteen in
          let* v0 := index (velocities m) (Z.of_nat i) in
          let* g := gaussian math 0 0.08 in
          let vel := fmax 0.2 (fmin 1 (v0 + g)%float) in
          let* chordRoot := liftR (chordAtBar key progression preset bar) in
          let chordPitch := jsrem chordRoot 12 in
          let notePitch := jsrem midi 12 in
          let vel :=
            if (notePitch =? chordPitch)
               || (notePitch =? jsrem (chordPitch + 4) 12)
               || (notePitch =? jsrem (chordPitch + 7) 12)
            then fmin 1 (vel * 1.1)%float else vel in
          let* d := index (durations m) (Z.of_nat i) in
          ret (events ++ [mkNote time note d vel melody], sixteenth + durTo16 d))
      (combine (seq 0 (List.length (degrees m))) (degrees m)) (events, 0) in
  ret events.

Definition generateMelody (motif : Motif) (scale : list Z) (section : SongSection)
  (key : string) (progression : ChordProgressionTemplate) (preset : LofiPreset)
  (sectionStartBar : Z) : Gen (list InstrumentNoteEvent) :=
  fun this_rng =>
  forked (
    let restProb := melodyRestProbability preset in
    match Song.name section with
    | intro => ret []
    | sname =>
        let twoBarSlots := bars section / 2 in
        forRange twoBarSlots (fun (events : list InstrumentNoteEvent) slot =>
          let slotStartBar := sectionStartBar + slot * 2 in
          match sname with
          | verse =>
              let* m := liftR (evalOn (varyMotif motif 0.2) this_rng) in
              melodySlot m scale key progression preset slotStartBar events
          | chorus =>
              let* c := chance 0.5 in
              let m := if c then invertMotif motif else motif in
              let* m := liftR (evalOn (varyMotif m 0.15) this_rng) in
              melodySlot m scale key progression preset slotStartBar events
          | bridge =>
              let m := fragmentMotif motif 0.4 in
              let* skip := chance (restProb * 1.5)%float in
              if skip then ret events
              else melodySlot m scale key progression preset slotStartBar events
          | outro =>
              let m := fragmentMotif motif 0.3 in
              let m := mkMotif (degrees m) (map lengthen (durations m)) (velocities m) in
              melodySlot m scale key progression preset slotStartBar events
          | intro =>
              melodySlot motif scale key progression preset slotStartBar events
          end) []
    end) this_rng.

Definition generateBass (key : string) (progression : ChordProgressionTemplate)
  (preset : LofiPreset) (section : SongSection) (sectionStartBar : Z)
  : Gen (list InstrumentNoteEvent) :=
  forked (
    let len := progLen progression in
    let isSparse := match Song.name section with
                    | intro | outro | bridge => true
                    | _ => false
                    end in
    let step := if isSparse then 2 else 1 in
    let chordBars := chordBarsOf preset in
    let intensity := match Song.name section with
                     | chorus => 0.92%float
                     | verse => 0.85%float
                     | _ => 0.7%float
                     end in
    forRange (bars section) (fun (events : list InstrumentNoteEvent) bar =>
      let* template := liftR (templateAt progression (jsrem (bar / chordBars) len)) in
      let root := MusicTheory.root (resolveChordFromTemplate key (scaleType preset) template) in
      let bassRoot := root - 12 in
      let bass5th := root - 12 + 7 in
      let rootNote := midiToName bassRoot in
      let fifthNote := midiToName bass5th in
      forStep 4 step (fun (events : list InstrumentNoteEvent) beat =>
        let time := timeString (sectionStartBar + bar) beat 0 in
        let* useFifth :=
          if (beat =? 2) && negb isSparse then chance 0.25 else ret false in
        let note := if useFifth then fifthNote else rootNote in
        let* g := gaussian math 0 0.05 in
        let vel := (0.78 + g)%float in
        let events :=
          events ++ [mkNote time note (if isSparse then "2n" else "4n")
                       (fmax 0.5 (fmin 1 (vel * intensity)%float)) bass] in
        let* pickup :=
          if (beat =? 3) && negb isSparse then chance 0.2 else ret false in
        if pickup && (chordBars =? 1) then
          let* nextTemplate := liftR (templateAt progression (jsrem (bar + 1) len)) in
          let nextRoot :=
            MusicTheory.root (resolveChordFromTemplate key (scaleType preset) nextTemplate) - 12 in
          ret (events ++ [mkNote (timeString (sectionStartBar + bar) 3 2)
                            (midiToName (nextRoot - 1)) "8n" 0.6%float bass])
        else ret events) events) []).

Definition generateTexture (key : string) (progression : ChordProgressionTemplate)
  (preset : LofiPreset) (section : SongSection) (sectionStartBar : Z)
  : Gen (list InstrumentNoteEvent) :=
  forked (
    if isEdge (Song.name section) then ret []
    else
      let len := progLen progression in
      let chordBars := chordBarsOf preset in
      forRange (bars section) (fun (events : list InstrumentNoteEvent) bar =>
        let* template := liftR (templateAt progression (jsrem (bar / chordBars) len)) in
        let root := MusicTheory.root (resolveChordFromTemplate key (scaleType preset) template) in
        let q := softQuality preset (snd template) in
        let* tones := liftR (buildChord root q) in
        let highTones :=
          filter (fun m => (72 <=? m) && (m <=? 84)) (map (fun m => m + 24) tones) in
        match highTones with
        | [] => ret events
        | _ =>
            let density := match Song.name section with
                           | chorus => 0.5%float
                           | verse => 0.4%float
                           | _ => 0.25%float
                           end in
            let* hit := chance density in
            if negb hit then ret events
            else
              let* idx := int 0 (lenZ highTones - 1) in
              let* tone := index highTones idx in
              let note := midiToName tone in
              let* beat := int 0 3 in
              let* sixteen := int 0 3 in
              let time := timeString (sectionStartBar + bar) beat sixteen in
              let* g := gaussian math 0 0.04 in
              let vel := (0.18 + g)%float in
              ret (events ++ [mkNote time note "4n"
                                (fmax 0.12 (fmin 0.35 vel)) texture])
        end) []).

(** The body shared, up to its constants, by [generateContrabass] and
    [generateSubbass]: one held note per bar, [drop] semitones below the
    chord root, skipped under [floor]. *)
Definition lowLayer (drop floor : Z) (vel : float) (voice : InstrumentId)
  (key : string) (progression : ChordProgressionTemplate)
  (preset : LofiPreset) (section : SongSection) (sectionStartBar : Z)
  : Result (list InstrumentNoteEvent) :=
  if isEdge (Song.name section) then Ok []
  else
    let len := progLen progression in
    let chordBars := chordBarsOf preset in
    fold_left (fun (acc : Result (list InstrumentNoteEvent)) bar =>
      bindR acc (fun events =>
      bindR (templateAt progression (jsrem (bar / chordBars) len)) (fun template =>
      let root := MusicTheory.root (resolveChordFromTemplate key (scaleType preset) template) in
      let n := root - drop in
      if n <? floor then Ok events
      else Ok (events ++ [mkNote (timeString (sectionStartBar + bar) 0 0)
                            (midiToName n)
                            (if chordBars =? 2 then "2m" else "1n")
                            vel voice]))))
      (range (bars section)) (Ok []).

Definition generateContrabass := lowLayer 12 28 0.65%float contrabass.

Definition generateSubbass := lowLayer 24 20 0.7%float subbass.

Definition generateExtraInstrument (instrumentId : InstrumentId) (key : string)
  (progression : ChordProgressionTemplate) (preset : LofiPreset)
  (section : SongSection) (sectionStartBar : Z)
  : Gen (list InstrumentNoteEvent) :=
  forked (
    if isEdge (Song.name section) then ret []
    else
      let len := progLen progression in
      let chordBars := chordBarsOf preset in
      let chordVoicing := voicingsOf preset in
      let isGuitar := InstrumentId_eqb instrumentId guitar in
      let isViolin := InstrumentId_eqb instrumentId violin in
      let isPiano := InstrumentId_eqb instrumentId piano in
      forStep (bars section) chordBars (fun (events : list InstrumentNoteEvent) bar =>
        let* (degree, quality) :=
          liftR (templateAt progression (jsrem (bar / chordBars) len)) in
        let q := softQuality preset quality in
        let root := MusicTheory.root (resolveChordFromTemplate key (scaleType preset) (degree, q)) in
        let* mode := pick chordVoicing in
        let* chordNotes :=
          liftR (match mode with
                 | spread => spreadChord root q
                 | _ => bindR (buildChord root q) (fun ns =>
                          Ok (map (fun n => n + (if isGuitar then 0 else 12)) ns))
                 end) in
        let* isArpeggio :=
          if isPiano || isGuitar then chance 0.5 else ret false in
        foldM (fun (events : list InstrumentNoteEvent) '(i, midi) =>
          if (midi <? 36) || (84 <? midi) then ret events
          else
            let sixteenth := if isArpeggio then Z.of_nat i * 2 else 0 in
            let beat := sixteenth / 4 in
            let rem := jsrem sixteenth 4 in
            let time := if isArpeggio
                        then timeString (sectionStartBar + bar) beat rem
                        else timeString (sectionStartBar + bar) 0 0 in
            let baseVel := if isGuitar then 0.45%float
                           else if isViolin then 0.38%float else 0.4%float in
            let* jitter := if isGuitar then gaussian math 0 0.04 else ret 0%float in
            let vel := (baseVel + jitter)%float in
            ret (events ++
                   [mkNote time (midiToName midi)
                      (if isGuitar || isArpeggio then "8n" else "1n")
                      (fmax 0.2 (fmin (if isViolin then 0.52 else 0.6)%float vel))
                      instrumentId]))
          (combine (seq 0 (List.length chordNotes)) chordNotes) events) []).

(** [pat[step] > 0], false for an undefined step. *)
Definition stepAt (l : list float) (step : Z) : float :=
  nth (Z.to_nat step) l 0%float.

Definition generateDrums (preset : LofiPreset) (section : SongSection)
  (sectionStartBar : Z) : Gen (list DrumEvent) :=
  forked (
    let* basic := pick (drumPatterns preset) in
    let* fill := pick (drumFills preset) in
    let* useFill :=
      if negb (isEdge (Song.name section)) && (0 <? bars section)
      then chance 0.8 else ret false in
    let thinOut := isEdge (Song.name section) in
    let thinProb := match Song.name section with
                    | intro => 0.6%float
                    | _ => 0.7%float
                    end in
    forRange (bars section) (fun (events : list DrumEvent) bar =>
      let isLastBar := bar =? bars section - 1 in
      let pat := if isLastBar && useFill then fill else basic in
      forRange 16 (fun (events : list DrumEvent) step =>
        let time := timeString (sectionStartBar + bar) (step / 4) (jsrem step 4) in
        let* kickOn :=
          if PrimFloat.ltb 0 (stepAt (pat_kick pat) step)
          then (if thinOut then chance (1 - thinProb)%float else ret true)
          else ret false in
        let events :=
          if kickOn then
            let v := (stepAt (pat_kick pat) step * (kickVolume preset / (-6)))%float in
            events ++ [mkDrum time kick (fmax 0.2 (fmin 1 v))]
          else events in
        let* snareOn :=
          if PrimFloat.ltb 0 (stepAt (pat_snare pat) step)
          then (if thinOut then chance (1 - thinProb)%float else ret true)
          else ret false in
        let events :=
          if snareOn then
            let v := (stepAt (pat_snare pat) step * (1 + snareVolume preset / 20))%float in
            events ++ [mkDrum time snare (fmax 0.2 (fmin 1 v))]
          else events in
        if PrimFloat.ltb 0 (stepAt (pat_hihat pat) step) then
          let v := (stepAt (pat_hihat pat) step * (1 + hihatVolume preset / 20))%float in
          ret (events ++ [mkDrum time hihat (fmax 0.15 (fmin 1 v))])
        else ret events) events) []).

Definition generateFXParams (preset : LofiPreset) : Gen SongFXParams :=
  let* a := next in
  let* b := next in
  let* c := next in
  let* d := next in
  let* e := next in
  ret (mkFX (reverbDecay preset * (0.95 + a * 0.1))%float
            (reverbMix preset * (0.9 + b * 0.2))%float
            (delayMix preset * (0.85 + c * 0.3))%float
            (filterCutoff preset * (0.9 + d * 0.2))%float
            (crackleMix preset * (0.8 + e * 0.4))%float).

Definition sectionPadVolume (section : SongSection) : Z :=
  match Song.name section with
  | intro => -12
  | outro => -9
  | _ => 0
  end.

(** The private fields of [SongBuilder].  The two arrays of [_structure]
    are kept zipped. *)
Record SongBuilder : Type := mkBuilder
  { b_seed : Z;
    b_rng : Rng;
    _preset : option LofiPreset;
    _key : option string;
    _tempo : option Z;
    _structure : option (list (SectionName * Z));
    _progression : option ChordProgressionTemplate }.

Definition fromSeed (seed : Z) : SongBuilder :=
  mkBuilder seed (Rng.new seed) None None None None None.

(** [a ?? b] with an effectful right operand. *)
Definition orElse {A} (o : option A) (g : Gen A) : Gen A :=
  match o with
  | Some a => ret a
  | None => g
  end.

Definition defaultExtraInstruments : list ExtraInstrument :=
  [ mkExtra piano 0.4; mkExtra violin 0.25; mkExtra guitar 0.2 ]%float.

(** The body of the section loop of [build]. *)
Definition buildSection (key : string) (progression : ChordProgressionTemplate)
  (preset : LofiPreset) (motif : Motif) (scale : list Z)
  (name : SectionName) (sectionBars startBar : Z) : Gen SongSection :=
  let section := mkSection name startBar sectionBars [] [] 0 in
  let* chords := resolveChords key progression preset startBar sectionBars in
  let* mel := generateMelody motif scale section key progression preset startBar in
  let* bas := generateBass key progression preset section startBar in
  let* tex := generateTexture key progression preset section startBar in
  let all := chords ++ mel ++ bas ++ tex in
  let* withSub := chance 0.6 in
  let* all :=
    if withSub then
      let* ev := liftR (generateSubbass key progression preset section startBar) in
      ret (all ++ ev)
    else ret all in
  let* withContra := chance 0.35 in
  let* all :=
    if withContra then
      let* ev := liftR (generateContrabass key progression preset section startBar) in
      ret (all ++ ev)
    else ret all in
  let extras := match extraInstruments preset with
                | Some l => l
                | None => defaultExtraInstruments
                end in
  let* all :=
    foldM (fun (all : list InstrumentNoteEvent) (x : ExtraInstrument) =>
             let* on := chance (extra_probability x) in
             if on then
               let* ev := generateExtraInstrument (extra_id x) key progression
                            preset section startBar in
               ret (all ++ ev)
             else ret all) extras all in
  let* drums := generateDrums preset section startBar in
  let section := mkSection name startBar sectionBars all drums 0 in
  ret (mkSection name startBar sectionBars all drums (sectionPadVolume section)).

(** [build ()], as a computation over [this.rng]. *)
Definition buildGen (b : SongBuilder) : Gen Song :=
  let* preset := orElse (_preset b) (pick PRESETS) in
  let* key := orElse (_key b) (pick (keys preset)) in
  let* tempo := orElse (_tempo b)
                  (int (fst (tempoRange preset)) (snd (tempoRange preset))) in
  let* scale := liftR (buildScale key (scaleType preset)) in
  let* structure :=
    orElse (_structure b)
      (let* names := pick SECTION_STRUCTURES in
       foldM (fun (acc : list (SectionName * Z)) name =>
                let '(minBars, maxBars) := SECTION_BARS name in
                let* n := int minBars maxBars in
                ret (acc ++ [(name, n)])) names []) in
  let* progression := orElse (_progression b) (pick (progressions preset)) in
  let* motif := generateMotif scale (motifLength preset) in
  let* (sections, startBar) :=
    foldM (fun '(sections, startBar) '(name, sectionBars) =>
             let* section := buildSection key progression preset motif scale
                               name sectionBars startBar in
             ret (sections ++ [section], startBar + sectionBars))
          structure ([], 0) in
  let* fxParams := generateFXParams preset in
  ret (mkSong (b_seed b) preset key tempo (Presets.swing preset) sections startBar
         fxParams).

Definition build (b : SongBuilder) : Result (Song * SongBuilder) :=
  match buildGen b (b_rng b) with
  | Ok (song, rng') =>
      Ok (song, mkBuilder (b_seed b) rng' (_preset b) (_key b) (_tempo b)
                  (_structure b) (_progression b))
  | Throw m => Throw m
  end.

(** Convenience: build a song from seed (same as SongBuilder.fromSeed(seed).build()) *)
Definition buildSong (seed : Z) : Result Song :=
  match build (fromSeed seed) with
  | Ok (song, _) => Ok song
  | Throw m => Throw m
  end.

End WithMath.
End SongGen.

(** ** The transport *)
Module Transport.

(** Modelled from the spec: the transport is the collaborator of the
    playback scheduler (Tone.js, not part of this repository).  A
    registration is made for one time or repeats from a start at an
    interval, and carries the handle that [schedule] or [scheduleRepeat]
    returned for it. *)
Inductive When : Type :=
| Once (time : string)
| Repeat (interval start : string).

Record Registration (C : Type) : Type := mkReg
  { rid : Z; rwhen : When; rcb : C }.
Arguments mkReg {C} rid rwhen rcb.
Arguments rid {C} r.
Arguments rwhen {C} r.
Arguments rcb {C} r.

Record Transport (C : Type) : Type := mkTransport
  { nextId : Z; timeline : list (Registration C) }.
Arguments mkTransport {C} nextId timeline.
Arguments nextId {C} t.
Arguments timeline {C} t.

Definition empty {C} : Transport C := mkTransport 0 [].

(** Modelled from the spec: [schedule (callback, time) -> handle]. *)
Definition schedule {C} (cb : C) (time : string) (tr : Transport C)
  : Z * Transport C :=
  (nextId tr,
   mkTransport (nextId tr + 1) (timeline tr ++ [mkReg (nextId tr) (Once time) cb])).

(** Modelled from the spec:
    [scheduleRepeat (callback, interval, start) -> handle]. *)
Definition scheduleRepeat {C} (cb : C) (interval start : string)
  (tr : Transport C) : Z * Transport C :=
  (nextId tr,
   mkTransport (nextId tr + 1)
     (timeline tr ++ [mkReg (nextId tr) (Repeat interval start) cb])).

(** Modelled from the spec: [clear (handle)] cancels the registration. *)
Definition clear {C} (id : Z) (tr : Transport C) : Transport C :=
  mkTransport (nextId tr) (filter (fun r => negb (rid r =? id)) (timeline tr)).

Definition clearAll {C} (ids : list Z) (tr : Transport C) : Transport C :=
  fold_left (fun t id => clear id t) ids tr.

(** The three fields of a position [bar:beat:sixteenth]. *)
Definition decode (s : string) : Z * Z * Z :=
  let parts := map (fun x => JS.orZero (JS.parseInt x)) (JS.split_colon s) in
  (nth 0 parts 0, nth 1 parts 0, nth 2 parts 0).

Definition positionTicks (s : string) : Z :=
  let '(bar, beat, sixteenth) := decode s in
  32 * bar + 8 * beat + 2 * sixteenth.

(** Length of an interval in 32nd notes: ["1m"] is a bar, ["32n"] a 32nd. *)
Definition intervalTicks (s : string) : option Z :=
  if String.eqb s "1m" then Some 32
  else if String.eqb s "32n" then Some 1
  else if String.eqb s "16n" then Some 2
  else if String.eqb s "8n" then Some 4
  else if String.eqb s "4n" then Some 8
  else if String.eqb s "2n" then Some 16
  else if String.eqb s "1n" then Some 32
  else None.

(** Modelled from the spec: the transport advanced past event times.  A
    one-shot registration fires when the position reaches its time, a
    repeating one at its start and then every interval.  Positions are
    counted in 32nd notes, the finest grid the scheduler uses. *)
Definition due {C} (tick : Z) (r : Registration C) : bool :=
  match rwhen r with
  | Once time => tick =? positionTicks time
  | Repeat interval start =>
      match intervalTicks interval with
      | Some d =>
          (positionTicks start <=? tick)
          && ((tick - positionTicks start) mod d =? 0)
      | None => false
      end
  end.

(** The registrations fired at [tick], in registration order. *)
Definition fired {C} (tr : Transport C) (tick : Z) : list (Registration C) :=
  filter (due tick) (timeline tr).

(** Everything fired while the position advances over the ticks
    [0 .. n-1]. *)
Definition run {C} (tr : Transport C) (n : nat) : list (Z * Registration C) :=
  flat_map (fun k => map (fun r => (Z.of_nat k, r)) (fired tr (Z.of_nat k)))
           (seq 0 n).

End Transport.

(** ** song-scheduler.ts *)
Module Scheduler.
Import JS Instruments Song.

(** The [parse] closure of [compareTransportTime].  Its value is an
    integral number, exact as long as it stays below 2^53. *)
Definition parse (s : string) : Z :=
  let parts := map (fun x => orZero (parseInt x)) (split_colon s) in
  nth 0 parts 0 * 16 + nth 1 parts 0 * 4 + nth 2 parts 0.

Definition compareTransportTime (a b : string) : Z := parse a - parse b.

(** [Array.prototype.sort (compareFn)]: a stable sort. *)
Fixpoint insertBy (cmp : string -> string -> Z) (x : string) (l : list string)
  : list string :=
  match l with
  | [] => [x]
  | y :: r => if cmp x y <? 0 then x :: l else y :: insertBy cmp x r
  end.

Definition sortBy (cmp : string -> string -> Z) (l : list string) : list string :=
  fold_left (fun acc x => insertBy cmp x acc) l [].

(** *** The sound engine as the scheduler sees it *)

Inductive Voice : Type :=
| Melodic (id : InstrumentId)
| Drum (id : DrumId)
| Crackle.

Inductive DurationArg : Type :=
| NoteLength (s : string)
| Seconds (f : float).

(** What a fired callback does: calls of [triggerAttackRelease] on a voice
    and calls of the hooks. *)
Inductive Action : Type :=
| Trigger (voice : Voice) (pitch : option string) (dur : DurationArg)
          (at_ : float) (vel : float)
| OnBar (sectionName : SectionName)
| OnSongEnd.

(** [this.instruments.getMelodicSynths ()], read at [synths[id]]. *)
Definition getMelodicSynths (id : InstrumentId) : option Voice :=
  match id with
  | pad => Some (Melodic pad)
  | melody => Some (Melodic melody)
  | bass => Some (Melodic bass)
  | texture => Some (Melodic texture)
  | subbass => Some (Melodic subbass)
  | piano => Some (Melodic piano)
  | violin => Some (Melodic violin)
  | trumpet => Some (Melodic trumpet)
  | guitar => Some (Melodic guitar)
  | contrabass => Some (Melodic contrabass)
  end.

Record SongSchedulerOptions : Type := mkOptions
  { onBar : bool;        (* is the [onBar] hook supplied? *)
    onSongEnd : bool     (* is the [onSongEnd] hook supplied? *) }.

(** *** [eventsByTime]: a [Map] in insertion order *)

Definition Entry : Type := (list InstrumentNoteEvent * list DrumEvent)%type.
Definition EventMap : Type := list (string * Entry).

Fixpoint mapGet (m : EventMap) (k : string) : option Entry :=
  match m with
  | [] => None
  | (k', v) :: r => if String.eqb k k' then Some v else mapGet r k
  end.

Fixpoint mapSet (m : EventMap) (k : string) (v : Entry) : EventMap :=
  match m with
  | [] => [(k, v)]
  | (k', v') :: r =>
      if String.eqb k k' then (k', v) :: r else (k', v') :: mapSet r k v
  end.

Definition mapKeys (m : EventMap) : list string := map fst m.

Definition emptyEntry : Entry := ([], []).

Definition addInstrument (m : EventMap) (e : InstrumentNoteEvent) : EventMap :=
  let entry := match mapGet m (time e) with Some en => en | None => emptyEntry end in
  mapSet m (time e) (fst entry ++ [e], snd entry).

Definition addDrum (m : EventMap) (e : DrumEvent) : EventMap :=
  let entry := match mapGet m (dtime e) with Some en => en | None => emptyEntry end in
  mapSet m (dtime e) (fst entry, snd entry ++ [e]).

Definition addSection (m : EventMap) (section : SongSection) : EventMap :=
  fold_left addDrum (drumEvents section)
    (fold_left addInstrument (instrumentEvents section) m).

Definition collect (song : Song) : EventMap :=
  fold_left addSection (sections song) [].

(** *** The callbacks handed to the transport *)

Inductive Callback : Type :=
| EventsAt (instrument : list InstrumentNoteEvent) (drum : list DrumEvent)
| BarUpdate (song : Song)
| CrackleTick
| SongEnd.

Definition isPad (e : InstrumentNoteEvent) : bool :=
  InstrumentId_eqb (Song.instrument e) pad.

(** The callback registered for one time position (lines 78-108). *)
Definition dispatch (instrument : list InstrumentNoteEvent) (drum : list DrumEvent)
  (t : float) : list Action :=
  let padEvents := filter isPad instrument in
  let out :=
    match padEvents with
    | [] => []
    | first :: _ =>
        let dur := duration first in
        fold_left (fun out e =>
                     out ++ [Trigger (Melodic pad) (Some (note e)) (NoteLength dur)
                               t (velocity e)])
                  padEvents []
    end in
  let out :=
    fold_left (fun out e =>
                 if isPad e then out
                 else match getMelodicSynths (Song.instrument e) with
                      | Some synth =>
                          out ++ [Trigger synth (Some (note e))
                                    (NoteLength (duration e)) t (velocity e)]
                      | None => out
                      end)
              instrument out in
  fold_left (fun out d =>
               match dinstrument d with
               | kick =>
                   out ++ [Trigger (Drum kick) (Some "C2") (NoteLength "8n")
                             t (dvelocity d)]
               | other =>
                   out ++ [Trigger (Drum other) None (NoteLength "32n")
                             t (dvelocity d)]
               end)
            drum out.

(** The section scan of the per-bar callback (lines 118-125). *)
Fixpoint scanSections (l : list SongSection) (bar acc : Z) : list Action :=
  match l with
  | [] => []
  | s :: r =>
      if (acc <=? bar) && (bar <? acc + bars s) then [OnBar (name s)]
      else scanSections r bar (acc + bars s)
  end.

(** [Math.floor (time * (bpm / 60) / 4)]; [None] when it is not finite. *)
Definition barOf (bpm time : float) : option Z :=
  let beats := (time * (bpm / 60))%float in
  floorF (beats / 4)%float.

(** The per-bar callback (lines 114-126). *)
Definition barUpdate (song : Song) (bpm time : float) : list Action :=
  match barOf bpm time with
  | Some bar => scanSections (sections song) bar 0
  | None => []
  end.

(** The crackle callback (lines 134-146); [random k] is the [k]-th value
    that [Math.random ()] returns.  The result carries the number of
    values consumed. *)
Definition crackleTick (random : nat -> float) (k : nat) (time : float)
  : list Action * nat :=
  let r := random k in
  if PrimFloat.ltb r 0.65 then
    let isTick := PrimFloat.ltb r 0.4 in
    let dur := if isTick then (0.008 + random (S k) * 0.012)%float
               else (0.02 + random (S k) * 0.05)%float in
    let vel := if isTick then (0.2 + random (S (S k)) * 0.35)%float
               else (0.45 + random (S (S k)) * 0.5)%float in
    ([Trigger Crackle None (Seconds dur) time vel], S (S (S k)))
  else ([], S k).

(** *** [SongScheduler.schedule] *)

Definition T : Type := Transport.Transport Callback.

(** The loop over [sortedTimes] (lines 73-110). *)
Definition registerTimes (m : EventMap) (sortedTimes : list string)
  (st : list Z * T) : list Z * T :=
  fold_left (fun '(ids, tr) time =>
               let '(instrument, drum) :=
                 match mapGet m time with Some en => en | None => emptyEntry end in
               let '(id, tr') :=
                 Transport.schedule (EventsAt instrument drum) time tr in
               (ids ++ [id], tr'))
            sortedTimes st.

(** [[...eventsByTime.keys ()].sort (compareTransportTime)] *)
Definition sortedTimes (eventsByTime : EventMap) : list string :=
  sortBy compareTransportTime (mapKeys eventsByTime).

Definition schedule (song : Song) (options : SongSchedulerOptions) (tr : T)
  : list Z * T :=
  let eventsByTime := collect song in
  let '(ids, tr) := registerTimes eventsByTime (sortedTimes eventsByTime) ([], tr) in
  let '(ids, tr) :=
    if onBar options then
      let '(barUpdateId, tr') :=
        Transport.scheduleRepeat (BarUpdate song) "1m" "0:0:0" tr in
      (ids ++ [barUpdateId], tr')
    else (ids, tr) in
  let '(crackleId, tr) := Transport.scheduleRepeat CrackleTick "32n" "0:0:0" tr in
  let ids := ids ++ [crackleId] in
  if onSongEnd options then
    let '(nextSongId, tr') :=
      Transport.schedule SongEnd (show (totalBars song) ++ ":0:0")%string tr in
    (ids ++ [nextSongId], tr')
  else (ids, tr).

End Scheduler.

(** ** engine.ts *)
Module Engine.
Import JS Instruments Song.

Record LofiParams : Type := mkParams
  { p_crackleMix : float;
    p_delayMix : float;
    p_filterCutoff : float;
    p_instrumentVolumes : list (string * float);
    p_reverbMix : float;
    p_tempo : float;
    p_volume : float }.

Definition DEFAULT_PARAMS : LofiParams :=
  {| p_tempo := 75;
     p_volume := 1;
     p_reverbMix := 0.4;
     p_filterCutoff := 1200;
     p_crackleMix := 0.08;
     p_delayMix := 0.15;
     p_instrumentVolumes := [] |}%float.

(** The calls the engine makes on the mixer, the voices and the transport
    clock, in the order it makes them. *)
Inductive Call : Type :=
| MixerCancelVolumeScheduled
| MixerSetVolume (value : float)
| MixerApplyParams (filterCutoff reverbMix delayMix crackleMix volume : float)
| MixerConfigureFX (reverbDecay reverbMix delayMix filterCutoff : float)
| CrackleBgStart
| CrackleBgStop
| InstrumentsConfigurePreset (presetName : string)
| InstrumentsApplyVolumes (volumes : list (string * float))
| InstrumentsReleaseAll
| TransportStart
| TransportStop
| TransportSetSwing (swing : float)
| TransportSetBpm (bpm : float)
| TransportSetPosition (position : string).

Record LofiEngine : Type := mkEngine
  { transport : Scheduler.T;
    currentSong : option Song;
    scheduledIds : list Z;
    currentSectionName : string;
    params : LofiParams;
    calls : list Call }.

Definition create : LofiEngine :=
  mkEngine Transport.empty None [] "" DEFAULT_PARAMS [].

Definition call (c : list Call) (e : LofiEngine) : LofiEngine :=
  mkEngine (transport e) (currentSong e) (scheduledIds e)
           (currentSectionName e) (params e) (calls e ++ c).

Definition clearScheduled (e : LofiEngine) : LofiEngine :=
  mkEngine (Transport.clearAll (scheduledIds e) (transport e))
           (currentSong e) [] (currentSectionName e) (params e) (calls e).

Definition applyParamOverrides (e : LofiEngine) : LofiEngine :=
  let p := params e in
  call [ TransportSetBpm (p_tempo p);
         MixerApplyParams (p_filterCutoff p) (p_reverbMix p) (p_delayMix p)
                          (p_crackleMix p) (p_volume p);
         InstrumentsApplyVolumes (p_instrumentVolumes p) ] e.

(** [setParams (p)] with the merged parameters [{ ...this.params, ...p }]. *)
Definition setParams (merged : LofiParams) (e : LofiEngine) : LofiEngine :=
  applyParamOverrides
    (mkEngine (transport e) (currentSong e) (scheduledIds e)
              (currentSectionName e) merged (calls e)).

Definition configureSynths (song : Song) (e : LofiEngine) : LofiEngine :=
  call [ InstrumentsConfigurePreset (Presets.name (preset song));
         InstrumentsApplyVolumes (p_instrumentVolumes (params e)) ] e.

Definition configureFX (fx : SongFXParams) (e : LofiEngine) : LofiEngine :=
  call [ MixerConfigureFX (fx_reverbDecay fx) (fx_reverbMix fx) (fx_delayMix fx)
                          (fx_filterCutoff fx) ] e.

Definition playSong (song : Song) (e : LofiEngine) : LofiEngine :=
  let e := mkEngine (transport e) (Some song) (scheduledIds e)
                    (currentSectionName e) (params e) (calls e) in
  let e := clearScheduled e in
  let e := configureSynths song e in
  let e := configureFX (fxParams song) e in
  let e := call [TransportSetSwing (swing song)] e in
  let e := applyParamOverrides e in
  let e := call [MixerCancelVolumeScheduled; MixerSetVolume (p_volume (params e))] e in
  let '(ids, tr) :=
    Scheduler.schedule song (Scheduler.mkOptions true true) (transport e) in
  let e := mkEngine tr (currentSong e) (scheduledIds e ++ ids)
                    (currentSectionName e) (params e) (calls e) in
  call [CrackleBgStart; TransportStart] e.

Section WithMath.
Variable math : Rng.MathLib.

(** [start (seed?)] once [Tone.start ()] has resolved; [now] is the value
    of [Date.now ()]. *)
Definition start (seed : option Z) (now : Z) (e : LofiEngine) : Result LofiEngine :=
  match currentSong e, seed with
  | Some _, None =>
      Ok (call [ MixerCancelVolumeScheduled; MixerSetVolume (p_volume (params e));
                 CrackleBgStart; TransportStart ] e)
  | _, _ =>
      bindR (SongGen.buildSong math (match seed with Some s => s | None => now end))
            (fun song => Ok (playSong song e))
  end.

Definition randomize (now : Z) (e : LofiEngine) : Result LofiEngine :=
  let e := clearScheduled e in
  let e := mkEngine (transport e) None (scheduledIds e) "" (params e) (calls e) in
  let e := call [TransportStop; CrackleBgStop; InstrumentsReleaseAll] e in
  start (Some now) now e.

Definition stop (e : LofiEngine) : LofiEngine :=
  call [ TransportStop; CrackleBgStop; MixerCancelVolumeScheduled;
         MixerSetVolume 0; InstrumentsReleaseAll ] e.

(** The [onBar] hook that [playSong] passes to the scheduler. *)
Definition onBarHook (sectionName : SectionName) (e : LofiEngine) : LofiEngine :=
  mkEngine (transport e) (currentSong e) (scheduledIds e)
           (sectionNameString sectionName) (params e) (calls e).

(** The [onSongEnd] hook that [playSong] passes to the scheduler. *)
Definition onSongEndHook (now : Z) (e : LofiEngine) : Result LofiEngine :=
  let e := call [TransportStop] e in
  let e := clearScheduled e in
  let e := call [CrackleBgStop; InstrumentsReleaseAll] e in
  let e := mkEngine (transport e) None (scheduledIds e) "" (params e) (calls e) in
  bindR (SongGen.buildSong math now) (fun nextSong =>
  Ok (playSong nextSong (call [TransportSetPosition "0:0:0"] e))).

Definition dispose (e : LofiEngine) : LofiEngine :=
  let e := stop e in
  let e := clearScheduled e in
  mkEngine (transport e) None (scheduledIds e) (currentSectionName e) (params e)
           (calls e).

Definition getCurrentInfo (e : LofiEngine) : string * string * string :=
  match currentSong e with
  | None => ("", "", "")
  | Some song => (Presets.name (preset song), currentSectionName e, key song)
  end.

End WithMath.
End Engine.

(** ** Vocabulary for stating the properties of the scheduler *)
Module SchedulerSpec.
Import JS Instruments Song Scheduler.

(** The time positions of all events of a Song, in event-array order. *)
Definition eventTimes (song : Song) : list string :=
  flat_map (fun sec => map time (instrumentEvents sec) ++ map dtime (drumEvents sec))
           (sections song).

Definition allInstrumentEvents (song : Song) : list InstrumentNoteEvent :=
  flat_map instrumentEvents (sections song).

Definition allDrumEvents (song : Song) : list DrumEvent :=
  flat_map drumEvents (sections song).

(** Field-wise order on decoded positions. *)
Definition lexLe (a b : Z * Z * Z) : Prop :=
  let '(b1, q1, x1) := a in
  let '(b2, q2, x2) := b in
  b1 < b2 \/ (b1 = b2 /\ (q1 < q2 \/ (q1 = q2 /\ x1 <= x2))).

(** The order induced by the comparison function. *)
Definition keyLe (a b : string) : Prop := parse a <= parse b.

(** A time string is well formed when its beat and sixteenth fields lie in
    [0, 4). *)
Definition wellFormedTime (t : string) : bool :=
  let '(_, q, x) := Transport.decode t in
  (0 <=? q) && (q <? 4) && (0 <=? x) && (x <? 4).

(** The registrations appended to the timeline by a call. *)
Definition added (before after : T) : list (Transport.Registration Callback) :=
  skipn (List.length (Transport.timeline before)) (Transport.timeline after).

Definition isEventsReg (r : Transport.Registration Callback) : bool :=
  match Transport.rcb r with
  | EventsAt _ _ => true
  | _ => false
  end.

Definition isSongEndReg (r : Transport.Registration Callback) : bool :=
  match Transport.rcb r with
  | SongEnd => true
  | _ => false
  end.

(** The times of the one-shot registrations. *)
Definition onceTimes (regs : list (Transport.Registration Callback)) : list string :=
  flat_map (fun r => match Transport.rwhen r with
                     | Transport.Once t => [t]
                     | Transport.Repeat _ _ => []
                     end) regs.

Definition entryAt (m : EventMap) (time : string) : Entry :=
  match mapGet m time with Some en => en | None => emptyEntry end.

(** The registrations made by the loop over [sortedTimes], the first of
    them under the handle [start]. *)
Fixpoint eventRegs (m : EventMap) (times : list string) (start : Z)
  : list (Transport.Registration Callback) :=
  match times with
  | [] => []
  | t :: ts =>
      Transport.mkReg start (Transport.Once t)
        (EventsAt (fst (entryAt m t)) (snd (entryAt m t)))
      :: eventRegs m ts (start + 1)
  end.

(** All registrations of one [schedule] call, in the order they are made. *)
Definition registrations (song : Song) (options : SongSchedulerOptions) (start : Z)
  : list (Transport.Registration Callback) :=
  let ev := eventRegs (collect song) (sortedTimes (collect song)) start in
  let n1 := start + Z.of_nat (List.length ev) in
  let bar := if onBar options
             then [Transport.mkReg n1 (Transport.Repeat "1m" "0:0:0") (BarUpdate song)]
             else [] in
  let n2 := n1 + Z.of_nat (List.length bar) in
  let cr := [Transport.mkReg n2 (Transport.Repeat "32n" "0:0:0") CrackleTick] in
  let en := if onSongEnd options
            then [Transport.mkReg (n2 + 1)
                    (Transport.Once (show (totalBars song) ++ ":0:0")%string) SongEnd]
            else [] in
  ev ++ bar ++ cr ++ en.

(** What the map holds after a run of insertions: its keys are distinct,
    they are the times seen so far, and each entry lists the events of its
    time in the order they were pushed. *)
Record Represents (m : EventMap) (I : list InstrumentNoteEvent)
  (D : list DrumEvent) : Prop := mkRepresents
  { rep_nodup : NoDup (mapKeys m);
    rep_keys : forall t, In t (mapKeys m) <-> In t (map time I ++ map dtime D);
    rep_entry : forall t,
        entryAt m t = (filter (fun e => String.eqb (time e) t) I,
                       filter (fun e => String.eqb (dtime e) t) D) }.

(** A transport on which nothing was registered yet. *)
Definition freshTransport : T := Transport.empty.

(** Handles of a transport are fresh when they lie below [nextId]. *)
Definition wellFormed (tr : T) : Prop :=
  Forall (fun r => Transport.rid r < Transport.nextId tr) (Transport.timeline tr).

Definition sumBars (l : list SongSection) : Z :=
  fold_right (fun s a => bars s + a) 0 l.

(** The three calls a time-position callback makes, per kind of event. *)
Definition padTrigger (dur : string) (t : float) (e : InstrumentNoteEvent) : Action :=
  Trigger (Melodic pad) (Some (note e)) (NoteLength dur) t (velocity e).

Definition voiceTrigger (t : float) (e : InstrumentNoteEvent) : Action :=
  Trigger (Melodic (Song.instrument e)) (Some (note e)) (NoteLength (duration e))
          t (velocity e).

Definition drumTrigger (t : float) (d : DrumEvent) : Action :=
  match dinstrument d with
  | kick => Trigger (Drum kick) (Some "C2") (NoteLength "8n") t (dvelocity d)
  | other => Trigger (Drum other) None (NoteLength "32n") t (dvelocity d)
  end.

(** Two pad notes of different length and a melody note at one position. *)
Definition padBatch : list InstrumentNoteEvent :=
  [ mkNote "0:0:0" "C3" "1n" 0.5 pad;
    mkNote "0:0:0" "E4" "4n" 0.7 melody;
    mkNote "0:0:0" "G3" "8n" 0.4 pad ]%float.

(** A Song of twelve bars whose events are out of order and repeat a
    position; bar 10 sorts before bar 2 as a string. *)
Definition twelveBars : Song :=
  mkSong 7 Presets.PRESET_CHILLHOP "C" 85 0.15%float
         [ mkSection verse 0 8
             [ mkNote "10:0:0" "C3" "1n" 0.5%float pad;
               mkNote "2:3:2" "E4" "8n" 0.6%float melody;
               mkNote "2:0:0" "C2" "4n" 0.8%float bass ]
             [ mkDrum "2:0:0" kick 0.9%float;
               mkDrum "0:1:0" snare 0.7%float ] 0;
           mkSection chorus 8 4
             [ mkNote "10:0:0" "G3" "1n" 0.5%float pad ]
             [ mkDrum "11:3:3" hihat 0.3%float ] 0 ]
         12 (mkFX 3 0.4 0.18 1000 0.07)%float.

(** A small Song for the scenarios: [n] verse bars, no events. *)
Definition verseOnly (n : Z) : Song :=
  mkSong 1 Presets.PRESET_CHILLHOP "C" 85 0.15%float
         [mkSection verse 0 n [] [] 0] n
         (mkFX 3 0.4 0.18 1000 0.07)%float.

End SchedulerSpec.

(** ** music-theory.ts: the remaining exports *)
Module MusicTheoryRest.
Import JS MusicTheory Rng.
Local Open Scope gen_scope.

(** [for (i = 0; i < inversion; i++) out[i] += 12] on a copy of the
    notes, for [0 < inversion < notes.length]. *)
Fixpoint raiseFirst (k : nat) (notes : list MidiNote) : list MidiNote :=
  match k, notes with
  | S k', n :: r => (n + 12) :: raiseFirst k' r
  | _, _ => notes
  end.

Definition invertChord (notes : list MidiNote) (inversion : Z) : list MidiNote :=
  if (inversion <=? 0) || (Z.of_nat (List.length notes) <=? inversion) then notes
  else sortZ (raiseFirst (Z.to_nat inversion) notes).

(** [CIRCLE_OF_FIFTHS[i]] for an index inside the array. *)
Definition circleAt (i : Z) : string := nth (Z.to_nat i) CIRCLE_OF_FIFTHS "".

(** Pick a neighboring key (circle of fifths distance 1-2, or relative minor/major) *)
Definition pickRelatedKey (currentKey : string) : Gen string :=
  match indexOf CIRCLE_OF_FIFTHS currentKey with
  | None => ret currentKey
  | Some idx =>
      let options :=
        [ circleAt (jsrem (idx + 1) 12);
          circleAt (jsrem (idx - 1 + 12) 12);
          circleAt (jsrem (idx + 2) 12);
          circleAt (jsrem (idx - 2 + 12) 12) ] in
      pick options
  end.

End MusicTheoryRest.

(** ** What the registered callbacks hold *)
Module SchedulerViews.
Import Song Scheduler.

(** The instrument events captured by the one-shot callbacks of a list of
    registrations, in registration order. *)
Definition heldInstrumentEvents (regs : list (Transport.Registration Callback))
  : list InstrumentNoteEvent :=
  flat_map (fun r => match Transport.rcb r with
                     | EventsAt instrument _ => instrument
                     | _ => []
                     end) regs.

Definition heldDrumEvents (regs : list (Transport.Registration Callback))
  : list DrumEvent :=
  flat_map (fun r => match Transport.rcb r with
                     | EventsAt _ drum => drum
                     | _ => []
                     end) regs.

(** A one-shot event callback holds only events of its own time. *)
Definition holdsOwnTime (r : Transport.Registration Callback) : Prop :=
  match Transport.rwhen r, Transport.rcb r with
  | Transport.Once t, EventsAt instrument drum =>
      Forall (fun e => time e = t) instrument
      /\ Forall (fun d => dtime d = t) drum
  | _, _ => True
  end.

(** Field-wise strict order on positions. *)
Definition lexLt (a b : Z * Z * Z) : Prop :=
  let '(b1, q1, x1) := a in
  let '(b2, q2, x2) := b in
  b1 < b2 \/ (b1 = b2 /\ (q1 < q2 \/ (q1 = q2 /\ x1 < x2))).

End SchedulerViews.

(** ** Sequences of draws *)
Module RngViews.
Import JS Rng.
Local Open Scope gen_scope.

(** [n] successive calls of [next ()], their results in order. *)
Fixpoint draws (n : nat) : Gen (list float) :=
  match n with
  | O => ret []
  | S n' =>
      let* x := next in
      let* xs := draws n' in
      ret (x :: xs)
  end.

(** The amount [next] adds to the state. *)
Definition increment : Z := 0x6d2b79f5.

End RngViews.

(** ** Views of a generated Song *)
Module SongViews.
Import Song.

(** The start bars that a running sum over the section lengths gives. *)
Fixpoint runningStarts (acc : Z) (l : list SongSection) : list Z :=
  match l with
  | [] => []
  | s :: r => acc :: runningStarts (acc + bars s) r
  end.

Definition nameAndBars (s : SongSection) : SectionName * Z := (name s, bars s).

(** What the section loop of [build] maintains: the sections pushed so
    far follow the structure visited so far, the running start bar is the
    sum of their lengths, and each of them satisfies [P]. *)
Definition loopInv (P : SongSection -> Prop) (pre : list (SectionName * Z))
  (st : list SongSection * Z) : Prop :=
  map nameAndBars (fst st) = pre
  /\ snd st = SchedulerSpec.sumBars (fst st)
  /\ map startBar (fst st) = runningStarts 0 (fst st)
  /\ Forall (fun s => padVolume s = SongGen.sectionPadVolume s) (fst st)
  /\ Forall P (fst st).

End SongViews.

(** ** Voices of the opening and closing sections *)
Module EdgeViews.
Import Song Instruments.

(** The voices that an opening or closing section is written for. *)
Definition edgeVoices (n : SectionName) : option (list InstrumentId) :=
  match n with
  | intro => Some [pad; bass]
  | outro => Some [pad; melody; bass]
  | _ => None
  end.

Definition edgeOk (s : SongSection) : Prop :=
  match edgeVoices (name s) with
  | Some voices => Forall (fun e => In (instrument e) voices) (instrumentEvents s)
  | None => True
  end.

(** An event written for the instrument [id]. *)
Definition tagged (id : InstrumentId) (e : InstrumentNoteEvent) : Prop :=
  instrument e = id.

(** A note of a low layer: not below [floor], written for [voice], on the
    first beat of one of the bars [allowed], counted from [start]. *)
Definition lowNote (floor : Z) (voice : InstrumentId) (start : Z) (allowed : list Z)
  (e : InstrumentNoteEvent) : Prop :=
  floor <= MusicTheory.nameToMidi (note e)
  /\ instrument e = voice
  /\ exists bar, In bar allowed /\ time e = timeString (start + bar) 0 0.

End EdgeViews.

(** ** mixer.ts *)
Module Mixer.

(** The audio parameters the methods of [Mixer] assign.  A parameter is
    the value last assigned to it: [gain.value], [wet.value],
    [frequency.value] and [decay] read back what was written. *)
Record Mixer : Type := mkMixer
  { masterGain : float;
    filterFrequency : float;
    drumFilterFrequency : float;
    reverbWet : float;
    reverbDecay : float;
    drumReverbWet : float;
    drumReverbDecay : float;
    delayWet : float;
    crackleGain : float;
    crackleBgOn : bool }.

(** The values the constructor gives the nodes. *)
Definition new : Mixer :=
  {| masterGain := 1;
     filterFrequency := 1200;
     drumFilterFrequency := 1200;
     reverbWet := 0.4;
     reverbDecay := 4;
     drumReverbWet := 0.35;
     drumReverbDecay := 3;
     delayWet := 0.15;
     crackleGain := 0.08;
     crackleBgOn := false |}%float.

Definition applyParams (filterCutoff reverbMix delayMix crackleMix volume : float)
  (m : Mixer) : Mixer :=
  {| masterGain := if PrimFloat.ltb 0 (masterGain m) then volume else masterGain m;
     filterFrequency := filterCutoff;
     drumFilterFrequency := filterCutoff;
     reverbWet := reverbMix;
     reverbDecay := reverbDecay m;
     drumReverbWet := (reverbMix * 0.9)%float;
     drumReverbDecay := drumReverbDecay m;
     delayWet := delayMix;
     crackleGain := crackleMix;
     crackleBgOn := crackleBgOn m |}.

Definition configureFX (fxReverbDecay fxReverbMix fxDelayMix fxFilterCutoff : float)
  (m : Mixer) : Mixer :=
  {| masterGain := masterGain m;
     filterFrequency := fxFilterCutoff;
     drumFilterFrequency := fxFilterCutoff;
     reverbWet := fxReverbMix;
     reverbDecay := fxReverbDecay;
     drumReverbWet := (fxReverbMix * 0.9)%float;
     drumReverbDecay := (fxReverbDecay * 0.85)%float;
     delayWet := fxDelayMix;
     crackleGain := crackleGain m;
     crackleBgOn := crackleBgOn m |}.

Definition setVolume (value : float) (m : Mixer) : Mixer :=
  {| masterGain := value;
     filterFrequency := filterFrequency m;
     drumFilterFrequency := drumFilterFrequency m;
     reverbWet := reverbWet m;
     reverbDecay := reverbDecay m;
     drumReverbWet := drumReverbWet m;
     drumReverbDecay := drumReverbDecay m;
     delayWet := delayWet m;
     crackleGain := crackleGain m;
     crackleBgOn := crackleBgOn m |}.

(** [gain.cancelScheduledValues (0)]: no ramp is ever scheduled on the
    master gain, the value stays. *)
Definition cancelVolumeScheduled (m : Mixer) : Mixer := m.

(** [crackleBg.start ()] and [crackleBg.stop ()]. *)
Definition setCrackleBg (on : bool) (m : Mixer) : Mixer :=
  {| masterGain := masterGain m;
     filterFrequency := filterFrequency m;
     drumFilterFrequency := drumFilterFrequency m;
     reverbWet := reverbWet m;
     reverbDecay := reverbDecay m;
     drumReverbWet := drumReverbWet m;
     drumReverbDecay := drumReverbDecay m;
     delayWet := delayWet m;
     crackleGain := crackleGain m;
     crackleBgOn := on |}.

End Mixer.

(** ** The engine together with its mixer and its clients *)
Module EngineViews.
Import JS Song Engine.

(** What one call of the engine does to the mixer. *)
Definition perform (c : Call) (m : Mixer.Mixer) : Mixer.Mixer :=
  match c with
  | MixerCancelVolumeScheduled => Mixer.cancelVolumeScheduled m
  | MixerSetVolume value => Mixer.setVolume value m
  | MixerApplyParams filterCutoff reverbMix delayMix crackleMix volume =>
      Mixer.applyParams filterCutoff reverbMix delayMix crackleMix volume m
  | MixerConfigureFX reverbDecay reverbMix delayMix filterCutoff =>
      Mixer.configureFX reverbDecay reverbMix delayMix filterCutoff m
  | CrackleBgStart => Mixer.setCrackleBg true m
  | CrackleBgStop => Mixer.setCrackleBg false m
  | _ => m
  end.

(** The mixer after the calls the engine has made since it was created. *)
Definition mixerOf (e : LofiEngine) : Mixer.Mixer :=
  fold_left (fun m c => perform c m) (calls e) Mixer.new.

(** What can happen to an engine: a call of one of its public methods, or
    the transport firing one of the two hooks. *)
Inductive Op : Type :=
| OpStart (seed : option Z) (now : Z)
| OpRandomize (now : Z)
| OpStop
| OpSetParams (merged : LofiParams)
| OpOnBar (sectionName : SectionName)
| OpOnSongEnd (now : Z)
| OpDispose.

Section WithMath.
Variable math : Rng.MathLib.

Definition apply (op : Op) (e : LofiEngine) : Result LofiEngine :=
  match op with
  | OpStart seed now => start math seed now e
  | OpRandomize now => randomize math now e
  | OpStop => Ok (stop e)
  | OpSetParams merged => Ok (setParams merged e)
  | OpOnBar sectionName => Ok (onBarHook sectionName e)
  | OpOnSongEnd now => onSongEndHook math now e
  | OpDispose => Ok (dispose e)
  end.

Fixpoint applyAll (ops : list Op) (e : LofiEngine) : Result LofiEngine :=
  match ops with
  | [] => Ok e
  | op :: ops' => bindR (apply op e) (applyAll ops')
  end.

End WithMath.

(** The transport holds the registrations of the current Song and nothing
    else, and the engine knows their handles. *)
Definition ownsSchedule (e : LofiEngine) : Prop :=
  map Transport.rid (Transport.timeline (transport e)) = scheduledIds e
  /\ match currentSong e with
     | Some song =>
         exists first,
           Transport.timeline (transport e)
           = SchedulerSpec.registrations song (Scheduler.mkOptions true true) first
     | None => Transport.timeline (transport e) = []
     end.

End EngineViews.

(** ** Checks on the preset data *)
Module PresetViews.
Import Presets.

(** The progressions of a preset are not empty and a chord lasts at least
    one bar. *)
Definition progressionsOk (p : LofiPreset) : bool :=
  (1 <=? SongGen.chordBarsOf p)
  && forallb (fun prog : ChordProgressionTemplate =>
                negb (Nat.eqb (List.length prog) 0))
             (progressions p).

End PresetViews.

(** ** Registers and the time grid *)
Module RegisterViews.
Import Song Instruments.

(** A note written for [voice] whose pitch lies between [lo] and [hi]. *)
Definition inRegister (lo hi : Z) (voice : InstrumentId) (e : InstrumentNoteEvent)
  : Prop :=
  lo <= MusicTheory.nameToMidi (note e) <= hi /\ instrument e = voice.

End RegisterViews.

Module GridViews.
Import Song.

(** A position [bar:beat:sixteenth] inside a section of [bars] bars that
    starts at bar [start], with beat and sixteenth in 0..3. *)
Definition onGrid (start bars : Z) (t : string) : Prop :=
  exists bar beat sixteenth,
    0 <= bar < bars /\ 0 <= beat < 4 /\ 0 <= sixteenth < 4
    /\ t = timeString (start + bar) beat sixteenth.

End GridViews.

(** ** One note per bar *)
Module BarViews.
Import Song.

(** The events sit on the first beat of bars that ascend strictly: no bar
    of the section carries two of them. *)
Definition onePerBar (start nbars : Z) (events : list InstrumentNoteEvent) : Prop :=
  exists bs : list Z,
    StronglySorted Z.lt bs
    /\ Forall (fun b => 0 <= b < nbars) bs
    /\ map time events = map (fun b => timeString (start + b) 0 0) bs.

End BarViews.

(* ================================================================== *)
(** * Part II: properties                                              *)
(* ================================================================== *)

(** ** Facts about the JavaScript primitives *)
Module JSFacts.
Import JS.

Example parseInt_plain : parseInt "12" = Some 12.
Proof. reflexivity. Qed.

Example parseInt_prefix : parseInt " -7x" = Some (-7).
Proof. reflexivity. Qed.

Example parseInt_nan : parseInt "x" = None.
Proof. reflexivity. Qed.

Example split_colon_three : split_colon "10:3:2" = ["10"; "3"; "2"].
Proof. reflexivity. Qed.

Example floorF_negative : floorF (-1.5)%float = Some (-2).
Proof. reflexivity. Qed.

Example toInt32F_truncates : toInt32F (-1.5)%float = -1.
Proof. reflexivity. Qed.

Lemma digits_acc_pos (d : Decimal.uint) :
  forall acc : positive,
    digits_acc (NilEmpty.string_of_uint d) (Zpos acc) = Zpos (Pos.of_uint_acc d acc).
Proof.
  induction d; intro acc; cbn [NilEmpty.string_of_uint digits_acc Pos.of_uint_acc];
    try reflexivity;
    (match goal with
     | |- context [is_digit ?c] => change (is_digit c) with true
     end; cbv iota;
     match goal with
     | |- digits_acc _ ?a = _ =>
         match a with
         | (_ * 10 + digit_val ?c) =>
             let v := eval vm_compute in (digit_val c) in
             change (digit_val c) with v
         end
     end;
     rewrite <- IHd; f_equal; lia).
Qed.

Lemma digits_acc_uint (d : Decimal.uint) :
  digits_acc (NilEmpty.string_of_uint d) 0 = Z.of_N (Pos.of_uint d).
Proof.
  induction d; cbn [NilEmpty.string_of_uint digits_acc Pos.of_uint];
    try reflexivity;
    match goal with
    | |- context [is_digit ?c] => change (is_digit c) with true
    end; cbv iota;
    match goal with
    | |- digits_acc _ (0 * 10 + digit_val ?c) = _ =>
        let v := eval vm_compute in (0 * 10 + digit_val c) in
        change (0 * 10 + digit_val c) with v
    end;
    [ exact IHd | apply digits_acc_pos .. ].
Qed.

Lemma starts_with_digit_uint (d : Decimal.uint) :
  d <> Decimal.Nil -> starts_with_digit (NilEmpty.string_of_uint d) = true.
Proof. destruct d; intro H; try reflexivity. now elim H. Qed.

Lemma to_uint_not_nil (p : positive) : Pos.to_uint p <> Decimal.Nil.
Proof.
  intro E. pose proof (DecimalPos.Unsigned.of_to p) as H.
  rewrite E in H. discriminate H.
Qed.

Lemma parseInt_uint (d : Decimal.uint) :
  d <> Decimal.Nil ->
  parseInt (NilEmpty.string_of_uint d) = Some (Z.of_N (Pos.of_uint d)).
Proof.
  intro Hd. rewrite <- digits_acc_uint.
  destruct d; try (now elim Hd); reflexivity.
Qed.

(** Reading back the decimal rendering of an integer. *)
Lemma parseInt_show (n : Z) : parseInt (show n) = Some n.
Proof.
  destruct n as [|p|p]; unfold show; cbn [Z.to_int NilEmpty.string_of_int].
  - reflexivity.
  - rewrite parseInt_uint by apply to_uint_not_nil.
    now rewrite DecimalPos.Unsigned.of_to.
  - unfold parseInt.
    change (skip_space (String "-" (NilEmpty.string_of_uint (Pos.to_uint p))))
      with (String "-" (NilEmpty.string_of_uint (Pos.to_uint p))).
    cbv iota beta.
    rewrite starts_with_digit_uint by apply to_uint_not_nil.
    rewrite digits_acc_uint, DecimalPos.Unsigned.of_to. reflexivity.
Qed.

Lemma uint_chars (d : Decimal.uint) (c : ascii) :
  In c (list_ascii_of_string (NilEmpty.string_of_uint d)) -> c <> ":"%char.
Proof.
  induction d; cbn [NilEmpty.string_of_uint list_ascii_of_string In];
    try tauto; intros [<- | H]; try discriminate; auto.
Qed.

Lemma show_chars (n : Z) (c : ascii) :
  In c (list_ascii_of_string (show n)) -> c <> ":"%char.
Proof.
  destruct n as [|p|p]; unfold show; cbn [Z.to_int NilEmpty.string_of_int].
  - apply uint_chars.
  - apply uint_chars.
  - cbn [list_ascii_of_string In]. intros [<- | H]; [discriminate|].
    revert H. apply uint_chars.
Qed.

Lemma split_colon_nonempty (s : string) : split_colon s <> [].
Proof.
  destruct s as [|c r]; cbn [split_colon]; [discriminate|].
  destruct (Ascii.eqb c ":"); [discriminate|].
  destruct (split_colon r); discriminate.
Qed.

(** Splitting at the first colon. *)
Lemma split_colon_app (s1 s2 : string) :
  (forall c, In c (list_ascii_of_string s1) -> c <> ":"%char) ->
  split_colon (s1 ++ String ":" s2) = s1 :: split_colon s2.
Proof.
  induction s1 as [|c r IH]; intro H.
  - reflexivity.
  - cbn [append split_colon].
    destruct (Ascii.eqb_spec c ":") as [E|_].
    + exfalso. apply (H c); [left; reflexivity | exact E].
    + rewrite IH; [reflexivity|].
      intros c' Hc'. apply H. right. exact Hc'.
Qed.

Lemma split_colon_single (s : string) :
  (forall c, In c (list_ascii_of_string s) -> c <> ":"%char) ->
  split_colon s = [s].
Proof.
  induction s as [|c r IH]; intro H.
  - reflexivity.
  - cbn [split_colon].
    destruct (Ascii.eqb_spec c ":") as [E|_].
    + exfalso. apply (H c); [left; reflexivity | exact E].
    + rewrite IH; [reflexivity|].
      intros c' Hc'. apply H. right. exact Hc'.
Qed.

Lemma split_timeString (b q x : Z) :
  split_colon (Song.timeString b q x) = [show b; show q; show x].
Proof.
  unfold Song.timeString. cbn [append].
  rewrite split_colon_app by apply show_chars.
  rewrite split_colon_app by apply show_chars.
  rewrite split_colon_single by apply show_chars.
  reflexivity.
Qed.

Lemma toInt32_idem (x : Z) : toInt32 (toInt32 x) = toInt32 x.
Proof.
  unfold toInt32, toUint32.
  destruct (Z.ltb_spec (x mod 4294967296) 2147483648).
  - rewrite Z.mod_mod by lia.
    destruct (Z.ltb_spec (x mod 4294967296) 2147483648); lia.
  - replace ((x mod 4294967296 - 4294967296) mod 4294967296)
      with (x mod 4294967296).
    + destruct (Z.ltb_spec (x mod 4294967296) 2147483648); lia.
    + rewrite <- (Z.mod_mod x 4294967296) at 1 by lia.
      rewrite <- Zminus_mod_idemp_r. rewrite Z.mod_same by lia.
      now rewrite Z.sub_0_r, Z.mod_mod by lia.
Qed.

Lemma toInt32_congr (x y : Z) :
  x mod 4294967296 = y mod 4294967296 -> toInt32 x = toInt32 y.
Proof. unfold toInt32, toUint32. now intros ->. Qed.

Lemma toInt32_small (x : Z) :
  -2147483648 <= x < 2147483648 -> toInt32 x = x.
Proof.
  intro H. unfold toInt32, toUint32.
  destruct (Z_lt_le_dec x 0).
  - replace (x mod 4294967296) with (x + 4294967296).
    + destruct (Z.ltb_spec (x + 4294967296) 2147483648); lia.
    + apply Z.mod_unique with (q := -1); lia.
  - rewrite Z.mod_small by lia.
    destruct (Z.ltb_spec x 2147483648); lia.
Qed.

End JSFacts.

(** ** music-theory.ts *)
Module MusicTheoryFacts.
Import JS MusicTheory.

Example nameToMidi_C4 : nameToMidi "C4" = 60.
Proof. reflexivity. Qed.

Example nameToMidi_sharp_negative : nameToMidi "A#-1" = 10.
Proof. reflexivity. Qed.

Example midiToName_61 : midiToName 61 = "C#4".
Proof. reflexivity. Qed.

Example buildChord_min7 : buildChord 60 "min7" = Ok [60; 63; 67; 70].
Proof. reflexivity. Qed.

Example spreadChord_maj7 : spreadChord 60 "maj7" = Ok [48; 55; 64; 71].
Proof. reflexivity. Qed.

Example diatonicChord_Dm7 : diatonicChord "C" "major" 2 = mkChord 62 "min7".
Proof. reflexivity. Qed.

(** The minor keys of the presets do not match [NOTE_NAME_REGEX]. *)
Example nameToMidi_Am4 : nameToMidi "Am4" = 60.
Proof. reflexivity. Qed.

(** [(((a % 7) + 7) % 7)] is the mathematical residue. *)
Lemma jsrem_norm7 (a : Z) : jsrem (jsrem a 7 + 7) 7 = a mod 7.
Proof.
  unfold jsrem.
  assert (Hr : -7 < Z.rem a 7 < 7).
  { pose proof (Z.rem_bound_abs a 7 ltac:(lia)). lia. }
  rewrite Z.rem_mod_nonneg by lia.
  pose proof (Z.quot_rem' a 7) as Hq.
  replace (Z.rem a 7 + 7) with (a + (1 - Z.quot a 7) * 7) by lia.
  now rewrite Z.mod_add by lia.
Qed.

Lemma degreeIdx_mod (degree : Z) : degreeIdx degree = (degree - 1) mod 7.
Proof. apply jsrem_norm7. Qed.

Lemma degreeIdx_range (degree : Z) : 0 <= degreeIdx degree < 7.
Proof. rewrite degreeIdx_mod. apply Z.mod_pos_bound. lia. Qed.

(** Every scale of [CHORD_SCALES] starts on the root. *)
Lemma chord_scale_cases (scaleType : string) (scale : list Z) :
  assoc CHORD_SCALES scaleType = Some scale ->
  scale = SCALE_major \/ scale = SCALE_minor \/ scale = SCALE_dorian.
Proof.
  unfold CHORD_SCALES. cbn [assoc].
  repeat (destruct (String.eqb scaleType _);
          [intro E; injection E as <-; tauto|]).
  discriminate.
Qed.


Lemma degreeSemitone_own (scaleType : string) (scale : list Z) (degree : Z) :
  assoc CHORD_SCALES scaleType = Some scale ->
  degreeSemitone scaleType degree = nth (Z.to_nat ((degree - 1) mod 7)) scale 0.
Proof.
  intro E. unfold degreeSemitone, get. rewrite E.
  unfold nthZ. pose proof (degreeIdx_range degree) as Hr.
  destruct (Z.ltb_spec (degreeIdx degree) 0); [lia|].
  rewrite degreeIdx_mod.
  assert (Hlen : (Z.to_nat ((degree - 1) mod 7) < List.length scale)%nat).
  { rewrite degreeIdx_mod in Hr.
    apply chord_scale_cases in E. destruct E as [-> | [-> | ->]]; cbn; lia. }
  destruct (nth_error scale (Z.to_nat ((degree - 1) mod 7))) as [v|] eqn:En.
  - symmetry. now apply nth_error_nth.
  - apply nth_error_None in En. lia.
Qed.

Lemma degreeSemitone_nth (scaleType : string) (degree : Z) :
  degreeSemitone scaleType degree
  = match get CHORD_SCALES scaleType with
    | Own scale => nth (Z.to_nat ((degree - 1) mod 7)) scale 0
    | Undefined => nth (Z.to_nat ((degree - 1) mod 7)) SCALE_major 0
    | Inherited => 0
    end.
Proof.
  destruct (assoc CHORD_SCALES scaleType) as [scale|] eqn:E.
  - rewrite (degreeSemitone_own _ _ _ E). unfold get. now rewrite E.
  - unfold degreeSemitone, get. rewrite E.
    destruct (mem scaleType objectPrototypeKeys); [reflexivity|].
    unfold nthZ. pose proof (degreeIdx_range degree) as Hr.
    destruct (Z.ltb_spec (degreeIdx degree) 0); [lia|].
    rewrite degreeIdx_mod in *.
    destruct (nth_error SCALE_major (Z.to_nat ((degree - 1) mod 7))) as [v|] eqn:En.
    + symmetry. now apply nth_error_nth.
    + apply nth_error_None in En. cbn in En. lia.
Qed.

Lemma buildChord_fallback (rootMidi : Z) (quality : string) :
  get CHORD_SHAPES quality = Undefined ->
  buildChord rootMidi quality = Ok (map (fun i => rootMidi + i) [0; 4; 7; 11]).
Proof. intro E. unfold buildChord, tableOr. now rewrite E. Qed.

Lemma buildScale_fallback (rootName scaleType : string) :
  get SCALES scaleType = Undefined ->
  buildScale rootName scaleType =
  Ok (map (fun s => jsrem (jsrem (nameToMidi (rootName ++ "4")) 12 + s) 12)
          [0; 2; 4; 5; 7; 9; 11]).
Proof. intro E. unfold buildScale, tableOr. now rewrite E. Qed.

Lemma nameToMidi_fallback (name : string) :
  matchNoteName name = None -> nameToMidi name = 60.
Proof. intro E. unfold nameToMidi. now rewrite E. Qed.

Lemma nameToMidi_unknown_note (name m1 m2 : string) :
  matchNoteName name = Some (m1, m2) -> indexOf NOTE_NAMES m1 = None ->
  nameToMidi name = 60.
Proof. intros E1 E2. unfold nameToMidi. now rewrite E1, E2. Qed.

End MusicTheoryFacts.

(** ** Note names and pitches *)
Module MusicTheoryMore.
Import JS MusicTheory MusicTheoryRest.

Lemma jsrem_norm12 (a : Z) : jsrem (jsrem a 12 + 12) 12 = a mod 12.
Proof.
  unfold jsrem.
  assert (Hr : -12 < Z.rem a 12 < 12).
  { pose proof (Z.rem_bound_abs a 12 ltac:(lia)). lia. }
  rewrite Z.rem_mod_nonneg by lia.
  pose proof (Z.quot_rem' a 12) as Hq.
  replace (Z.rem a 12 + 12) with (a + (1 - Z.quot a 12) * 12) by lia.
  now rewrite Z.mod_add by lia.
Qed.

Lemma all_digits_uint (d : Decimal.uint) :
  all_digits (NilEmpty.string_of_uint d) = true.
Proof. induction d; cbn [NilEmpty.string_of_uint all_digits]; auto. Qed.

Lemma is_octave_uint (d : Decimal.uint) :
  d <> Decimal.Nil -> is_octave (NilEmpty.string_of_uint d) = true.
Proof.
  intro Hd. pose proof (all_digits_uint d) as Ha.
  destruct d; try (now elim Hd); cbn [NilEmpty.string_of_uint] in *;
    unfold is_octave; cbn [starts_with_digit]; rewrite Ha; reflexivity.
Qed.

Lemma is_octave_show (n : Z) : is_octave (show n) = true.
Proof.
  destruct n as [|p|p]; unfold show; cbn [Z.to_int NilEmpty.string_of_int].
  - reflexivity.
  - apply is_octave_uint, JSFacts.to_uint_not_nil.
  - unfold is_octave.
    rewrite JSFacts.starts_with_digit_uint by apply JSFacts.to_uint_not_nil.
    now rewrite all_digits_uint.
Qed.

Lemma show_not_sharp (n : Z) (r : string) : show n <> String "#" r.
Proof.
  destruct n as [|p|p]; unfold show; cbn [Z.to_int NilEmpty.string_of_int].
  - discriminate.
  - destruct (Pos.to_uint p); cbn [NilEmpty.string_of_uint]; discriminate.
  - discriminate.
Qed.

Lemma matchNoteName_natural (c : ascii) (s : string) :
  is_note_letter c = true -> (forall r, s <> String "#" r) ->
  is_octave s = true ->
  matchNoteName (String c s) = Some (String c "", s).
Proof.
  intros Hc Hs Ho. unfold matchNoteName. rewrite Hc.
  destruct s as [|a r]; [now rewrite Ho|].
  destruct (Ascii.eqb_spec a "#") as [->|Hne]; [now elim (Hs r)|].
  destruct a as [[] [] [] [] [] [] [] []]; try (now rewrite Ho);
    now elim Hne.
Qed.

Lemma matchNoteName_sharp (c : ascii) (s : string) :
  is_note_letter c = true -> is_octave s = true ->
  matchNoteName (String c (String "#" s)) = Some (String c "#", s).
Proof. intros Hc Ho. unfold matchNoteName. now rewrite Hc, Ho. Qed.

Lemma nameToMidi_render (i : Z) (octave : Z) :
  0 <= i < 12 ->
  nameToMidi (nth (Z.to_nat i) NOTE_NAMES "" ++ show octave) = (octave + 1) * 12 + i.
Proof.
  intro Hi. unfold nameToMidi.
  assert (Hcases : i = 0 \/ i = 1 \/ i = 2 \/ i = 3 \/ i = 4 \/ i = 5 \/ i = 6
                   \/ i = 7 \/ i = 8 \/ i = 9 \/ i = 10 \/ i = 11) by lia.
  repeat (destruct Hcases as [-> | Hcases]); try subst i;
    match goal with
    | |- context [nth ?k NOTE_NAMES ""] =>
        let v := eval vm_compute in (nth k NOTE_NAMES "") in
        change (nth k NOTE_NAMES "") with v
    end;
    cbn [append];
    first [ rewrite matchNoteName_sharp by (try reflexivity; apply is_octave_show)
          | rewrite matchNoteName_natural
              by (try reflexivity; try apply is_octave_show; apply show_not_sharp) ];
    rewrite JSFacts.parseInt_show; reflexivity.
Qed.

Lemma nameToMidi_of_name (midi : Z) : nameToMidi (midiToName midi) = midi.
Proof.
  unfold midiToName.
  rewrite jsrem_norm12.
  rewrite nameToMidi_render by (apply Z.mod_pos_bound; lia).
  pose proof (Z.div_mod midi 12 ltac:(lia)). lia.
Qed.

Lemma indexOf_some (l : list string) (x : string) (i : Z) :
  indexOf l x = Some i ->
  0 <= i < Z.of_nat (List.length l) /\ nth (Z.to_nat i) l "" = x.
Proof.
  revert i. induction l as [|y l IH]; intros i H; [discriminate|].
  cbn [indexOf] in H. destruct (String.eqb_spec x y) as [->|Hne].
  - injection H as <-. split; [cbn [List.length]; lia | reflexivity].
  - destruct (indexOf l x) as [j|]; [|discriminate]. injection H as <-.
    destruct (IH j eq_refl) as [Hj Hn]. split; [cbn [List.length]; lia|].
    replace (Z.to_nat (j + 1)) with (S (Z.to_nat j)) by lia. exact Hn.
Qed.



End MusicTheoryMore.

(** C8.  The fallback to the default shape is missed for the quality and
    scale tags that name a member of [Object.prototype]: ["constructor"] is
    in neither table, yet [buildChord] and [buildScale] throw on it instead
    of returning the maj7 shape and the major scale. *)
Theorem music_theory_inherited_tag_throws :
  JS.assoc MusicTheory.CHORD_SHAPES "constructor" = None
  /\ MusicTheory.buildChord 60 "constructor"
     = JS.Throw "TypeError: map is not a function"
  /\ JS.assoc MusicTheory.SCALES "constructor" = None
  /\ MusicTheory.buildScale "C" "constructor"
     = JS.Throw "TypeError: map is not a function"
  /\ MusicTheory.getScaleNotes "C" "constructor" 3 4
     = JS.Throw "TypeError: scale is not iterable".
Proof. repeat split; reflexivity. Qed.




(** In A minor the third degree is C: the template [[3, "maj"]] resolves to
    the root 72 with the triad quality of the template. *)
Example resolveChord_A_minor_3 :
  MusicTheory.resolveChordFromTemplate "A" "minor" (3, "maj")
  = MusicTheory.mkChord 72 "maj".
Proof. reflexivity. Qed.

(** ** song-scheduler.ts *)
Module SchedulerFacts.
Import JS Instruments Song Scheduler SchedulerSpec.

(** *** Sorting *)

Lemma insertBy_perm (x : string) (l : list string) :
  Permutation (insertBy compareTransportTime x l) (x :: l).
Proof.
  induction l as [|y r IH]; cbn [insertBy].
  - reflexivity.
  - destruct (compareTransportTime x y <? 0).
    + reflexivity.
    + rewrite IH. apply perm_swap.
Qed.

Lemma fold_insert_perm (l acc : list string) :
  Permutation (fold_left (fun a x => insertBy compareTransportTime x a) l acc)
              (acc ++ l).
Proof.
  revert acc. induction l as [|x r IH]; intro acc; cbn [fold_left].
  - now rewrite app_nil_r.
  - rewrite IH. apply Permutation_trans with ((x :: acc) ++ r).
    + apply Permutation_app_tail, insertBy_perm.
    + cbn [app]. apply Permutation_middle.
Qed.

Lemma sortBy_perm (l : list string) :
  Permutation (sortBy compareTransportTime l) l.
Proof. unfold sortBy. now rewrite fold_insert_perm. Qed.

Lemma insertBy_sorted (x : string) (l : list string) :
  StronglySorted keyLe l ->
  StronglySorted keyLe (insertBy compareTransportTime x l).
Proof.
  induction 1 as [|y r Hs IH Hy]; cbn [insertBy].
  - repeat constructor.
  - unfold compareTransportTime at 1.
    destruct (Z.ltb_spec (parse x - parse y) 0) as [Hlt|Hge].
    + constructor; [now constructor|].
      constructor; [unfold keyLe; lia|].
      eapply Forall_impl; [|exact Hy]. unfold keyLe. intros; lia.
    + constructor; [exact IH|].
      eapply Permutation_Forall; [symmetry; apply insertBy_perm|].
      constructor; [unfold keyLe; lia | exact Hy].
Qed.

Lemma sortBy_sorted (l : list string) :
  StronglySorted keyLe (sortBy compareTransportTime l).
Proof.
  unfold sortBy.
  assert (G : forall acc, StronglySorted keyLe acc ->
            StronglySorted keyLe
              (fold_left (fun a x => insertBy compareTransportTime x a) l acc)).
  { induction l as [|x r IH]; intros acc Hacc; cbn [fold_left]; [exact Hacc|].
    apply IH, insertBy_sorted, Hacc. }
  apply G. constructor.
Qed.

(** On well-formed times the comparison key orders positions field by
    field. *)
Lemma parse_decode (t : string) :
  parse t = let '(b, q, x) := Transport.decode t in 16 * b + 4 * q + x.
Proof. unfold parse, Transport.decode. lia. Qed.

Lemma keyLe_lexLe (a b : string) :
  wellFormedTime a = true -> wellFormedTime b = true ->
  keyLe a b -> lexLe (Transport.decode a) (Transport.decode b).
Proof.
  unfold keyLe, wellFormedTime, lexLe. rewrite !parse_decode.
  destruct (Transport.decode a) as [[b1 q1] x1].
  destruct (Transport.decode b) as [[b2 q2] x2].
  rewrite !andb_true_iff, !Z.leb_le, !Z.ltb_lt. lia.
Qed.

Lemma decode_timeString (b q x : Z) :
  Transport.decode (timeString b q x) = (b, q, x).
Proof.
  unfold Transport.decode. rewrite JSFacts.split_timeString.
  cbn [map nth]. now rewrite !JSFacts.parseInt_show.
Qed.

Lemma wellFormed_timeString (b q x : Z) :
  0 <= q < 4 -> 0 <= x < 4 -> wellFormedTime (timeString b q x) = true.
Proof.
  intros Hq Hx. unfold wellFormedTime. rewrite decode_timeString.
  rewrite !andb_true_iff, !Z.leb_le, !Z.ltb_lt. lia.
Qed.

(** *** The event map *)

Lemma mapGet_mapSet (m : EventMap) (k k' : string) (v : Entry) :
  mapGet (mapSet m k v) k' = if String.eqb k' k then Some v else mapGet m k'.
Proof.
  induction m as [|[k0 v0] r IH]; cbn [mapSet mapGet].
  - reflexivity.
  - destruct (String.eqb_spec k k0) as [->|Hk]; cbn [mapGet].
    + destruct (String.eqb_spec k' k0); reflexivity.
    + rewrite IH. destruct (String.eqb_spec k' k0) as [->|Hk'].
      * destruct (String.eqb_spec k0 k); [congruence | reflexivity].
      * reflexivity.
Qed.

Lemma mapKeys_mapSet_in (m : EventMap) (k : string) (v : Entry) :
  In k (mapKeys m) -> mapKeys (mapSet m k v) = mapKeys m.
Proof.
  induction m as [|[k0 v0] r IH]; cbn [mapSet mapKeys map fst In]; [tauto|].
  intros H. destruct (String.eqb_spec k k0) as [->|Hk]; [reflexivity|].
  cbn [map fst]. f_equal. apply IH. destruct H; [congruence | assumption].
Qed.

Lemma mapKeys_mapSet_notin (m : EventMap) (k : string) (v : Entry) :
  ~ In k (mapKeys m) -> mapKeys (mapSet m k v) = mapKeys m ++ [k].
Proof.
  induction m as [|[k0 v0] r IH]; cbn [mapSet mapKeys map fst In app]; [reflexivity|].
  intros H. destruct (String.eqb_spec k k0) as [->|Hk]; [tauto|].
  cbn [map fst]. f_equal. apply IH. tauto.
Qed.

Lemma mapKeys_mapSet_iff (m : EventMap) (k k' : string) (v : Entry) :
  In k' (mapKeys (mapSet m k v)) <-> k' = k \/ In k' (mapKeys m).
Proof.
  destruct (in_dec string_dec k (mapKeys m)) as [Hin|Hout].
  - rewrite mapKeys_mapSet_in by assumption. split; [tauto|].
    intros [->|H]; assumption.
  - rewrite mapKeys_mapSet_notin by assumption. rewrite in_app_iff.
    cbn [In]. split; intros [H|H]; auto.
    + destruct H as [<-|[]]; auto.
Qed.

Lemma mapKeys_mapSet_NoDup (m : EventMap) (k : string) (v : Entry) :
  NoDup (mapKeys m) -> NoDup (mapKeys (mapSet m k v)).
Proof.
  intro Hnd. destruct (in_dec string_dec k (mapKeys m)) as [Hin|Hout].
  - now rewrite mapKeys_mapSet_in.
  - rewrite mapKeys_mapSet_notin by assumption.
    apply NoDup_app; [exact Hnd | repeat constructor; tauto |].
    intros x Hx [<-|[]]. contradiction.
Qed.

Lemma represents_empty : Represents [] [] [].
Proof. split; [constructor | reflexivity | reflexivity]. Qed.

Lemma represents_addInstrument m I D e :
  Represents m I D -> Represents (addInstrument m e) (I ++ [e]) D.
Proof.
  intros [Hnd Hk He]. unfold addInstrument.
  fold (entryAt m (time e)). split.
  - now apply mapKeys_mapSet_NoDup.
  - intro t. rewrite mapKeys_mapSet_iff, Hk, map_app, !in_app_iff.
    cbn [map In]. intuition congruence.
  - intro t. unfold entryAt at 1. rewrite mapGet_mapSet.
    rewrite filter_app. cbn [filter].
    destruct (String.eqb_spec t (time e)) as [->|Hne].
    + rewrite String.eqb_refl, He. reflexivity.
    + destruct (String.eqb_spec (time e) t) as [E|_]; [congruence|].
      rewrite app_nil_r. apply He.
Qed.

Lemma represents_addDrum m I D e :
  Represents m I D -> Represents (addDrum m e) I (D ++ [e]).
Proof.
  intros [Hnd Hk He]. unfold addDrum.
  fold (entryAt m (dtime e)). split.
  - now apply mapKeys_mapSet_NoDup.
  - intro t. rewrite mapKeys_mapSet_iff, Hk, map_app, !in_app_iff.
    cbn [map In]. intuition congruence.
  - intro t. unfold entryAt at 1. rewrite mapGet_mapSet.
    rewrite filter_app. cbn [filter].
    destruct (String.eqb_spec t (dtime e)) as [->|Hne].
    + rewrite String.eqb_refl, He. reflexivity.
    + destruct (String.eqb_spec (dtime e) t) as [E|_]; [congruence|].
      rewrite app_nil_r. apply He.
Qed.

Lemma represents_instruments (l : list InstrumentNoteEvent) m I D :
  Represents m I D -> Represents (fold_left addInstrument l m) (I ++ l) D.
Proof.
  revert m I. induction l as [|e r IH]; intros m I H; cbn [fold_left].
  - now rewrite app_nil_r.
  - replace (I ++ e :: r) with ((I ++ [e]) ++ r) by now rewrite <- app_assoc.
    apply IH, represents_addInstrument, H.
Qed.

Lemma represents_drums (l : list DrumEvent) m I D :
  Represents m I D -> Represents (fold_left addDrum l m) I (D ++ l).
Proof.
  revert m D. induction l as [|e r IH]; intros m D H; cbn [fold_left].
  - now rewrite app_nil_r.
  - replace (D ++ e :: r) with ((D ++ [e]) ++ r) by now rewrite <- app_assoc.
    apply IH, represents_addDrum, H.
Qed.

Lemma represents_sections (l : list SongSection) m I D :
  Represents m I D ->
  Represents (fold_left addSection l m)
             (I ++ flat_map instrumentEvents l) (D ++ flat_map drumEvents l).
Proof.
  revert m I D. induction l as [|sec r IH]; intros m I D H; cbn [fold_left flat_map].
  - now rewrite !app_nil_r.
  - rewrite !app_assoc. apply IH. unfold addSection.
    apply represents_drums, represents_instruments, H.
Qed.

Lemma represents_collect (song : Song) :
  Represents (collect song) (allInstrumentEvents song) (allDrumEvents song).
Proof. apply (represents_sections (sections song) [] [] []), represents_empty. Qed.

Lemma eventTimes_iff (song : Song) (t : string) :
  In t (eventTimes song)
  <-> In t (map time (allInstrumentEvents song) ++ map dtime (allDrumEvents song)).
Proof.
  unfold eventTimes, allInstrumentEvents, allDrumEvents.
  induction (sections song) as [|sec r IH]; cbn [flat_map]; [reflexivity|].
  rewrite !map_app, !in_app_iff in *. tauto.
Qed.

Lemma collect_keys (song : Song) (t : string) :
  In t (mapKeys (collect song)) <-> In t (eventTimes song).
Proof. rewrite eventTimes_iff. apply (rep_keys _ _ _ (represents_collect song)). Qed.

(** The batch of a time position: the events of that time, in event-array
    order. *)
Lemma collect_entry (song : Song) (t : string) :
  entryAt (collect song) t
  = (filter (fun e => String.eqb (time e) t) (allInstrumentEvents song),
     filter (fun e => String.eqb (dtime e) t) (allDrumEvents song)).
Proof. apply (rep_entry _ _ _ (represents_collect song)). Qed.

Lemma sortedTimes_perm (song : Song) :
  Permutation (sortedTimes (collect song)) (mapKeys (collect song)).
Proof. apply sortBy_perm. Qed.

Lemma sortedTimes_NoDup (song : Song) : NoDup (sortedTimes (collect song)).
Proof.
  eapply Permutation_NoDup; [symmetry; apply sortedTimes_perm|].
  apply (rep_nodup _ _ _ (represents_collect song)).
Qed.

Lemma sortedTimes_iff (song : Song) (t : string) :
  In t (sortedTimes (collect song)) <-> In t (eventTimes song).
Proof.
  rewrite <- collect_keys. split; apply Permutation_in.
  - apply sortedTimes_perm.
  - symmetry. apply sortedTimes_perm.
Qed.

(** *** The registrations of one call *)

Lemma eventRegs_length m times start :
  List.length (eventRegs m times start) = List.length times.
Proof.
  revert start. induction times; intro; cbn [eventRegs List.length]; auto.
Qed.

Lemma registerTimes_eq (m : EventMap) (times : list string) (ids : list Z) (tr : T) :
  registerTimes m times (ids, tr)
  = (ids ++ map Transport.rid (eventRegs m times (Transport.nextId tr)),
     Transport.mkTransport
       (Transport.nextId tr + Z.of_nat (List.length times))
       (Transport.timeline tr ++ eventRegs m times (Transport.nextId tr))).
Proof.
  unfold registerTimes. revert ids tr.
  induction times as [|t ts IH]; intros ids tr; cbn [fold_left eventRegs map List.length].
  - rewrite !app_nil_r, Z.add_0_r. now destruct tr.
  - fold (entryAt m t). destruct (entryAt m t) as [instrument drum] eqn:E.
    unfold Transport.schedule. rewrite IH.
    cbn [Transport.nextId Transport.timeline fst snd].
    rewrite <- !app_assoc. cbn [app]. f_equal. f_equal. lia.
Qed.

Lemma schedule_eq (song : Song) (options : SongSchedulerOptions) (tr : T) :
  schedule song options tr
  = (map Transport.rid (registrations song options (Transport.nextId tr)),
     Transport.mkTransport
       (Transport.nextId tr
        + Z.of_nat (List.length (registrations song options (Transport.nextId tr))))
       (Transport.timeline tr ++ registrations song options (Transport.nextId tr))).
Proof.
  unfold schedule, registrations. rewrite registerTimes_eq.
  rewrite eventRegs_length.
  destruct options as [[|] [|]];
    cbn [onBar onSongEnd Transport.scheduleRepeat Transport.schedule
         Transport.nextId Transport.timeline app List.length];
    rewrite ?app_nil_l, ?map_app, ?length_app, ?eventRegs_length;
    cbn [map Transport.rid List.length app Nat.add];
    rewrite <- ?app_assoc; cbn [app];
    repeat (f_equal; try lia).
Qed.

(** *** The callbacks *)

Lemma getMelodicSynths_total (id : InstrumentId) :
  getMelodicSynths id = Some (Melodic id).
Proof. destruct id; reflexivity. Qed.

Lemma fold_left_pointwise {A B} (f g : B -> A -> B) :
  (forall b a, f b a = g b a) ->
  forall l b, fold_left f l b = fold_left g l b.
Proof.
  intros H l. induction l as [|a r IH]; intro b; cbn [fold_left];
    [reflexivity | now rewrite H, IH].
Qed.

Lemma fold_push {A B} (f : A -> B) (l : list A) (acc : list B) :
  fold_left (fun out e => out ++ [f e]) l acc = acc ++ map f l.
Proof.
  revert acc. induction l as [|a r IH]; intro acc; cbn [fold_left map].
  - now rewrite app_nil_r.
  - rewrite IH, <- app_assoc. reflexivity.
Qed.

Lemma fold_push_unless {A B} (skip : A -> bool) (f : A -> B) (l : list A)
  (acc : list B) :
  fold_left (fun out e => if skip e then out else out ++ [f e]) l acc
  = acc ++ map f (filter (fun e => negb (skip e)) l).
Proof.
  revert acc. induction l as [|a r IH]; intro acc; cbn [fold_left map filter].
  - now rewrite app_nil_r.
  - rewrite IH. destruct (skip a); cbn [negb map].
    + reflexivity.
    + rewrite <- app_assoc. reflexivity.
Qed.

(** The callback of a time position, loop by loop. *)
Lemma dispatch_eq (instrument : list InstrumentNoteEvent) (drum : list DrumEvent)
  (t : float) :
  dispatch instrument drum t
  = map (padTrigger (match filter isPad instrument with
                     | first :: _ => duration first
                     | [] => ""
                     end) t) (filter isPad instrument)
    ++ map (voiceTrigger t) (filter (fun e => negb (isPad e)) instrument)
    ++ map (drumTrigger t) drum.
Proof.
  unfold dispatch.
  assert (Hd : forall out,
             fold_left (fun out d =>
               match dinstrument d with
               | kick => out ++ [Trigger (Drum kick) (Some "C2") (NoteLength "8n")
                                   t (dvelocity d)]
               | other => out ++ [Trigger (Drum other) None (NoteLength "32n")
                                    t (dvelocity d)]
               end) drum out
             = out ++ map (drumTrigger t) drum).
  { intro out. rewrite <- fold_push. apply fold_left_pointwise.
    intros o d. unfold drumTrigger. destruct (dinstrument d); reflexivity. }
  rewrite Hd.
  assert (Hv : forall out,
             fold_left (fun out e =>
               if isPad e then out
               else match getMelodicSynths (Song.instrument e) with
                    | Some synth => out ++ [Trigger synth (Some (note e))
                                              (NoteLength (duration e)) t (velocity e)]
                    | None => out
                    end) instrument out
             = out ++ map (voiceTrigger t) (filter (fun e => negb (isPad e)) instrument)).
  { intro out. rewrite <- fold_push_unless. apply fold_left_pointwise.
    intros o e. rewrite getMelodicSynths_total. reflexivity. }
  rewrite Hv, <- app_assoc. f_equal.
  destruct (filter isPad instrument) as [|first rest] eqn:E; [reflexivity|].
  rewrite fold_push. reflexivity.
Qed.

Lemma scanSections_inside (pre : list SongSection) (s : SongSection)
  (post : list SongSection) (bar acc : Z) :
  Forall (fun x => 0 <= bars x) pre ->
  acc + sumBars pre <= bar < acc + sumBars pre + bars s ->
  scanSections (pre ++ s :: post) bar acc = [OnBar (name s)].
Proof.
  revert acc. induction pre as [|x r IH]; intros acc Hpre Hbar;
    cbn [app scanSections sumBars fold_right] in *.
  - destruct (Z.leb_spec acc bar); [|lia].
    destruct (Z.ltb_spec bar (acc + bars s)); [|lia]. reflexivity.
  - inversion Hpre as [|? ? Hx Hr]; subst.
    assert (Hs : 0 <= sumBars r).
    { clear - Hr. induction Hr; cbn [sumBars fold_right]; [lia|].
      fold (sumBars l). lia. }
    fold (sumBars r) in Hbar.
    destruct (Z.leb_spec acc bar); cbn [andb].
    + destruct (Z.ltb_spec bar (acc + bars x)); [lia|].
      apply IH; [assumption | lia].
    + lia.
Qed.

Lemma scanSections_outside (l : list SongSection) (bar acc : Z) :
  Forall (fun x => 0 <= bars x) l ->
  bar < acc \/ acc + sumBars l <= bar ->
  scanSections l bar acc = [].
Proof.
  revert acc. induction l as [|x r IH]; intros acc Hl Hbar;
    cbn [scanSections sumBars fold_right] in *; [reflexivity|].
  inversion Hl as [|? ? Hx Hr]; subst. fold (sumBars r) in Hbar.
  assert (Hs : 0 <= sumBars r).
  { clear - Hr. induction Hr; cbn [sumBars fold_right]; [lia|].
    fold (sumBars l). lia. }
  destruct (Z.leb_spec acc bar); cbn [andb].
  - destruct (Z.ltb_spec bar (acc + bars x)); [lia|].
    apply IH; [assumption | lia].
  - apply IH; [assumption | lia].
Qed.

(** *** Registrations by kind *)

Lemma eventRegs_all_events m times start :
  Forall (fun r => isEventsReg r = true) (eventRegs m times start).
Proof.
  revert start. induction times as [|t ts IH]; intro start; cbn [eventRegs];
    constructor; [reflexivity | apply IH].
Qed.

Lemma eventRegs_no_songEnd m times start :
  filter isSongEndReg (eventRegs m times start) = [].
Proof.
  revert start. induction times as [|t ts IH]; intro start;
    cbn [eventRegs filter isSongEndReg Transport.rcb]; [reflexivity | apply IH].
Qed.

Lemma eventRegs_onceTimes m times start :
  onceTimes (eventRegs m times start) = times.
Proof.
  revert start. induction times as [|t ts IH]; intro start;
    cbn [eventRegs onceTimes flat_map Transport.rwhen app]; [reflexivity|].
  f_equal. apply IH.
Qed.

Lemma eventRegs_when m times start :
  map Transport.rwhen (eventRegs m times start) = map Transport.Once times.
Proof.
  revert start. induction times as [|t ts IH]; intro start;
    cbn [eventRegs map Transport.rwhen]; [reflexivity|].
  f_equal. apply IH.
Qed.

Lemma eventRegs_rid m times start :
  Forall (fun r => start <= Transport.rid r) (eventRegs m times start).
Proof.
  revert start. induction times as [|t ts IH]; intro start; cbn [eventRegs];
    constructor; [cbn; lia|].
  eapply Forall_impl; [|apply IH]. cbn beta. intros; lia.
Qed.

Lemma filter_all {A} (p : A -> bool) (l : list A) :
  Forall (fun a => p a = true) l -> filter p l = l.
Proof.
  induction 1 as [|a r Ha _ IH]; cbn [filter]; [reflexivity|].
  now rewrite Ha, IH.
Qed.

Lemma registrations_events song options start :
  filter isEventsReg (registrations song options start)
  = eventRegs (collect song) (sortedTimes (collect song)) start.
Proof.
  unfold registrations. rewrite filter_app.
  rewrite (filter_all _ _ (eventRegs_all_events _ _ _)).
  destruct (onBar options), (onSongEnd options); cbn; now rewrite app_nil_r.
Qed.

Lemma registrations_songEnd song options start :
  onSongEnd options = true ->
  exists id,
    filter isSongEndReg (registrations song options start)
    = [Transport.mkReg id (Transport.Once (timeString (totalBars song) 0 0)) SongEnd].
Proof.
  intro E. unfold registrations. rewrite E, filter_app, eventRegs_no_songEnd.
  destruct (onBar options); cbn; eexists; reflexivity.
Qed.

Lemma registrations_rid song options start :
  Forall (fun r => start <= Transport.rid r) (registrations song options start).
Proof.
  unfold registrations.
  apply Forall_app; split; [apply eventRegs_rid|].
  destruct (onBar options), (onSongEnd options);
    repeat constructor; cbn [Transport.rid List.length]; lia.
Qed.

Lemma added_schedule song options tr :
  added tr (snd (schedule song options tr))
  = registrations song options (Transport.nextId tr).
Proof.
  rewrite schedule_eq. unfold added. cbn [snd Transport.timeline].
  rewrite skipn_app, Nat.sub_diag, skipn_all. reflexivity.
Qed.

(** *** Cancelling *)

Lemma clearAll_timeline {C} (ids : list Z) (tr : Transport.Transport C) :
  Transport.timeline (Transport.clearAll ids tr)
  = filter (fun r => negb (existsb (Z.eqb (Transport.rid r)) ids))
           (Transport.timeline tr).
Proof.
  unfold Transport.clearAll. revert tr.
  induction ids as [|id r IH]; intro tr; cbn [fold_left existsb].
  - symmetry. apply filter_all, Forall_forall. reflexivity.
  - rewrite IH. cbn [Transport.clear Transport.timeline].
    induction (Transport.timeline tr) as [|a l IHl]; cbn [filter]; [reflexivity|].
    destruct (Z.eqb_spec (Transport.rid a) id); cbn [negb orb filter].
    + exact IHl.
    + rewrite IHl. reflexivity.
Qed.

Lemma filter_none {A} (p : A -> bool) (l : list A) :
  Forall (fun a => p a = false) l -> filter p l = [].
Proof.
  induction 1 as [|a r Ha _ IH]; cbn [filter]; [reflexivity|].
  now rewrite Ha.
Qed.

Lemma existsb_rid {C} (r : Transport.Registration C)
  (l : list (Transport.Registration C)) :
  In r l -> existsb (Z.eqb (Transport.rid r)) (map Transport.rid l) = true.
Proof.
  intro H. apply existsb_exists. exists (Transport.rid r).
  split; [now apply in_map | apply Z.eqb_refl].
Qed.

Lemma clearAll_added (tr : T) (regs : list (Transport.Registration Callback)) n :
  wellFormed tr ->
  Forall (fun r => Transport.nextId tr <= Transport.rid r) regs ->
  Transport.timeline
    (Transport.clearAll (map Transport.rid regs)
       (Transport.mkTransport n (Transport.timeline tr ++ regs)))
  = Transport.timeline tr.
Proof.
  intros Hwf Hregs. rewrite clearAll_timeline. cbn [Transport.timeline].
  rewrite filter_app.
  rewrite filter_all, filter_none; [apply app_nil_r | |].
  - apply Forall_forall. intros r Hr. now rewrite existsb_rid.
  - unfold wellFormed in Hwf. rewrite Forall_forall in *.
    intros r Hr. apply negb_true_iff.
    destruct (existsb (Z.eqb (Transport.rid r)) (map Transport.rid regs)) eqn:E;
      [|reflexivity].
    apply existsb_exists in E. destruct E as [id [Hid Heq]].
    apply Z.eqb_eq in Heq. apply in_map_iff in Hid.
    destruct Hid as [r' [<- Hr']].
    specialize (Hwf r Hr). specialize (Hregs r' Hr'). cbn beta in *. lia.
Qed.

(** *** Order of the registered times *)

Lemma StronglySorted_map_in {A B} (R : A -> A -> Prop) (R' : B -> B -> Prop)
  (f : A -> B) (P : A -> Prop) (l : list A) :
  (forall a b, P a -> P b -> R a b -> R' (f a) (f b)) ->
  Forall P l -> StronglySorted R l -> StronglySorted R' (map f l).
Proof.
  intros HR HP Hs. induction Hs as [|a r Hs IH Ha]; cbn [map]; [constructor|].
  inversion HP as [|? ? Pa Pr]; subst.
  constructor; [now apply IH|].
  rewrite Forall_map. rewrite Forall_forall in *.
  intros b Hb. apply HR; auto.
Qed.

(** *** Counting the firings of a run *)

Lemma run_S {C} (tr : Transport.Transport C) (n : nat) :
  Transport.run tr (S n)
  = Transport.run tr n
    ++ map (fun r => (Z.of_nat n, r)) (Transport.fired tr (Z.of_nat n)).
Proof.
  unfold Transport.run. rewrite seq_S, flat_map_app. cbn [flat_map Nat.add].
  now rewrite app_nil_r.
Qed.

(** The per-bar registration is due at the start of every bar. *)
Lemma barUpdate_due (id : Z) (song : Song) (tick : Z) :
  Transport.due tick
    (Transport.mkReg id (Transport.Repeat "1m" "0:0:0") (BarUpdate song))
  = (0 <=? tick) && (tick mod 32 =? 0).
Proof.
  cbn [Transport.due Transport.rwhen]. change (Transport.intervalTicks "1m") with (Some 32).
  change (Transport.positionTicks "0:0:0") with 0. now rewrite Z.sub_0_r.
Qed.

Lemma filter_comm {A} (p q : A -> bool) (l : list A) :
  filter p (filter q l) = filter q (filter p l).
Proof.
  induction l as [|a r IH]; cbn [filter]; [reflexivity|].
  destruct (p a) eqn:Ep, (q a) eqn:Eq; cbn [filter];
    rewrite ?Ep, ?Eq, IH; reflexivity.
Qed.

Lemma positionTicks_timeString (b q x : Z) :
  Transport.positionTicks (timeString b q x) = 32 * b + 8 * q + 2 * x.
Proof. unfold Transport.positionTicks. now rewrite decode_timeString. Qed.

(** The firings of a callback that is registered exactly once, for one
    time. *)
Lemma single_once_fired (tr : T) (p : Transport.Registration Callback -> bool)
  (id : Z) (time : string) (cb : Callback) (tick : Z) :
  filter p (Transport.timeline tr) = [Transport.mkReg id (Transport.Once time) cb] ->
  filter p (Transport.fired tr tick)
  = if tick =? Transport.positionTicks time
    then [Transport.mkReg id (Transport.Once time) cb] else [].
Proof.
  intro E. unfold Transport.fired. rewrite filter_comm, E.
  cbn [filter Transport.due Transport.rwhen].
  destruct (tick =? Transport.positionTicks time); reflexivity.
Qed.

Lemma single_once_run (tr : T) (p : Transport.Registration Callback -> bool)
  (id : Z) (time : string) (cb : Callback) (n : nat) :
  filter p (Transport.timeline tr) = [Transport.mkReg id (Transport.Once time) cb] ->
  0 <= Transport.positionTicks time ->
  List.length (filter (fun x => p (snd x)) (Transport.run tr n))
  = if Transport.positionTicks time <? Z.of_nat n then 1%nat else 0%nat.
Proof.
  intros E Hpos. induction n as [|n IH].
  - cbn [Transport.run seq flat_map filter List.length].
    destruct (Z.ltb_spec (Transport.positionTicks time) (Z.of_nat 0)); [lia|reflexivity].
  - rewrite run_S, filter_app, length_app, IH.
    assert (Hmap : forall l : list (Transport.Registration Callback),
               filter (fun x => p (snd x)) (map (fun r => (Z.of_nat n, r)) l)
               = map (fun r => (Z.of_nat n, r)) (filter p l)).
    { induction l as [|a r IHl]; cbn [map filter snd]; [reflexivity|].
      destruct (p a); cbn [map]; now rewrite IHl. }
    rewrite Hmap, length_map, (single_once_fired tr p id time cb _ E).
    destruct (Z.eqb_spec (Z.of_nat n) (Transport.positionTicks time));
      destruct (Z.ltb_spec (Transport.positionTicks time) (Z.of_nat n));
      destruct (Z.ltb_spec (Transport.positionTicks time) (Z.of_nat (S n)));
      cbn [List.length]; lia.
Qed.

End SchedulerFacts.

(** C6.  The callback registered for a time position holds the instrument
    events and the drum events of that position in event-array order, and
    when it fires it triggers first the pad events as one group, then every
    other instrument event on the voice of its tag, then every drum event on
    its drum voice, each group in event-array order. *)
Theorem dispatch_pads_voices_drums :
  forall (song : Song.Song) (time : string) (t : float),
    let batch := filter (fun e => String.eqb (Song.time e) time)
                        (SchedulerSpec.allInstrumentEvents song) in
    let drums := filter (fun d => String.eqb (Song.dtime d) time)
                        (SchedulerSpec.allDrumEvents song) in
    SchedulerSpec.entryAt (Scheduler.collect song) time = (batch, drums)
    /\ Scheduler.dispatch batch drums t
       = map (SchedulerSpec.padTrigger
                (hd "" (map Song.duration (filter Scheduler.isPad batch))) t)
             (filter Scheduler.isPad batch)
         ++ map (SchedulerSpec.voiceTrigger t)
                (filter (fun e => negb (Scheduler.isPad e)) batch)
         ++ map (SchedulerSpec.drumTrigger t) drums.
Proof.
  intros song time t batch drums. split.
  - apply SchedulerFacts.collect_entry.
  - rewrite SchedulerFacts.dispatch_eq.
    destruct (filter Scheduler.isPad batch); reflexivity.
Qed.

(** C10.  When a batch holds pad events, every one of them is triggered
    with the duration of the first pad event of the batch; the durations of
    the later pad events are not used. *)
Theorem pad_group_takes_first_duration :
  forall (instrument : list Song.InstrumentNoteEvent) (drum : list Song.DrumEvent)
         (t : float) (first : Song.InstrumentNoteEvent)
         (rest : list Song.InstrumentNoteEvent),
    filter Scheduler.isPad instrument = first :: rest ->
    Scheduler.dispatch instrument drum t
    = map (fun e => Scheduler.Trigger (Scheduler.Melodic Instruments.pad)
                      (Some (Song.note e))
                      (Scheduler.NoteLength (Song.duration first))
                      t (Song.velocity e))
          (first :: rest)
      ++ map (SchedulerSpec.voiceTrigger t)
             (filter (fun e => negb (Scheduler.isPad e)) instrument)
      ++ map (SchedulerSpec.drumTrigger t) drum.
Proof.
  intros instrument drum t first rest E.
  rewrite SchedulerFacts.dispatch_eq, E. reflexivity.
Qed.

Lemma pad_group_takes_first_duration_witness :
  Scheduler.dispatch SchedulerSpec.padBatch [] 0%float
  = map (fun e => Scheduler.Trigger (Scheduler.Melodic Instruments.pad)
                    (Some (Song.note e)) (Scheduler.NoteLength "1n")
                    0%float (Song.velocity e))
        [ Song.mkNote "0:0:0" "C3" "1n" 0.5 Instruments.pad;
          Song.mkNote "0:0:0" "G3" "8n" 0.4 Instruments.pad ]%float
    ++ map (SchedulerSpec.voiceTrigger 0%float)
           (filter (fun e => negb (Scheduler.isPad e)) SchedulerSpec.padBatch)
    ++ map (SchedulerSpec.drumTrigger 0%float) [].
Proof.
  apply (pad_group_takes_first_duration SchedulerSpec.padBatch [] 0%float
           (Song.mkNote "0:0:0" "C3" "1n" 0.5 Instruments.pad)
           [Song.mkNote "0:0:0" "G3" "8n" 0.4 Instruments.pad]%float).
  reflexivity.
Defined.

(** C5, the claim as stated fails: at 60 bpm the per-bar callback fires at
    0 s in bar 0 and at 4 s in bar 1 of a two-bar verse; it calls the hook
    with ["verse"] on entering the section and again on its second bar. *)
Lemma onBar_repeats_within_section :
  Scheduler.barOf 60 0 = Some 0
  /\ Scheduler.barOf 60 4 = Some 1
  /\ Scheduler.barUpdate (SchedulerSpec.verseOnly 2) 60 0
     = [Scheduler.OnBar Song.verse]
  /\ Scheduler.barUpdate (SchedulerSpec.verseOnly 2) 60 4
     = [Scheduler.OnBar Song.verse].
Proof. repeat split; reflexivity. Qed.

(** C5 as amended.  Each firing of the per-bar callback whose bar, derived
    from the callback time and the tempo, lies inside a section calls the
    hook once with the name of that section -- on every bar of the section,
    not only on the first. *)
Theorem barUpdate_names_owning_section :
  forall (song : Song.Song) (bpm time : float) (bar : Z)
         (pre : list Song.SongSection) (s : Song.SongSection)
         (post : list Song.SongSection),
    Scheduler.barOf bpm time = Some bar ->
    Song.sections song = pre ++ s :: post ->
    Forall (fun x => 0 <= Song.bars x) pre ->
    SchedulerSpec.sumBars pre <= bar < SchedulerSpec.sumBars pre + Song.bars s ->
    Scheduler.barUpdate song bpm time = [Scheduler.OnBar (Song.name s)].
Proof.
  intros song bpm time bar pre s post Hbar Hsec Hpre Hin.
  unfold Scheduler.barUpdate. rewrite Hbar, Hsec.
  apply SchedulerFacts.scanSections_inside; [assumption | lia].
Qed.

Lemma barUpdate_names_owning_section_witness :
  Scheduler.barUpdate (SchedulerSpec.verseOnly 2) 60 4
  = [Scheduler.OnBar Song.verse].
Proof.
  apply (barUpdate_names_owning_section (SchedulerSpec.verseOnly 2) 60 4 1
           [] (Song.mkSection Song.verse 0 2 [] [] 0) []).
  - reflexivity.
  - reflexivity.
  - constructor.
  - cbn. lia.
Defined.

(** C2.  On a Song whose event times are well formed, the one-shot event
    callbacks that [schedule] registers are one per distinct event time of
    the Song, and their times, in registration order and decoded to
    (bar, beat, sixteenth), never decrease in the field-wise order. *)
Theorem schedule_registers_times_once_in_order :
  forall (song : Song.Song) (options : Scheduler.SongSchedulerOptions)
         (tr : Scheduler.T),
    (forall t, In t (SchedulerSpec.eventTimes song) ->
               SchedulerSpec.wellFormedTime t = true) ->
    let regs := filter SchedulerSpec.isEventsReg
                  (SchedulerSpec.added tr (snd (Scheduler.schedule song options tr))) in
    let times := SchedulerSpec.onceTimes regs in
    map Transport.rwhen regs = map Transport.Once times
    /\ NoDup times
    /\ (forall t, In t times <-> In t (SchedulerSpec.eventTimes song))
    /\ StronglySorted SchedulerSpec.lexLe (map Transport.decode times).
Proof.
  intros song options tr Hwf regs times. subst regs times.
  rewrite SchedulerFacts.added_schedule, SchedulerFacts.registrations_events.
  rewrite SchedulerFacts.eventRegs_onceTimes.
  split; [apply SchedulerFacts.eventRegs_when|].
  split; [apply SchedulerFacts.sortedTimes_NoDup|].
  split; [intro t; apply SchedulerFacts.sortedTimes_iff|].
  apply SchedulerFacts.StronglySorted_map_in
    with (R := SchedulerSpec.keyLe)
         (P := fun t => SchedulerSpec.wellFormedTime t = true).
  - intros a b Ha Hb. now apply SchedulerFacts.keyLe_lexLe.
  - apply Forall_forall. intros t Ht. apply Hwf.
    now apply SchedulerFacts.sortedTimes_iff.
  - apply SchedulerFacts.sortBy_sorted.
Qed.

Lemma schedule_registers_times_once_in_order_witness :
  let regs := filter SchedulerSpec.isEventsReg
                (SchedulerSpec.added SchedulerSpec.freshTransport
                   (snd (Scheduler.schedule SchedulerSpec.twelveBars
                           (Scheduler.mkOptions true true) SchedulerSpec.freshTransport))) in
  let times := SchedulerSpec.onceTimes regs in
  map Transport.rwhen regs = map Transport.Once times
  /\ NoDup times
  /\ (forall t, In t times <-> In t (SchedulerSpec.eventTimes SchedulerSpec.twelveBars))
  /\ StronglySorted SchedulerSpec.lexLe (map Transport.decode times).
Proof.
  apply (schedule_registers_times_once_in_order SchedulerSpec.twelveBars
           (Scheduler.mkOptions true true) SchedulerSpec.freshTransport).
  intros t Ht. cbn in Ht.
  repeat (destruct Ht as [<- | Ht]; [reflexivity|]). destruct Ht.
Defined.

Example schedule_twelveBars_times :
  SchedulerSpec.onceTimes
    (SchedulerSpec.added SchedulerSpec.freshTransport
       (snd (Scheduler.schedule SchedulerSpec.twelveBars
               (Scheduler.mkOptions true true) SchedulerSpec.freshTransport)))
  = ["0:1:0"; "2:0:0"; "2:3:2"; "10:0:0"; "11:3:3"; "12:0:0"].
Proof. reflexivity. Qed.

(** C3.  Every registration that [schedule] makes on the transport -- the
    per-time callbacks, the per-bar callback, the crackle callback and the
    song-end callback -- has its handle in the returned list; clearing the
    returned handles leaves the timeline as it was before the call, so none
    of the call's callbacks fires afterwards. *)
Theorem schedule_returns_every_handle :
  forall (song : Song.Song) (options : Scheduler.SongSchedulerOptions)
         (tr : Scheduler.T),
    SchedulerSpec.wellFormed tr ->
    let ids := fst (Scheduler.schedule song options tr) in
    let tr' := snd (Scheduler.schedule song options tr) in
    Transport.timeline tr' = Transport.timeline tr ++ SchedulerSpec.added tr tr'
    /\ SchedulerSpec.added tr tr'
       = SchedulerSpec.registrations song options (Transport.nextId tr)
    /\ map Transport.rid (SchedulerSpec.added tr tr') = ids
    /\ Transport.timeline (Transport.clearAll ids tr') = Transport.timeline tr
    /\ (forall tick r,
          In r (Transport.fired (Transport.clearAll ids tr') tick) ->
          In r (Transport.timeline tr) /\ ~ In r (SchedulerSpec.added tr tr')).
Proof.
  intros song options tr Hwf ids tr'. subst ids tr'.
  rewrite SchedulerFacts.added_schedule.
  assert (Hclear :
            Transport.timeline
              (Transport.clearAll (fst (Scheduler.schedule song options tr))
                 (snd (Scheduler.schedule song options tr)))
            = Transport.timeline tr).
  { rewrite SchedulerFacts.schedule_eq. cbn [fst snd].
    apply SchedulerFacts.clearAll_added; [exact Hwf|].
    apply SchedulerFacts.registrations_rid. }
  split; [now rewrite SchedulerFacts.schedule_eq|].
  split; [reflexivity|].
  split; [now rewrite SchedulerFacts.schedule_eq|].
  split; [exact Hclear|].
  intros tick r Hr. unfold Transport.fired in Hr. rewrite Hclear in Hr.
  apply filter_In in Hr. destruct Hr as [Hr _]. split; [exact Hr|].
  intro Hadd.
  pose proof (SchedulerFacts.registrations_rid song options (Transport.nextId tr)) as Hge.
  unfold SchedulerSpec.wellFormed in Hwf. rewrite Forall_forall in Hwf, Hge.
  specialize (Hwf r Hr). specialize (Hge r Hadd). cbn beta in *. lia.
Qed.

Lemma schedule_returns_every_handle_witness :
  let ids := fst (Scheduler.schedule SchedulerSpec.twelveBars
                    (Scheduler.mkOptions true true) SchedulerSpec.freshTransport) in
  let tr' := snd (Scheduler.schedule SchedulerSpec.twelveBars
                    (Scheduler.mkOptions true true) SchedulerSpec.freshTransport) in
  Transport.timeline tr'
  = Transport.timeline SchedulerSpec.freshTransport ++ SchedulerSpec.added SchedulerSpec.freshTransport tr'
  /\ SchedulerSpec.added SchedulerSpec.freshTransport tr'
     = SchedulerSpec.registrations SchedulerSpec.twelveBars
         (Scheduler.mkOptions true true) (Transport.nextId SchedulerSpec.freshTransport)
  /\ map Transport.rid (SchedulerSpec.added SchedulerSpec.freshTransport tr') = ids
  /\ Transport.timeline (Transport.clearAll ids tr')
     = Transport.timeline SchedulerSpec.freshTransport
  /\ (forall tick r,
        In r (Transport.fired (Transport.clearAll ids tr') tick) ->
        In r (Transport.timeline SchedulerSpec.freshTransport)
        /\ ~ In r (SchedulerSpec.added SchedulerSpec.freshTransport tr')).
Proof.
  apply (schedule_returns_every_handle SchedulerSpec.twelveBars
           (Scheduler.mkOptions true true) SchedulerSpec.freshTransport).
  constructor.
Defined.

Example schedule_twelveBars_handles :
  fst (Scheduler.schedule SchedulerSpec.twelveBars
         (Scheduler.mkOptions true true) SchedulerSpec.freshTransport)
  = [0; 1; 2; 3; 4; 5; 6; 7].
Proof. reflexivity. Qed.

(** C4.  When an [onSongEnd] hook is given, [schedule] registers it once,
    at the position [totalBars:0:0]; as the transport advances it fires
    when that position is reached and at no other position, hence once and
    never earlier.  A Song of twelve bars fires it at [12:0:0]. *)
Theorem onSongEnd_fires_once_at_totalBars :
  forall (song : Song.Song) (options : Scheduler.SongSchedulerOptions)
         (tr : Scheduler.T),
    Scheduler.onSongEnd options = true ->
    0 <= Song.totalBars song ->
    Forall (fun r => SchedulerSpec.isSongEndReg r = false) (Transport.timeline tr) ->
    let tr' := snd (Scheduler.schedule song options tr) in
    let position := Song.timeString (Song.totalBars song) 0 0 in
    (exists id,
        filter SchedulerSpec.isSongEndReg (Transport.timeline tr')
        = [Transport.mkReg id (Transport.Once position) Scheduler.SongEnd])
    /\ Transport.decode position = (Song.totalBars song, 0, 0)
    /\ (forall tick,
          (exists r, In r (Transport.fired tr' tick)
                     /\ SchedulerSpec.isSongEndReg r = true)
          <-> tick = Transport.positionTicks position)
    /\ (forall n,
          List.length (filter (fun x => SchedulerSpec.isSongEndReg (snd x))
                         (Transport.run tr' n))
          = if Transport.positionTicks position <? Z.of_nat n then 1%nat else 0%nat).
Proof.
  intros song options tr Hend Hbars Hold tr' position.
  destruct (SchedulerFacts.registrations_songEnd song options (Transport.nextId tr) Hend)
    as [id Hid].
  assert (Hone : filter SchedulerSpec.isSongEndReg (Transport.timeline tr')
                 = [Transport.mkReg id (Transport.Once position) Scheduler.SongEnd]).
  { subst tr'. rewrite SchedulerFacts.schedule_eq. cbn [snd Transport.timeline].
    rewrite filter_app, (SchedulerFacts.filter_none _ _ Hold). exact Hid. }
  assert (Hpos : Transport.positionTicks position = 32 * Song.totalBars song).
  { subst position. rewrite SchedulerFacts.positionTicks_timeString. lia. }
  split; [exists id; exact Hone|].
  split; [apply SchedulerFacts.decode_timeString|].
  split.
  - intro tick.
    pose proof (SchedulerFacts.single_once_fired tr' SchedulerSpec.isSongEndReg
                  id position Scheduler.SongEnd tick Hone) as Hf.
    split.
    + intros [r [Hr Hs]].
      assert (Hin : In r (filter SchedulerSpec.isSongEndReg (Transport.fired tr' tick)))
        by (apply filter_In; auto).
      rewrite Hf in Hin.
      destruct (Z.eqb_spec tick (Transport.positionTicks position)); [assumption|].
      destruct Hin.
    + intros ->. rewrite Z.eqb_refl in Hf.
      exists (Transport.mkReg id (Transport.Once position) Scheduler.SongEnd).
      assert (Hin : In (Transport.mkReg id (Transport.Once position) Scheduler.SongEnd)
                       (filter SchedulerSpec.isSongEndReg
                          (Transport.fired tr' (Transport.positionTicks position))))
        by (rewrite Hf; left; reflexivity).
      apply filter_In in Hin. exact Hin.
  - intro n. apply SchedulerFacts.single_once_run with (id := id) (cb := Scheduler.SongEnd).
    + exact Hone.
    + lia.
Qed.

Lemma onSongEnd_fires_once_at_totalBars_witness :
  let tr' := snd (Scheduler.schedule SchedulerSpec.twelveBars
                    (Scheduler.mkOptions true true) SchedulerSpec.freshTransport) in
  let position := Song.timeString 12 0 0 in
  (exists id,
      filter SchedulerSpec.isSongEndReg (Transport.timeline tr')
      = [Transport.mkReg id (Transport.Once position) Scheduler.SongEnd])
  /\ Transport.decode position = (12, 0, 0)
  /\ (forall tick,
        (exists r, In r (Transport.fired tr' tick)
                   /\ SchedulerSpec.isSongEndReg r = true)
        <-> tick = Transport.positionTicks position)
  /\ (forall n,
        List.length (filter (fun x => SchedulerSpec.isSongEndReg (snd x))
                       (Transport.run tr' n))
        = if Transport.positionTicks position <? Z.of_nat n then 1%nat else 0%nat).
Proof.
  apply (onSongEnd_fires_once_at_totalBars SchedulerSpec.twelveBars
           (Scheduler.mkOptions true true) SchedulerSpec.freshTransport).
  - reflexivity.
  - cbn. lia.
  - constructor.
Defined.

Example twelveBars_songEnd_position :
  Song.timeString 12 0 0 = "12:0:0"
  /\ Transport.positionTicks "12:0:0" = 384
  /\ map (fun x => fst x)
         (filter (fun x => SchedulerSpec.isSongEndReg (snd x))
            (Transport.run
               (snd (Scheduler.schedule SchedulerSpec.twelveBars
                       (Scheduler.mkOptions true true) SchedulerSpec.freshTransport))
               400))
     = [384].
Proof. repeat split; vm_compute; reflexivity. Qed.

(** ** rng.ts and song.ts *)
Module SongGenFacts.
Import JS Rng Song SongGen.

Example mulberry32_first_draw : step 1 = (1831565814, 2693262067).
Proof. vm_compute. reflexivity. Qed.

Example mulberry32_first_float :
  next (Rng.new 1) = Ok (0.6270739405881613%float, mkRng 1831565814).
Proof. vm_compute. reflexivity. Qed.

(** Fork isolation: forking reads the state and leaves the parent as it
    is, so equal parents have equal children. *)
Lemma fork_isolated (r : Rng) : fork r = Rng.new (state r).
Proof. reflexivity. Qed.

Lemma forked_keeps_parent {A} (c : Gen A) (r : Rng) (a : A) (r' : Rng) :
  forked c r = Ok (a, r') -> r' = r.
Proof.
  unfold forked. destruct (c (fork r)) as [[a0 r0]|m]; intro E;
    [now injection E | discriminate].
Qed.

(** The generator built from a seed depends on the seed's 32-bit value. *)
Lemma new_congr (s1 s2 : Z) : toInt32 s1 = toInt32 s2 -> Rng.new s1 = Rng.new s2.
Proof. unfold Rng.new. now intros ->. Qed.

Lemma bind_pointwise {A B} (c : Gen A) (k1 k2 : A -> Gen B) (r : Rng) :
  (forall a r', k1 a r' = k2 a r') -> bind c k1 r = bind c k2 r.
Proof.
  intro H. unfold bind. destruct (c r) as [[a r']|m]; [apply H | reflexivity].
Qed.

Lemma mapGen_bind {A B C} (f : B -> C) (c : Gen A) (k : A -> Gen B) (r : Rng) :
  mapGen f (bind c k) r = bind c (fun a => mapGen f (k a)) r.
Proof.
  unfold mapGen, bind. destruct (c r) as [[a r']|m]; reflexivity.
Qed.

(** The seed field of the builder reaches the Song's [seed] field and
    nothing else. *)
Lemma buildGen_seed (math : MathLib) (s1 s2 : Z) (r0 r : Rng) :
  buildGen math (mkBuilder s2 r0 None None None None None) r
  = mapGen (withSeed s2)
      (buildGen math (mkBuilder s1 r0 None None None None None)) r.
Proof.
  unfold buildGen.
  cbn [_preset _key _tempo _structure _progression b_seed orElse].
  repeat (rewrite mapGen_bind; apply bind_pointwise; intros ? ?;
          try match goal with
              | p : (_ * _)%type |- context [let '(_, _) := ?x in _] =>
                  constr_eq p x; destruct p
              end).
  reflexivity.
Qed.

Lemma observation_withSeed (s : Z) (song : Song) :
  observation (withSeed s song) = observation song.
Proof. reflexivity. Qed.

Lemma buildSong_seed (math : MathLib) (s1 s2 : Z) :
  toInt32 s1 = toInt32 s2 ->
  buildSong math s2
  = match buildSong math s1 with
    | Ok song => Ok (withSeed s2 song)
    | Throw m => Throw m
    end.
Proof.
  intro E. unfold buildSong, build, fromSeed. cbn [b_rng b_seed].
  rewrite (new_congr s1 s2 E).
  rewrite (buildGen_seed math s1 s2 (Rng.new s2) (Rng.new s2)).
  unfold mapGen.
  destruct (buildGen math (mkBuilder s1 (Rng.new s2) None None None None None)
              (Rng.new s2)) as [[song r']|m]; reflexivity.
Qed.

End SongGenFacts.

(** Seeds of equal 32-bit value give Songs with the same number of
    sections, the same bar count per section and the same instrument and
    drum events, field by field (or fail alike): the builder starts from
    [new Rng (seed)], that is from [seed | 0], and reads nothing else of the
    seed but for the [seed] field it copies into the Song. *)
Theorem buildSong_reads_seed_as_int32 :
  forall (math : Rng.MathLib) (s1 s2 : Z),
    JS.toInt32 s1 = JS.toInt32 s2 ->
    Song.observe (SongGen.buildSong math s1)
    = Song.observe (SongGen.buildSong math s2).
Proof.
  intros math s1 s2 E.
  rewrite (SongGenFacts.buildSong_seed math s1 s2 E).
  destruct (SongGen.buildSong math s1) as [song|m]; reflexivity.
Qed.

Lemma buildSong_reads_seed_as_int32_example :
  Song.observe (SongGen.buildSong (Rng.mkMath (fun x => x) (fun x => x) (fun x => x)) 1)
  = Song.observe
      (SongGen.buildSong (Rng.mkMath (fun x => x) (fun x => x) (fun x => x)) 4294967297).
Proof.
  apply (buildSong_reads_seed_as_int32
           (Rng.mkMath (fun x => x) (fun x => x) (fun x => x)) 1 4294967297).
  reflexivity.
Defined.

(** The structure generated from seed 1, whatever [Math.log], [Math.cos] and
    [Math.sin] return: they only enter velocities. *)
Example buildSong_seed_1 :
  forall math : Rng.MathLib,
    match SongGen.buildSong math 1 with
    | JS.Ok song =>
        (Presets.name (Song.preset song), Song.key song, Song.tempo song,
         Song.totalBars song,
         map (fun sec => (Song.name sec, Song.startBar sec, Song.bars sec))
             (Song.sections song))
        = ("Boom Bap", "Am", 90, 33,
           [ (Song.verse, 0, 8); (Song.chorus, 8, 5); (Song.verse, 13, 7);
             (Song.bridge, 20, 7); (Song.chorus, 27, 6) ])
    | JS.Throw _ => False
    end.
Proof. intro math. vm_compute. reflexivity. Qed.

(** ** engine.ts *)
Module EngineFacts.
Import JS Song Engine.

Lemma playSong_currentSong (song : Song) (e : LofiEngine) :
  currentSong (playSong song e) = Some song.
Proof.
  unfold playSong.
  destruct (Scheduler.schedule song (Scheduler.mkOptions true true) _) as [ids tr].
  reflexivity.
Qed.

Lemma playSong_scheduledIds (song : Song) (e : LofiEngine) :
  scheduledIds (playSong song e)
  = fst (Scheduler.schedule song (Scheduler.mkOptions true true)
           (Transport.clearAll (scheduledIds e) (transport e))).
Proof.
  unfold playSong.
  cbn [clearScheduled configureSynths configureFX applyParamOverrides call
       transport currentSong scheduledIds currentSectionName params calls].
  destruct (Scheduler.schedule song (Scheduler.mkOptions true true) _) as [ids tr].
  reflexivity.
Qed.

(** With no current Song, or with a seed, [start] builds the Song of the
    seed (of the clock when none is given) and plays it. *)
Lemma start_generates (math : Rng.MathLib) (seed : option Z) (now : Z)
  (e : LofiEngine) :
  currentSong e = None \/ seed <> None ->
  start math seed now e
  = bindR (SongGen.buildSong math (match seed with Some s => s | None => now end))
          (fun song => Ok (playSong song e)).
Proof.
  intros H. unfold start.
  destruct (currentSong e) as [song|], seed as [s|]; try reflexivity.
  destruct H as [H|H]; [discriminate | now elim H].
Qed.

End EngineFacts.

(** C9.  While a current Song exists, [start ()] without a seed resumes:
    it restores the volume, restarts the background noise and the
    transport, and builds nothing -- the current Song, the handle list and
    the timeline stay as they are.  A Song is therefore generated only when
    there is no current Song or a seed is given. *)
Theorem start_without_seed_resumes :
  forall (math : Rng.MathLib) (now : Z) (e : Engine.LofiEngine) (song : Song.Song),
    Engine.currentSong e = Some song ->
    exists e',
      Engine.start math None now e = JS.Ok e'
      /\ Engine.currentSong e' = Some song
      /\ Engine.scheduledIds e' = Engine.scheduledIds e
      /\ Engine.transport e' = Engine.transport e
      /\ Engine.currentSectionName e' = Engine.currentSectionName e
      /\ Engine.calls e'
         = Engine.calls e
           ++ [ Engine.MixerCancelVolumeScheduled;
                Engine.MixerSetVolume (Engine.p_volume (Engine.params e));
                Engine.CrackleBgStart; Engine.TransportStart ].
Proof.
  intros math now e song Hsong. unfold Engine.start. rewrite Hsong.
  eexists. split; [reflexivity|].
  cbn [Engine.call Engine.currentSong Engine.scheduledIds Engine.transport
       Engine.currentSectionName Engine.calls].
  repeat split. exact Hsong.
Qed.

Lemma start_without_seed_resumes_witness :
  exists e',
    Engine.start (Rng.mkMath (fun x => x) (fun x => x) (fun x => x)) None 0
      (Engine.playSong SchedulerSpec.twelveBars Engine.create) = JS.Ok e'
    /\ Engine.currentSong e' = Some SchedulerSpec.twelveBars
    /\ Engine.scheduledIds e'
       = Engine.scheduledIds (Engine.playSong SchedulerSpec.twelveBars Engine.create)
    /\ Engine.transport e'
       = Engine.transport (Engine.playSong SchedulerSpec.twelveBars Engine.create)
    /\ Engine.currentSectionName e'
       = Engine.currentSectionName
           (Engine.playSong SchedulerSpec.twelveBars Engine.create)
    /\ Engine.calls e'
       = Engine.calls (Engine.playSong SchedulerSpec.twelveBars Engine.create)
         ++ [ Engine.MixerCancelVolumeScheduled;
              Engine.MixerSetVolume
                (Engine.p_volume
                   (Engine.params
                      (Engine.playSong SchedulerSpec.twelveBars Engine.create)));
              Engine.CrackleBgStart; Engine.TransportStart ].
Proof.
  apply (start_without_seed_resumes
           (Rng.mkMath (fun x => x) (fun x => x) (fun x => x)) 0
           (Engine.playSong SchedulerSpec.twelveBars Engine.create)
           SchedulerSpec.twelveBars).
  reflexivity.
Defined.


(* ================================================================== *)
(** * Part III: further properties of the sources                      *)
(* ================================================================== *)

(** ** music-theory.ts *)
(** X1.  Rendering a MIDI pitch as a note name and reading the name back
    gives the pitch again, for every integer pitch, negative octaves
    included. *)
Theorem nameToMidi_midiToName :
  forall midi : Z, MusicTheory.nameToMidi (MusicTheory.midiToName midi) = midi.
Proof. exact MusicTheoryMore.nameToMidi_of_name. Qed.

(** ** Sorting numbers *)
Module SortFacts.
Import JS MusicTheory.

Lemma insertZ_perm (x : Z) (l : list Z) : Permutation (insertZ x l) (x :: l).
Proof.
  induction l as [|y r IH]; cbn [insertZ]; [reflexivity|].
  destruct (x - y <? 0); [reflexivity|].
  rewrite IH. apply perm_swap.
Qed.

Lemma sortZ_perm (l : list Z) : Permutation (sortZ l) l.
Proof.
  unfold sortZ.
  assert (G : forall acc, Permutation (fold_left (fun a x => insertZ x a) l acc)
                                      (acc ++ l)).
  { induction l as [|x r IH]; intro acc; cbn [fold_left].
    - now rewrite app_nil_r.
    - rewrite IH. apply Permutation_trans with ((x :: acc) ++ r).
      + apply Permutation_app_tail, insertZ_perm.
      + cbn [app]. apply Permutation_middle. }
  apply (G []).
Qed.

Lemma insertZ_sorted (x : Z) (l : list Z) :
  StronglySorted Z.le l -> StronglySorted Z.le (insertZ x l).
Proof.
  induction 1 as [|y r Hs IH Hy]; cbn [insertZ]; [repeat constructor|].
  destruct (Z.ltb_spec (x - y) 0).
  - constructor; [now constructor|].
    constructor; [lia|]. eapply Forall_impl; [|exact Hy]. cbn beta. intros; lia.
  - constructor; [exact IH|].
    eapply Permutation_Forall; [symmetry; apply insertZ_perm|].
    constructor; [lia | exact Hy].
Qed.

Lemma sortZ_sorted (l : list Z) : StronglySorted Z.le (sortZ l).
Proof.
  unfold sortZ.
  assert (G : forall acc, StronglySorted Z.le acc ->
            StronglySorted Z.le (fold_left (fun a x => insertZ x a) l acc)).
  { induction l as [|x r IH]; intros acc Hacc; cbn [fold_left]; [exact Hacc|].
    apply IH, insertZ_sorted, Hacc. }
  apply G. constructor.
Qed.

(** Two ascending arrangements of the same numbers coincide. *)
Lemma sorted_perm_unique (l1 l2 : list Z) :
  StronglySorted Z.le l1 -> StronglySorted Z.le l2 -> Permutation l1 l2 ->
  l1 = l2.
Proof.
  intro H1. revert l2. induction H1 as [|a r Hs IH Ha]; intros l2 H2 Hp.
  - apply Permutation_nil in Hp. now subst.
  - destruct H2 as [|b r2 Hs2 Hb].
    + apply Permutation_sym, Permutation_nil in Hp. discriminate.
    + assert (a = b).
      { assert (Hin1 : In a (b :: r2))
          by (eapply Permutation_in; [exact Hp | now left]).
        assert (Hin2 : In b (a :: r))
          by (eapply Permutation_in; [symmetry; exact Hp | now left]).
        rewrite Forall_forall in Ha, Hb.
        destruct Hin1 as [E|Hin1]; [now subst|].
        destruct Hin2 as [E|Hin2]; [now subst|].
        specialize (Ha b Hin2). specialize (Hb a Hin1). lia. }
      subst b. f_equal. apply IH; [assumption|].
      now apply Permutation_cons_inv in Hp.
Qed.

Lemma sortZ_unique (l sorted : list Z) :
  StronglySorted Z.le sorted -> Permutation sorted l -> sortZ l = sorted.
Proof.
  intros Hs Hp. apply sorted_perm_unique; [apply sortZ_sorted | exact Hs |].
  rewrite sortZ_perm. now symmetry.
Qed.

Lemma StronglySorted_app (l1 l2 : list Z) :
  StronglySorted Z.le l1 -> StronglySorted Z.le l2 ->
  (forall a b, In a l1 -> In b l2 -> a <= b) ->
  StronglySorted Z.le (l1 ++ l2).
Proof.
  intros H1 H2 H. induction H1 as [|a r Hs IH Ha]; cbn [app]; [exact H2|].
  constructor.
  - apply IH. intros x y Hx Hy. apply H; [now right | exact Hy].
  - apply Forall_app; split; [exact Ha|].
    apply Forall_forall. intros y Hy. apply H; [now left | exact Hy].
Qed.

Lemma StronglySorted_filter (p : Z -> bool) (l : list Z) :
  StronglySorted Z.le l -> StronglySorted Z.le (filter p l).
Proof.
  induction 1 as [|a r Hs IH Ha]; cbn [filter]; [constructor|].
  destruct (p a); [|exact IH].
  constructor; [exact IH|].
  rewrite Forall_forall in *. intros x Hx. apply Ha.
  now apply filter_In in Hx.
Qed.

Lemma in_firstn {A} (k : nat) (l : list A) (x : A) : In x (firstn k l) -> In x l.
Proof. intro H. rewrite <- (firstn_skipn k l). apply in_or_app. now left. Qed.

Lemma in_skipn {A} (k : nat) (l : list A) (x : A) : In x (skipn k l) -> In x l.
Proof. intro H. rewrite <- (firstn_skipn k l). apply in_or_app. now right. Qed.

Lemma StronglySorted_firstn (k : nat) (l : list Z) :
  StronglySorted Z.le l -> StronglySorted Z.le (firstn k l).
Proof.
  intro H. revert k. induction H as [|a r Hs IH Ha]; intro k;
    destruct k; cbn [firstn]; try constructor; [apply IH|].
  rewrite Forall_forall in *. intros x Hx. apply Ha.
  eapply in_firstn, Hx.
Qed.

Lemma StronglySorted_skipn (k : nat) (l : list Z) :
  StronglySorted Z.le l -> StronglySorted Z.le (skipn k l).
Proof.
  intro H. revert k. induction H as [|a r Hs IH Ha]; intro k;
    destruct k; cbn [skipn]; try constructor; auto.
Qed.

End SortFacts.

Module MusicTheoryMore2.
Import JS MusicTheory MusicTheoryRest.

Lemma chord_shape_cases (quality : string) (shape : list Z) :
  assoc CHORD_SHAPES quality = Some shape ->
  In shape (map snd CHORD_SHAPES).
Proof.
  unfold CHORD_SHAPES. cbn [assoc map snd].
  repeat (destruct (String.eqb quality _);
          [intro E; injection E as <-; cbn [In]; tauto|]).
  discriminate.
Qed.

Lemma scale_cases (scaleType : string) (scale : list Z) :
  assoc SCALES scaleType = Some scale -> In scale (map snd SCALES).
Proof.
  unfold SCALES. cbn [assoc map snd].
  repeat (destruct (String.eqb scaleType _);
          [intro E; injection E as <-; cbn [In]; tauto|]).
  discriminate.
Qed.

Lemma raiseFirst_split (k : nat) (notes : list Z) :
  raiseFirst k notes = map (fun n => n + 12) (firstn k notes) ++ skipn k notes.
Proof.
  revert notes. induction k as [|k IH]; intros [|n r];
    cbn [raiseFirst firstn skipn map app]; try reflexivity.
  now rewrite IH.
Qed.

Lemma sorted_shift (l : list Z) :
  StronglySorted Z.le l -> StronglySorted Z.le (map (fun n => n + 12) l).
Proof.
  induction 1 as [|a r Hs IH Ha]; cbn [map]; constructor; [exact IH|].
  rewrite Forall_map. eapply Forall_impl; [|exact Ha]. cbn beta. intros; lia.
Qed.

Lemma unparsed_key (c a : ascii) (rest : string) :
  is_digit a = false -> a <> "#"%char -> a <> "-"%char ->
  matchNoteName (String c (String a rest) ++ "4") = None.
Proof.
  intros Hd Hs Hm. cbn [append]. unfold matchNoteName.
  destruct (is_note_letter c); [|reflexivity].
  destruct a as [[] [] [] [] [] [] [] []];
    try (now elim Hs); try (now elim Hm);
    unfold is_octave; cbn [starts_with_digit]; rewrite Hd; reflexivity.
Qed.

Lemma degreeSemitone_range (scaleType : string) (degree : Z) :
  0 <= degreeSemitone scaleType degree <= 11.
Proof.
  rewrite MusicTheoryFacts.degreeSemitone_nth.
  pose proof (Z.mod_pos_bound (degree - 1) 7 ltac:(lia)) as Hr.
  assert (Hc : (degree - 1) mod 7 = 0 \/ (degree - 1) mod 7 = 1
               \/ (degree - 1) mod 7 = 2 \/ (degree - 1) mod 7 = 3
               \/ (degree - 1) mod 7 = 4 \/ (degree - 1) mod 7 = 5
               \/ (degree - 1) mod 7 = 6) by lia.
  unfold get.
  destruct (assoc CHORD_SCALES scaleType) as [scale|] eqn:E.
  - apply MusicTheoryFacts.chord_scale_cases in E.
    destruct E as [-> | [-> | ->]];
      repeat (destruct Hc as [-> | Hc]); try rewrite Hc;
      match goal with
      | |- context [nth ?k ?l 0] =>
          let v := eval vm_compute in (nth k l 0) in change (nth k l 0) with v
      end; lia.
  - destruct (mem scaleType objectPrototypeKeys); [lia|].
    repeat (destruct Hc as [-> | Hc]); try rewrite Hc;
      match goal with
      | |- context [nth ?k ?l 0] =>
          let v := eval vm_compute in (nth k l 0) in change (nth k l 0) with v
      end; lia.
Qed.

End MusicTheoryMore2.

(** X2.  [buildChord] fails only on a quality tag that is absent from the
    table and names a member of [Object.prototype].  Otherwise it returns a
    chord in root position: the first note is the root, the notes strictly
    ascend, there are three to five of them and none lies more than 14
    semitones above the root. *)
Theorem buildChord_root_position :
  forall (rootMidi : Z) (quality : string),
    match MusicTheory.buildChord rootMidi quality with
    | JS.Ok notes =>
        hd_error notes = Some rootMidi
        /\ StronglySorted Z.lt notes
        /\ Forall (fun n => n <= rootMidi + 14) notes
        /\ (3 <= List.length notes <= 5)%nat
    | JS.Throw _ =>
        JS.assoc MusicTheory.CHORD_SHAPES quality = None
        /\ JS.mem quality JS.objectPrototypeKeys = true
    end.
Proof.
  intros rootMidi quality.
  unfold MusicTheory.buildChord, MusicTheory.tableOr, JS.get.
  destruct (JS.assoc MusicTheory.CHORD_SHAPES quality) as [shape|] eqn:E.
  - apply MusicTheoryMore2.chord_shape_cases in E. cbn in E.
    repeat (destruct E as [<- | E]); try contradiction;
      cbn [JS.bindR map hd_error List.length];
      (split; [f_equal; lia|]);
      (split; [repeat constructor; lia|]);
      (split; [repeat constructor; lia | lia]).
  - destruct (JS.mem quality JS.objectPrototypeKeys) eqn:M.
    + cbn [JS.bindR]. split; reflexivity.
    + cbn [JS.bindR map hd_error List.length MusicTheory.CHORD_SHAPES_maj7].
      change MusicTheory.CHORD_SHAPES_maj7 with [0; 4; 7; 11]. cbn [map hd_error List.length].
      split; [f_equal; lia|].
      split; [repeat constructor; lia|].
      split; [repeat constructor; lia | lia].
Qed.

(** X3.  On a chord in close position -- ascending, spanning less than an
    octave -- the [k]-th inversion, [0 < k < length], moves the [k] lowest
    notes an octave up and leaves the others below them. *)
Theorem invertChord_rotates :
  forall (notes : list Z) (k : Z),
    StronglySorted Z.le notes ->
    (forall a b, In a notes -> In b notes -> b - a < 12) ->
    0 < k < Z.of_nat (List.length notes) ->
    MusicTheoryRest.invertChord notes k
    = skipn (Z.to_nat k) notes ++ map (fun n => n + 12) (firstn (Z.to_nat k) notes).
Proof.
  intros notes k Hs Hspan Hk.
  unfold MusicTheoryRest.invertChord, MusicTheory.MidiNote.
  destruct (Z.leb_spec k 0); [lia|]. cbn [orb].
  destruct (Z.leb_spec (Z.of_nat (List.length notes)) k); [lia|].
  rewrite MusicTheoryMore2.raiseFirst_split.
  apply SortFacts.sortZ_unique.
  - apply SortFacts.StronglySorted_app.
    + now apply SortFacts.StronglySorted_skipn.
    + now apply MusicTheoryMore2.sorted_shift, SortFacts.StronglySorted_firstn.
    + intros a b Ha Hb. apply in_map_iff in Hb. destruct Hb as [c [<- Hc]].
      apply SortFacts.in_skipn in Ha. apply SortFacts.in_firstn in Hc.
      specialize (Hspan c a Hc Ha). lia.
  - apply Permutation_app_comm.
Qed.

Lemma invertChord_rotates_witness :
  MusicTheoryRest.invertChord [60; 64; 67; 71] 1
  = skipn (Z.to_nat 1) [60; 64; 67; 71]
    ++ map (fun n => n + 12) (firstn (Z.to_nat 1) [60; 64; 67; 71]).
Proof.
  apply (invertChord_rotates [60; 64; 67; 71] 1).
  - repeat constructor; lia.
  - cbn [In]. intros a b Ha Hb. lia.
  - cbn. lia.
Defined.

(** X4.  [spreadChord] fails only on an inherited tag; otherwise its notes
    ascend and none lies below MIDI 28. *)
Theorem spreadChord_ascending_above_28 :
  forall (rootMidi : Z) (quality : string),
    match MusicTheory.spreadChord rootMidi quality with
    | JS.Ok notes => StronglySorted Z.le notes /\ Forall (fun n => 28 <= n) notes
    | JS.Throw _ =>
        JS.assoc MusicTheory.CHORD_SHAPES quality = None
        /\ JS.mem quality JS.objectPrototypeKeys = true
    end.
Proof.
  intros rootMidi quality.
  unfold MusicTheory.spreadChord, MusicTheory.tableOr, JS.get.
  assert (G : forall l, StronglySorted Z.le (filter (fun n => 28 <=? n) (MusicTheory.sortZ l))
                        /\ Forall (fun n => 28 <= n)
                                  (filter (fun n => 28 <=? n) (MusicTheory.sortZ l))).
  { intro l. split.
    - apply SortFacts.StronglySorted_filter, SortFacts.sortZ_sorted.
    - apply Forall_forall. intros n Hn. apply filter_In in Hn.
      destruct Hn as [_ Hn]. now apply Z.leb_le in Hn. }
  destruct (JS.assoc MusicTheory.CHORD_SHAPES quality) as [shape|] eqn:E.
  - cbn [JS.bindR]. apply G.
  - destruct (JS.mem quality JS.objectPrototypeKeys) eqn:M; cbn [JS.bindR].
    + split; reflexivity.
    + apply G.
Qed.

Module ScaleFacts.
Import JS MusicTheory.

Lemma scale_offsets_nonneg (scaleType : string) (scale : list Z) :
  assoc SCALES scaleType = Some scale -> Forall (fun o => 0 <= o) scale.
Proof.
  intro E. apply MusicTheoryMore2.scale_cases in E. cbn in E.
  repeat (destruct E as [<- | E]); try contradiction;
    unfold SCALE_major, SCALE_minor, SCALE_dorian; repeat constructor; lia.
Qed.

Lemma scaleOctaves_length (scale : list Z) (rootPitch oct : Z) (n : nat) :
  List.length (scaleOctaves scale rootPitch oct n) = (n * List.length scale)%nat.
Proof.
  revert oct. induction n as [|n IH]; intro oct; cbn [scaleOctaves Nat.mul];
    [reflexivity|].
  now rewrite length_app, length_map, IH.
Qed.

Lemma scaleOctaves_range (scale : list Z) (rootPitch oct : Z) (n : nat) :
  -12 < rootPitch -> Forall (fun o => 0 <= o) scale ->
  Forall (fun m => (oct + 1) * 12 <= m < (oct + Z.of_nat n + 1) * 12)
         (scaleOctaves scale rootPitch oct n).
Proof.
  intros Hr Hs. revert oct. induction n as [|n IH]; intro oct;
    cbn [scaleOctaves]; [constructor|].
  apply Forall_app; split.
  - rewrite Forall_map. eapply Forall_impl; [|exact Hs]. cbn beta.
    intros o Ho. unfold jsrem.
    pose proof (Z.rem_bound_pos (rootPitch + o + 12) 12 ltac:(lia) ltac:(lia)). lia.
  - eapply Forall_impl; [|apply IH]. cbn beta. intros m Hm. lia.
Qed.

End ScaleFacts.

(** X5.  For a scale type of the table and a non-empty octave range,
    [getScaleNotes] lists the scale once per octave: the notes ascend, there
    are (octaves x scale length) of them, and they lie between the C of
    the lowest octave and the B of the highest -- whatever the root name,
    since a negative root pitch is lifted by 12 before the remainder. *)
Theorem getScaleNotes_ascending_in_range :
  forall (rootName scaleType : string) (scale : list Z) (octaveLow octaveHigh : Z),
    JS.assoc MusicTheory.SCALES scaleType = Some scale ->
    octaveLow <= octaveHigh ->
    exists notes,
      MusicTheory.getScaleNotes rootName scaleType octaveLow octaveHigh = JS.Ok notes
      /\ StronglySorted Z.le notes
      /\ List.length notes
         = (Z.to_nat (octaveHigh - octaveLow + 1) * List.length scale)%nat
      /\ Forall (fun m => (octaveLow + 1) * 12 <= m < (octaveHigh + 2) * 12) notes.
Proof.
  intros rootName scaleType scale lo hi E Hle.
  unfold MusicTheory.getScaleNotes, JS.get. rewrite E.
  eexists. split; [reflexivity|].
  split; [apply SortFacts.sortZ_sorted|].
  split.
  - rewrite (Permutation_length (SortFacts.sortZ_perm _)).
    apply ScaleFacts.scaleOctaves_length.
  - eapply Permutation_Forall; [symmetry; apply SortFacts.sortZ_perm|].
    eapply Forall_impl;
      [|apply ScaleFacts.scaleOctaves_range;
        [|exact (ScaleFacts.scale_offsets_nonneg _ _ E)]].
    + cbn beta. intros m Hm. lia.
    + unfold JS.jsrem.
      pose proof (Z.rem_bound_abs
                    (MusicTheory.nameToMidi (rootName ++ "4")) 12 ltac:(lia)).
      lia.
Qed.

Lemma getScaleNotes_ascending_in_range_witness :
  exists notes,
    MusicTheory.getScaleNotes "D" "minPenta" 3 4 = JS.Ok notes
    /\ StronglySorted Z.le notes
    /\ List.length notes = (Z.to_nat (4 - 3 + 1) * List.length [0; 3; 5; 7; 10])%nat
    /\ Forall (fun m => (3 + 1) * 12 <= m < (4 + 2) * 12) notes.
Proof.
  apply (getScaleNotes_ascending_in_range "D" "minPenta" [0; 3; 5; 7; 10] 3 4).
  - reflexivity.
  - lia.
Defined.

(** X6.  A key name whose second character is neither a digit, ['#'] nor
    ['-'] -- the minor and flat keys of the presets, such as "Am", "Dm",
    "Bb", "Eb" -- does not match the note-name pattern, and chords and
    scales are resolved for it exactly as for the key "C". *)
Theorem unparsed_key_resolves_as_C :
  forall (c a : ascii) (rest scaleType : string) (degree : Z),
    JS.is_digit a = false -> a <> "#"%char -> a <> "-"%char ->
    let key := String c (String a rest) in
    MusicTheory.nameToMidi (key ++ "4") = 60
    /\ MusicTheory.diatonicChord key scaleType degree
       = MusicTheory.diatonicChord "C" scaleType degree
    /\ MusicTheory.buildScale key scaleType = MusicTheory.buildScale "C" scaleType.
Proof.
  intros c a rest scaleType degree Hd Hs Hm key.
  assert (E : MusicTheory.nameToMidi (key ++ "4") = 60).
  { apply MusicTheoryFacts.nameToMidi_fallback.
    now apply MusicTheoryMore2.unparsed_key. }
  split; [exact E|].
  unfold MusicTheory.diatonicChord, MusicTheory.buildScale. rewrite E.
  split; reflexivity.
Qed.

Lemma unparsed_key_resolves_as_C_witness :
  let key := "Am" in
  MusicTheory.nameToMidi (key ++ "4") = 60
  /\ MusicTheory.diatonicChord key "minor" 1 = MusicTheory.diatonicChord "C" "minor" 1
  /\ MusicTheory.buildScale key "minor" = MusicTheory.buildScale "C" "minor".
Proof.
  apply (unparsed_key_resolves_as_C "A" "m" "" "minor" 1).
  - reflexivity.
  - discriminate.
  - discriminate.
Defined.

(** X7.  Scale degrees wrap modulo 7, zero and negative degrees included:
    [diatonicChord] at [degree + 7] is the chord at [degree], and its root
    lies between the key's root and eleven semitones above it. *)
Theorem diatonicChord_wraps :
  forall (key scaleType : string) (degree : Z),
    MusicTheory.diatonicChord key scaleType (degree + 7)
    = MusicTheory.diatonicChord key scaleType degree
    /\ 0 <= MusicTheory.root (MusicTheory.diatonicChord key scaleType degree)
            - MusicTheory.nameToMidi (key ++ "4") <= 11.
Proof.
  intros key scaleType degree. split.
  - unfold MusicTheory.diatonicChord.
    rewrite !MusicTheoryFacts.jsrem_norm7, !MusicTheoryFacts.degreeSemitone_nth.
    replace (degree + 7 - 1) with (degree - 1 + 1 * 7) by lia.
    now rewrite Z.mod_add by lia.
  - unfold MusicTheory.diatonicChord. cbn [MusicTheory.root].
    pose proof (MusicTheoryMore2.degreeSemitone_range scaleType degree). lia.
Qed.

(** ** song-scheduler.ts, continued *)
Module SchedulerMore.
Import JS Song Scheduler SchedulerSpec SchedulerViews.

Lemma parse_timeString (b q x : Z) : parse (timeString b q x) = 16 * b + 4 * q + x.
Proof.
  rewrite SchedulerFacts.parse_decode, SchedulerFacts.decode_timeString. reflexivity.
Qed.

Lemma flat_map_filter_skip {A} (key : A -> string) (a : A) (l : list A)
  (ks : list string) :
  ~ In (key a) ks ->
  flat_map (fun k => filter (fun e => String.eqb (key e) k) (a :: l)) ks
  = flat_map (fun k => filter (fun e => String.eqb (key e) k) l) ks.
Proof.
  induction ks as [|k ks IH]; intro Hn; [reflexivity|].
  cbn [flat_map]. rewrite IH by (intro H; apply Hn; now right).
  f_equal. cbn [filter].
  destruct (String.eqb_spec (key a) k) as [E|E]; [|reflexivity].
  elim Hn. now left.
Qed.

Lemma flat_map_filter_cons {A} (key : A -> string) (a : A) (l : list A)
  (ks : list string) :
  NoDup ks -> In (key a) ks ->
  Permutation
    (flat_map (fun k => filter (fun e => String.eqb (key e) k) (a :: l)) ks)
    (a :: flat_map (fun k => filter (fun e => String.eqb (key e) k) l) ks).
Proof.
  induction ks as [|k ks IH]; intros Hnd Hin; [contradiction|].
  inversion Hnd as [|? ? Hk Hnd']; subst.
  cbn [flat_map].
  destruct (String.eqb_spec (key a) k) as [E|E].
  - subst k. rewrite flat_map_filter_skip by assumption.
    cbn [filter]. rewrite String.eqb_refl. reflexivity.
  - destruct Hin as [Hin|Hin]; [now elim E|].
    replace (filter (fun e => String.eqb (key e) k) (a :: l))
      with (filter (fun e => String.eqb (key e) k) l)
      by (cbn [filter]; destruct (String.eqb_spec (key a) k); [contradiction|reflexivity]).
    etransitivity.
    + apply Permutation_app_head. apply IH; assumption.
    + symmetry. apply Permutation_middle.
Qed.

(** Grouping a list by a duplicate-free list of keys that covers it loses
    and repeats nothing. *)
Lemma partition_by_key {A} (key : A -> string) (l : list A) (ks : list string) :
  NoDup ks -> Forall (fun e => In (key e) ks) l ->
  Permutation (flat_map (fun k => filter (fun e => String.eqb (key e) k) l) ks) l.
Proof.
  intros Hnd. induction l as [|a l IH]; intro Hall.
  - induction ks as [|k ks IHk]; [reflexivity|].
    inversion Hnd; subst. cbn. now apply IHk.
  - inversion Hall; subst.
    etransitivity; [apply flat_map_filter_cons; assumption|].
    constructor. now apply IH.
Qed.

Lemma held_eventRegs_instrument m times start :
  heldInstrumentEvents (eventRegs m times start)
  = flat_map (fun t => fst (entryAt m t)) times.
Proof.
  revert start. induction times as [|t ts IH]; intro start; [reflexivity|].
  cbn [eventRegs]. unfold heldInstrumentEvents in *. cbn [flat_map Transport.rcb].
  now rewrite IH.
Qed.

Lemma held_eventRegs_drum m times start :
  heldDrumEvents (eventRegs m times start)
  = flat_map (fun t => snd (entryAt m t)) times.
Proof.
  revert start. induction times as [|t ts IH]; intro start; [reflexivity|].
  cbn [eventRegs]. unfold heldDrumEvents in *. cbn [flat_map Transport.rcb].
  now rewrite IH.
Qed.

Lemma held_registrations_instrument song options start :
  heldInstrumentEvents (registrations song options start)
  = flat_map (fun t => fst (entryAt (collect song) t)) (sortedTimes (collect song)).
Proof.
  unfold registrations, heldInstrumentEvents.
  rewrite !flat_map_app.
  fold (heldInstrumentEvents
          (eventRegs (collect song) (sortedTimes (collect song)) start)).
  rewrite held_eventRegs_instrument.
  destruct (onBar options), (onSongEnd options); cbn; now rewrite app_nil_r.
Qed.

Lemma held_registrations_drum song options start :
  heldDrumEvents (registrations song options start)
  = flat_map (fun t => snd (entryAt (collect song) t)) (sortedTimes (collect song)).
Proof.
  unfold registrations, heldDrumEvents.
  rewrite !flat_map_app.
  fold (heldDrumEvents
          (eventRegs (collect song) (sortedTimes (collect song)) start)).
  rewrite held_eventRegs_drum.
  destruct (onBar options), (onSongEnd options); cbn; now rewrite app_nil_r.
Qed.

Lemma eventRegs_holdsOwnTime song times start :
  Forall holdsOwnTime (eventRegs (collect song) times start).
Proof.
  revert start. induction times as [|t ts IH]; intro start; cbn [eventRegs];
    constructor; [|apply IH].
  unfold holdsOwnTime. cbn [Transport.rwhen Transport.rcb].
  rewrite SchedulerFacts.collect_entry. cbn [fst snd].
  split; apply Forall_forall; intros e He; apply filter_In in He;
    destruct He as [_ He]; now apply String.eqb_eq in He.
Qed.

Lemma scanSections_at_most_one (l : list SongSection) (bar acc : Z) :
  (List.length (scanSections l bar acc) <= 1)%nat.
Proof.
  revert acc. induction l as [|s l IH]; intro acc; cbn [scanSections];
    [cbn; lia|].
  destruct ((acc <=? bar) && (bar <? acc + bars s)); [cbn; lia | apply IH].
Qed.

End SchedulerMore.

(** X8.  On positions written as [bar:beat:sixteenth] with beat and
    sixteenth in 0..3 -- the form in which the generator writes every event
    time -- [compareTransportTime] is negative exactly when the first
    position is the earlier one field by field, and zero only for equal
    positions; its value is the distance in sixteenths. *)
Theorem compareTransportTime_orders_positions :
  forall b1 q1 x1 b2 q2 x2 : Z,
    0 <= q1 < 4 -> 0 <= x1 < 4 -> 0 <= q2 < 4 -> 0 <= x2 < 4 ->
    let c := Scheduler.compareTransportTime (Song.timeString b1 q1 x1)
                                            (Song.timeString b2 q2 x2) in
    c = 16 * (b1 - b2) + 4 * (q1 - q2) + (x1 - x2)
    /\ (c < 0 <-> SchedulerViews.lexLt (b1, q1, x1) (b2, q2, x2))
    /\ (c = 0 <-> (b1, q1, x1) = (b2, q2, x2)).
Proof.
  intros b1 q1 x1 b2 q2 x2 Hq1 Hx1 Hq2 Hx2 c. subst c.
  unfold Scheduler.compareTransportTime, SchedulerViews.lexLt.
  rewrite !SchedulerMore.parse_timeString.
  split; [lia|]. split.
  - lia.
  - split; intro H.
    + assert (b1 = b2 /\ q1 = q2 /\ x1 = x2) as (-> & -> & ->) by lia. reflexivity.
    + injection H as -> -> ->. lia.
Qed.

Lemma compareTransportTime_orders_positions_witness :
  let c := Scheduler.compareTransportTime (Song.timeString 2 3 2)
                                          (Song.timeString 10 0 0) in
  c = 16 * (2 - 10) + 4 * (3 - 0) + (2 - 0)
  /\ (c < 0 <-> SchedulerViews.lexLt (2, 3, 2) (10, 0, 0))
  /\ (c = 0 <-> (2, 3, 2) = (10, 0, 0)).
Proof.
  apply (compareTransportTime_orders_positions 2 3 2 10 0 0); lia.
Defined.

(** X9.  [schedule] hands every event of the Song to exactly one of the
    callbacks it registers: the instrument events held by the callbacks are
    a rearrangement of the Song's instrument events, likewise the drum
    events, and each callback holds only events whose time is the time it is
    registered for.  Nothing is dropped or played twice, whatever the event
    times are. *)
Theorem schedule_partitions_events :
  forall (song : Song.Song) (options : Scheduler.SongSchedulerOptions)
         (tr : Scheduler.T),
    let regs := SchedulerSpec.added tr (snd (Scheduler.schedule song options tr)) in
    Permutation (SchedulerViews.heldInstrumentEvents regs)
                (SchedulerSpec.allInstrumentEvents song)
    /\ Permutation (SchedulerViews.heldDrumEvents regs)
                   (SchedulerSpec.allDrumEvents song)
    /\ Forall SchedulerViews.holdsOwnTime regs.
Proof.
  intros song options tr regs. subst regs.
  rewrite SchedulerFacts.added_schedule.
  assert (Hcover : forall t,
             In t (map Song.time (SchedulerSpec.allInstrumentEvents song)
                   ++ map Song.dtime (SchedulerSpec.allDrumEvents song)) ->
             In t (Scheduler.sortedTimes (Scheduler.collect song))).
  { intros t Ht. apply SchedulerFacts.sortedTimes_iff.
    now apply SchedulerFacts.eventTimes_iff. }
  split; [|split].
  - rewrite SchedulerMore.held_registrations_instrument.
    erewrite flat_map_ext;
      [|intro t; rewrite SchedulerFacts.collect_entry; reflexivity].
    cbn [fst].
    apply (SchedulerMore.partition_by_key Song.time);
      [apply SchedulerFacts.sortedTimes_NoDup|].
    apply Forall_forall. intros e He. apply Hcover, in_or_app. left.
    now apply in_map.
  - rewrite SchedulerMore.held_registrations_drum.
    erewrite flat_map_ext;
      [|intro t; rewrite SchedulerFacts.collect_entry; reflexivity].
    cbn [snd].
    apply (SchedulerMore.partition_by_key Song.dtime);
      [apply SchedulerFacts.sortedTimes_NoDup|].
    apply Forall_forall. intros e He. apply Hcover, in_or_app. right.
    now apply in_map.
  - unfold SchedulerSpec.registrations.
    apply Forall_app; split; [apply SchedulerMore.eventRegs_holdsOwnTime|].
    destruct (Scheduler.onBar options), (Scheduler.onSongEnd options);
      repeat constructor.
Qed.

(** X10.  A time-position callback makes exactly one
    [triggerAttackRelease] call per event it holds: every instrument id has
    a synth, so the guard [if (synth)] never skips a note. *)
Theorem dispatch_one_trigger_per_event :
  forall (instrument : list Song.InstrumentNoteEvent) (drum : list Song.DrumEvent)
         (t : float),
    List.length (Scheduler.dispatch instrument drum t)
    = (List.length instrument + List.length drum)%nat
    /\ Forall (fun a => match a with
                        | Scheduler.Trigger _ _ _ at_ _ => at_ = t
                        | _ => False
                        end) (Scheduler.dispatch instrument drum t).
Proof.
  intros instrument drum t.
  rewrite SchedulerFacts.dispatch_eq. split.
  - rewrite !length_app, !length_map.
    rewrite <- (filter_length Scheduler.isPad instrument). lia.
  - repeat (apply Forall_app; split); rewrite Forall_map; apply Forall_forall;
      intros e _; try reflexivity.
    unfold SchedulerSpec.drumTrigger. destruct (Song.dinstrument e); reflexivity.
Qed.

(** X11.  The per-bar callback calls the [onBar] hook at most once per
    firing, and not at all when the bar it computes lies before bar 0 or at
    or beyond the end of the last section, or when the callback time or the
    tempo is not a finite number. *)
Theorem barUpdate_silent_outside_song :
  forall (song : Song.Song) (bpm time : float),
    Forall (fun x => 0 <= Song.bars x) (Song.sections song) ->
    (List.length (Scheduler.barUpdate song bpm time) <= 1)%nat
    /\ match Scheduler.barOf bpm time with
       | Some bar =>
           bar < 0 \/ SchedulerSpec.sumBars (Song.sections song) <= bar ->
           Scheduler.barUpdate song bpm time = []
       | None => Scheduler.barUpdate song bpm time = []
       end.
Proof.
  intros song bpm time Hbars. unfold Scheduler.barUpdate.
  destruct (Scheduler.barOf bpm time) as [bar|].
  - split; [apply SchedulerMore.scanSections_at_most_one|].
    intro Hout. apply SchedulerFacts.scanSections_outside; [assumption | lia].
  - split; [cbn; lia | reflexivity].
Qed.

Lemma barUpdate_silent_outside_song_witness :
  (List.length (Scheduler.barUpdate (SchedulerSpec.verseOnly 2) 60 8) <= 1)%nat
  /\ match Scheduler.barOf 60 8 with
     | Some bar =>
         bar < 0
         \/ SchedulerSpec.sumBars (Song.sections (SchedulerSpec.verseOnly 2)) <= bar ->
         Scheduler.barUpdate (SchedulerSpec.verseOnly 2) 60 8 = []
     | None => Scheduler.barUpdate (SchedulerSpec.verseOnly 2) 60 8 = []
     end.
Proof.
  apply (barUpdate_silent_outside_song (SchedulerSpec.verseOnly 2) 60 8).
  repeat constructor. cbn. lia.
Defined.

(** ** rng.ts *)
Module RngFacts.
Import JS Rng RngViews.

Lemma toUint32_toInt32 (x : Z) : toUint32 (toInt32 x) = toUint32 x.
Proof.
  unfold toInt32, toUint32.
  destruct (x mod 4294967296 <? 2147483648).
  - apply Z.mod_mod. lia.
  - replace (x mod 4294967296 - 4294967296)
      with (x mod 4294967296 + (-1) * 4294967296) by lia.
    rewrite Z.mod_add by lia. apply Z.mod_mod. lia.
Qed.

Lemma toInt32_of_toUint32 (a b : Z) : toUint32 a = toUint32 b -> toInt32 a = toInt32 b.
Proof. unfold toInt32. now intros ->. Qed.

Lemma toUint32_add (a b c : Z) :
  toUint32 a = toUint32 b -> toUint32 (a + c) = toUint32 (b + c).
Proof.
  unfold toUint32. intro H.
  rewrite (Z.add_mod a c), (Z.add_mod b c) by lia. now rewrite H.
Qed.

(** The output of a draw depends on the 32-bit value of the state only,
    and so does the 32-bit value of the next state. *)
Lemma step_congr (s1 s2 : Z) :
  toUint32 s1 = toUint32 s2 ->
  snd (step s1) = snd (step s2)
  /\ toUint32 (fst (step s1)) = toUint32 (fst (step s2)).
Proof.
  intro H. unfold step. cbn [fst snd].
  pose proof (toUint32_add s1 s2 0x6d2b79f5 H) as Hu.
  pose proof (toInt32_of_toUint32 _ _ Hu) as Hi.
  split; [|exact Hu].
  unfold xor32, or32, ushr. now rewrite Hu, Hi.
Qed.

Lemma next_congr (r1 r2 : Rng) :
  toUint32 (state r1) = toUint32 (state r2) ->
  exists x r1' r2',
    next r1 = Ok (x, r1') /\ next r2 = Ok (x, r2')
    /\ toUint32 (state r1') = toUint32 (state r2')
    /\ state r1' = state r1 + increment.
Proof.
  intro H. destruct (step_congr _ _ H) as [Ho Hs].
  unfold next.
  destruct (step (state r1)) as [st1 u1] eqn:E1.
  destruct (step (state r2)) as [st2 u2] eqn:E2.
  cbn [fst snd] in Ho, Hs. subst u2.
  do 3 eexists. repeat split; [exact Hs|].
  cbn [state]. unfold step in E1. now injection E1 as <- _.
Qed.

Lemma draws_congr (n : nat) :
  forall r1 r2,
    toUint32 (state r1) = toUint32 (state r2) ->
    exists xs r1' r2',
      draws n r1 = Ok (xs, r1') /\ draws n r2 = Ok (xs, r2')
      /\ List.length xs = n
      /\ state r1' = state r1 + Z.of_nat n * increment.
Proof.
  induction n as [|n IH]; intros r1 r2 H.
  - exists [], r1, r2. repeat split. cbn. lia.
  - destruct (next_congr r1 r2 H) as (x & a1 & a2 & E1 & E2 & Hc & Hst).
    destruct (IH a1 a2 Hc) as (xs & b1 & b2 & F1 & F2 & Hl & Hst').
    exists (x :: xs), b1, b2.
    cbn [draws]. unfold bind. rewrite E1, E2, F1, F2.
    repeat split; [cbn; now rewrite Hl|]. rewrite Hst', Hst. lia.
Qed.

Lemma weightedLoop_some {A} (items : list A) (weights : list float) (r : float)
  (last : option A) :
  (items <> [] \/ last <> None) ->
  exists a, weightedLoop items weights r last = Some a
            /\ (In a items \/ last = Some a).
Proof.
  revert weights r last. induction items as [|it items IH]; intros weights r last H.
  - destruct last as [a|]; [exists a; split; [reflexivity | now right]|].
    destruct H as [H|H]; now elim H.
  - cbn [weightedLoop].
    destruct (PrimFloat.leb (r - hd PrimFloat.nan weights) 0).
    + exists it. split; [reflexivity | left; now left].
    + destruct (IH (tl weights) (r - hd PrimFloat.nan weights)%float (Some it))
        as (a & E & Ha); [right; discriminate|].
      exists a. split; [exact E|]. left.
      destruct Ha as [Ha|Ha]; [now right | left; now injection Ha].
Qed.

Lemma next_state (r : Rng) :
  exists x, next r = Ok (x, mkRng (state r + increment)).
Proof. unfold next, step. eexists. reflexivity. Qed.

Lemma bind_ok {A B} (c : Gen A) (k : A -> Gen B) (r : Rng) (b : B) (r' : Rng) :
  bind c k r = Ok (b, r') ->
  exists a r1, c r = Ok (a, r1) /\ k a r1 = Ok (b, r').
Proof.
  unfold bind. destruct (c r) as [[a r1]|m]; intro H; [|discriminate].
  now exists a, r1.
Qed.

Lemma ret_ok {A} (a b : A) (r r' : Rng) : ret a r = Ok (b, r') -> b = a /\ r' = r.
Proof. unfold ret. intro H. now injection H as <- <-. Qed.

Lemma liftR_ok {A} (x : Result A) (r r' : Rng) (a : A) :
  liftR x r = Ok (a, r') -> x = Ok a /\ r' = r.
Proof. unfold liftR. destruct x; intro H; [now injection H as <- <- | discriminate]. Qed.

Lemma forked_ok {A} (c : Gen A) (r r' : Rng) (a : A) :
  forked c r = Ok (a, r') -> r' = r /\ exists r1, c (fork r) = Ok (a, r1).
Proof.
  unfold forked. destruct (c (fork r)) as [[a0 r0]|m]; intro H; [|discriminate].
  injection H as <- <-. split; [reflexivity | now exists r0].
Qed.

Lemma index_ok {A} (arr : list A) (i : Z) (r r' : Rng) (a : A) :
  index arr i r = Ok (a, r') ->
  r' = r /\ 0 <= i /\ nth_error arr (Z.to_nat i) = Some a.
Proof.
  unfold index. destruct (Z.ltb_spec i 0) as [Hi|Hi]; [discriminate|].
  destruct (nth_error arr (Z.to_nat i)) as [x|] eqn:E; [|discriminate].
  intro H. apply ret_ok in H. destruct H as [-> ->]. repeat split. lia.
Qed.

Lemma pick_ok {A} (arr : list A) (r r' : Rng) (a : A) :
  pick arr r = Ok (a, r') -> In a arr.
Proof.
  unfold pick. intro H. apply bind_ok in H. destruct H as (i & r1 & _ & H).
  apply index_ok in H. destruct H as (_ & _ & H). eapply nth_error_In, H.
Qed.

Lemma weightedPick_ok {A} (items : list A) (weights : list float) (r r' : Rng)
  (a : A) :
  weightedPick items weights r = Ok (a, r') -> In a items.
Proof.
  unfold weightedPick. intro H. apply bind_ok in H.
  destruct H as (x & r1 & _ & H).
  destruct (weightedLoop items weights _ None) as [b|] eqn:E; [|discriminate].
  apply ret_ok in H. destruct H as [-> _].
  destruct items as [|it items]; [discriminate|].
  destruct (weightedLoop_some (it :: items) weights
              (x * fold_left PrimFloat.add weights 0)%float None)
    as (c & Ec & Hc); [left; discriminate|].
  rewrite E in Ec. injection Ec as ->.
  destruct Hc as [Hc|Hc]; [exact Hc | discriminate].
Qed.

(** The monadic fold keeps an invariant that is told which elements have
    been visited. *)
Lemma foldM_prefix {A S} (I : list A -> S -> Prop) (f : S -> A -> Gen S) :
  (forall pre a s r s' r',
      I pre s -> f s a r = Ok (s', r') -> I (pre ++ [a]) s') ->
  forall l pre s r s' r',
    I pre s -> foldM f l s r = Ok (s', r') -> I (pre ++ l) s'.
Proof.
  intros Hstep. induction l as [|a l IH]; intros pre s r s' r' HI H.
  - apply ret_ok in H. destruct H as [-> _]. now rewrite app_nil_r.
  - cbn [foldM] in H. apply bind_ok in H. destruct H as (s1 & r1 & Hf & H).
    replace (pre ++ a :: l) with ((pre ++ [a]) ++ l)
      by (now rewrite <- app_assoc).
    eapply IH; [|exact H]. eapply Hstep; eassumption.
Qed.

Lemma foldM_inv {A S} (I : S -> Prop) (f : S -> A -> Gen S) :
  (forall a s r s' r', I s -> f s a r = Ok (s', r') -> I s') ->
  forall l s r s' r', I s -> foldM f l s r = Ok (s', r') -> I s'.
Proof.
  intros Hstep l s r s' r' HI H.
  apply (foldM_prefix (fun _ => I) f (fun pre a => Hstep a) l [] s r s' r' HI H).
Qed.

Lemma foldM_ext {A S} (f g : S -> A -> Gen S) :
  (forall s a r, f s a r = g s a r) ->
  forall l s r, foldM f l s r = foldM g l s r.
Proof.
  intros H. induction l as [|a l IH]; intros s r; [reflexivity|].
  cbn [foldM]. unfold bind. rewrite H.
  destruct (g s a r) as [[s1 r1]|m]; [apply IH | reflexivity].
Qed.

End RngFacts.

(** X12.  A forked generator replays its parent: the values that [n] calls
    of [next ()] return on [rng.fork ()] are the values the same calls would
    return on [rng] itself, for every [n] and every state, although the
    fork starts from [state | 0] while the parent's state grows without
    wrapping.  Each call adds 0x6d2b79f5 to the state (an exact addition in
    JavaScript as long as the state stays below 2^53). *)
Theorem fork_replays_parent :
  forall (n : nat) (r : Rng.Rng),
    exists (xs : list float) (parent' child' : Rng.Rng),
      RngViews.draws n r = JS.Ok (xs, parent')
      /\ RngViews.draws n (Rng.fork r) = JS.Ok (xs, child')
      /\ List.length xs = n
      /\ Rng.state parent' = Rng.state r + Z.of_nat n * 0x6d2b79f5.
Proof.
  intros n r.
  apply (RngFacts.draws_congr n r (Rng.fork r)).
  unfold Rng.fork, Rng.new. cbn [Rng.state].
  symmetry. apply RngFacts.toUint32_toInt32.
Qed.

(** X13.  [weightedPick] on a non-empty array always returns one of its
    items after exactly one draw -- also when the weights are fewer than the
    items, negative, or not numbers. *)
Theorem weightedPick_returns_an_item :
  forall (A : Type) (items : list A) (weights : list float) (r : Rng.Rng),
    items <> [] ->
    exists a : A,
      Rng.weightedPick items weights r
      = JS.Ok (a, Rng.mkRng (Rng.state r + 0x6d2b79f5))
      /\ In a items.
Proof.
  intros A items weights r Hne.
  unfold Rng.weightedPick, Rng.bind.
  destruct (RngFacts.next_state r) as (x & ->).
  destruct (RngFacts.weightedLoop_some items weights
              (x * fold_left PrimFloat.add weights 0)%float None)
    as (a & E & Ha); [now left|].
  rewrite E. exists a. split; [reflexivity|].
  destruct Ha as [Ha|Ha]; [exact Ha | discriminate].
Qed.

Lemma weightedPick_returns_an_item_witness :
  exists a : string,
    Rng.weightedPick ["8n"; "4n"; "2n"] [70; 25]%float (Rng.new 1)
    = JS.Ok (a, Rng.mkRng (Rng.state (Rng.new 1) + 0x6d2b79f5))
    /\ In a ["8n"; "4n"; "2n"].
Proof.
  apply (weightedPick_returns_an_item string ["8n"; "4n"; "2n"] [70; 25]%float
           (Rng.new 1)).
  discriminate.
Defined.

(** ** song.ts: the builder *)
Module BuildFacts.
Import JS Rng Presets Song SongGen SchedulerSpec SongViews RngFacts.

Lemma sumBars_snoc (l : list SongSection) (s : SongSection) :
  sumBars (l ++ [s]) = sumBars l + bars s.
Proof.
  unfold sumBars. induction l as [|a l IH]; cbn [app fold_right] in *; lia.
Qed.

Lemma runningStarts_snoc (l : list SongSection) (s : SongSection) (acc : Z) :
  runningStarts acc (l ++ [s]) = runningStarts acc l ++ [acc + sumBars l].
Proof.
  revert acc. induction l as [|a l IH]; intro acc; cbn [runningStarts app].
  - cbn. f_equal. lia.
  - rewrite IH.
    replace (acc + sumBars (a :: l)) with (acc + bars a + sumBars l);
      [reflexivity | unfold sumBars; cbn [fold_right]; lia].
Qed.

Ltac bind_inv H :=
  let a := fresh "a" in
  let r := fresh "r" in
  let E := fresh "E" in
  apply bind_ok in H; destruct H as (a & r & E & H).

Section WithMath.
Variable math : MathLib.

Lemma buildSection_ok key progression preset motif scale name sectionBars startBar
  r s r' :
  buildSection math key progression preset motif scale name sectionBars startBar r
  = Ok (s, r') ->
  exists all drums,
    s = mkSection name startBar sectionBars all drums
          (sectionPadVolume (mkSection name startBar sectionBars all drums 0)).
Proof.
  unfold buildSection. intro H.
  repeat bind_inv H.
  apply ret_ok in H. destruct H as [-> _]. now eexists _, _.
Qed.

Lemma sections_loop (P : SongSection -> Prop) key progression preset motif scale :
  (forall name sectionBars startBar r s r',
      buildSection math key progression preset motif scale name sectionBars
        startBar r = Ok (s, r') -> P s) ->
  forall structure r sections startBar r',
    foldM (fun '(sections, startBar) '(name, sectionBars) =>
             bind (buildSection math key progression preset motif scale
                     name sectionBars startBar)
                  (fun section =>
                     ret (sections ++ [section], startBar + sectionBars)))
          structure ([], 0) r = Ok ((sections, startBar), r') ->
    loopInv P structure (sections, startBar).
Proof.
  intros HP structure r sections startBar r' H.
  apply (foldM_prefix (loopInv P) _) with (pre := []) in H.
  - exact H.
  - clear H. intros pre [name sectionBars] [secs sb] r0 s' r0' (Hn & Hs & Hr & Hp & HP') H.
    cbn [fst snd] in *. bind_inv H.
    apply ret_ok in H. destruct H as [-> _].
    pose proof (HP _ _ _ _ _ _ E) as Hsec.
    apply buildSection_ok in E. destruct E as (all & drums & ->).
    unfold loopInv. cbn [fst snd].
    rewrite !map_app, sumBars_snoc, runningStarts_snoc. cbn [map Song.bars Song.startBar].
    repeat split.
    + now rewrite Hn.
    + lia.
    + rewrite Hr. do 2 f_equal. lia.
    + apply Forall_app. split; [exact Hp|]. constructor; [reflexivity|constructor].
    + apply Forall_app. split; [exact HP'|]. constructor; [exact Hsec|constructor].
  - repeat split; constructor.
Qed.

Lemma orElse_ok {A} (o : option A) (g : Gen A) r a r' :
  orElse o g r = Ok (a, r') ->
  match o with
  | Some x => a = x
  | None => g r = Ok (a, r')
  end.
Proof.
  destruct o as [x|]; cbn [orElse]; intro H; [|exact H].
  now apply ret_ok in H.
Qed.

Lemma structure_names names r acc r' :
  foldM (fun (acc : list (SectionName * Z)) name =>
           let '(minBars, maxBars) := SECTION_BARS name in
           bind (int minBars maxBars) (fun n => ret (acc ++ [(name, n)])))
        names [] r = Ok (acc, r') ->
  map fst acc = names.
Proof.
  intro H.
  apply (foldM_prefix (fun pre acc => map fst acc = pre) _) with (pre := []) in H;
    [exact H | | reflexivity].
  clear. intros pre name acc r acc' r' Hacc H.
  destruct (SECTION_BARS name) as [lo hi]. bind_inv H.
  apply ret_ok in H. destruct H as [-> _].
  rewrite map_app, Hacc. reflexivity.
Qed.

(** Everything the builder fixes about the Song it returns. *)
Lemma buildGen_ok (P : SongSection -> Prop) (b : SongBuilder) r song r' :
  (forall key progression preset motif scale name sectionBars startBar r s r',
      buildSection math key progression preset motif scale name sectionBars
        startBar r = Ok (s, r') -> P s) ->
  buildGen math b r = Ok (song, r') ->
  seed song = b_seed b
  /\ match _preset b with
     | Some p => preset song = p
     | None => In (preset song) PRESETS
     end
  /\ match _key b with
     | Some k => key song = k
     | None => In (key song) (keys (preset song))
     end
  /\ match _structure b with
     | Some st => map nameAndBars (sections song) = st
     | None => In (map name (sections song)) SECTION_STRUCTURES
     end
  /\ swing song = Presets.swing (preset song)
  /\ totalBars song = sumBars (sections song)
  /\ map startBar (sections song) = runningStarts 0 (sections song)
  /\ Forall (fun s => padVolume s = sectionPadVolume s) (sections song)
  /\ Forall P (sections song).
Proof.
  intros HP H. unfold buildGen in H.
  bind_inv H. rename a into preset0, E into Epreset.
  bind_inv H. rename a into key0, E into Ekey.
  bind_inv H. rename a into tempo0.
  bind_inv H. rename a into scale0.
  bind_inv H. rename a into structure0.
  match goal with
  | Hl : orElse (_structure b) _ _ = _ |- _ => rename Hl into Estructure
  end.
  bind_inv H. rename a into progression0.
  bind_inv H. rename a into motif0.
  bind_inv H. destruct a as [sections0 startBar0].
  match goal with
  | Hl : foldM _ structure0 _ _ = _ |- _ => rename Hl into Eloop
  end.
  bind_inv H. apply ret_ok in H. destruct H as [-> _].
  cbn [seed Song.preset key swing totalBars sections].
  apply sections_loop with (P := P) in Eloop; [|apply HP].
  destruct Eloop as (Hn & Hs & Hr & Hp & HP'). cbn [fst snd] in *.
  apply orElse_ok in Epreset, Ekey, Estructure.
  repeat split; try assumption.
  - destruct (_preset b); [assumption | eapply pick_ok, Epreset].
  - destruct (_key b); [assumption | eapply pick_ok, Ekey].
  - destruct (_structure b) as [st|]; [now subst|].
    bind_inv Estructure. apply structure_names in Estructure.
    match goal with
    | Hpick : pick SECTION_STRUCTURES _ = _ |- _ => apply pick_ok in Hpick
    end.
    replace (map name sections0) with (map fst (map nameAndBars sections0))
      by (rewrite map_map; reflexivity).
    now rewrite Hn, Estructure.
Qed.

End WithMath.
End BuildFacts.

(** X14.  Bar accounting of [build], with or without overrides: the
    Song's [totalBars] is the sum of its sections' lengths, every section
    starts at the sum of the lengths before it (the first at bar 0), the
    pad volume of a section is the one of its name, and a structure given
    to the builder is reproduced name by name and length by length. *)
Theorem build_bar_accounting :
  forall (math : Rng.MathLib) (b : SongGen.SongBuilder),
    match SongGen.build math b with
    | JS.Ok (song, _) =>
        Song.totalBars song = SchedulerSpec.sumBars (Song.sections song)
        /\ map Song.startBar (Song.sections song)
           = SongViews.runningStarts 0 (Song.sections song)
        /\ Forall (fun s => Song.padVolume s = SongGen.sectionPadVolume s)
                  (Song.sections song)
        /\ match SongGen._structure b with
           | Some st => map SongViews.nameAndBars (Song.sections song) = st
           | None => True
           end
    | JS.Throw _ => True
    end.
Proof.
  intros math b. unfold SongGen.build.
  destruct (SongGen.buildGen math b (SongGen.b_rng b)) as [[song r']|m] eqn:E;
    [|exact I].
  apply (BuildFacts.buildGen_ok math (fun _ => True)) in E; [|intros; exact I].
  destruct E as (_ & _ & _ & Hst & _ & Ht & Hr & Hp & _).
  repeat split; try assumption.
  destruct (SongGen._structure b); [assumption | exact I].
Qed.

(** X15.  Where a Song built from a seed takes its parts from: its seed
    field is the seed given, its preset is one of [PRESETS], its key is one
    of that preset's keys, its swing is the preset's, and the names of its
    sections, in order, are one of the four [SECTION_STRUCTURES]. *)
Theorem buildSong_provenance :
  forall (math : Rng.MathLib) (seed : Z),
    match SongGen.buildSong math seed with
    | JS.Ok song =>
        Song.seed song = seed
        /\ In (Song.preset song) Presets.PRESETS
        /\ In (Song.key song) (Presets.keys (Song.preset song))
        /\ Song.swing song = Presets.swing (Song.preset song)
        /\ In (map Song.name (Song.sections song)) SongGen.SECTION_STRUCTURES
    | JS.Throw _ => True
    end.
Proof.
  intros math seed0. unfold SongGen.buildSong, SongGen.build.
  destruct (SongGen.buildGen math (SongGen.fromSeed seed0)
              (SongGen.b_rng (SongGen.fromSeed seed0))) as [[song r']|m] eqn:E;
    [|exact I].
  apply (BuildFacts.buildGen_ok math (fun _ => True)) in E; [|intros; exact I].
  unfold SongGen.fromSeed in E.
  cbn [SongGen.b_seed SongGen._preset SongGen._key SongGen._structure] in E.
  destruct E as (Hs & Hp & Hk & Hst & Hsw & _). repeat split; assumption.
Qed.

(** ** song.ts: motifs *)
Module MotifFacts.
Import JS Rng Presets Song SongGen RngFacts.

Lemma foldM_push_length {A B} (g : list B -> A -> Gen B) (l : list A)
  (init : list B) r out r' :
  foldM (fun acc a => bind (g acc a) (fun b => ret (acc ++ [b]))) l init r
  = Ok (out, r') ->
  List.length out = (List.length init + List.length l)%nat.
Proof.
  intro H.
  apply (foldM_prefix
           (fun pre acc => List.length acc
                           = (List.length init + List.length pre)%nat) _)
    with (pre := []) in H; [exact H | | cbn; lia].
  clear. intros pre a acc r acc' r' Hacc H.
  apply bind_ok in H. destruct H as (b & r1 & _ & H).
  apply ret_ok in H. destruct H as [-> _].
  rewrite !length_app, Hacc. cbn. lia.
Qed.

Lemma foldM_push_forall {A B} (P : B -> Prop) (g : list B -> A -> Gen B)
  (l : list A) (init : list B) r out r' :
  (forall acc a r b r', g acc a r = Ok (b, r') -> P b) ->
  Forall P init ->
  foldM (fun acc a => bind (g acc a) (fun b => ret (acc ++ [b]))) l init r
  = Ok (out, r') ->
  Forall P out.
Proof.
  intros Hg Hinit H.
  apply (foldM_inv (Forall P) _) in H; [exact H | | exact Hinit].
  clear H. intros a acc r0 acc' r0' Hacc H.
  apply bind_ok in H. destruct H as (b & r1 & Hb & H).
  apply ret_ok in H. destruct H as [-> _].
  apply Forall_app. split; [exact Hacc|]. constructor; [|constructor].
  eapply Hg, Hb.
Qed.

Lemma range_length (n : Z) : List.length (range n) = Z.to_nat n.
Proof. unfold range. now rewrite length_map, length_seq. Qed.

End MotifFacts.

(** X16.  A motif that [generateMotif] returns: its degrees are never
    negative and never exceed the larger of 4 and the last index of the
    scale (so on a scale of five or more notes every degree is an index of
    the scale); its durations are among "8n", "4n" and "2n"; durations and
    velocities are equally many, and as many as the degrees unless the
    drawn length is below one, when the motif has one degree and no
    duration.  The builder's own generator is left as it was. *)
Theorem generateMotif_shape :
  forall (math : Rng.MathLib) (scale : list Z) (lengthRange : Z * Z)
         (r : Rng.Rng),
    match SongGen.generateMotif math scale lengthRange r with
    | JS.Ok (m, r') =>
        r' = r
        /\ Forall (fun d => 0 <= d <= Z.max 4 (SongGen.lenZ scale - 1))
                  (Song.degrees m)
        /\ Forall (fun d => In d ["8n"; "4n"; "2n"]) (Song.durations m)
        /\ List.length (Song.durations m) = List.length (Song.velocities m)
        /\ ((Song.durations m = [] /\ List.length (Song.degrees m) = 1%nat)
            \/ List.length (Song.degrees m) = List.length (Song.durations m))
        /\ Song.degrees m <> []
    | JS.Throw _ => True
    end.
Proof.
  intros math scale lengthRange r.
  destruct (SongGen.generateMotif math scale lengthRange r) as [[m r']|msg] eqn:E;
    [|exact I].
  revert E. unfold SongGen.generateMotif. intro E.
  apply RngFacts.forked_ok in E. destruct E as [-> [r1 E]].
  split; [reflexivity|].
  apply RngFacts.bind_ok in E. destruct E as (len & ra & _ & E).
  apply RngFacts.bind_ok in E. destruct E as (startDeg & rb & Hstart & E).
  apply RngFacts.bind_ok in E. destruct E as (degs & rc & Hdeg & E).
  apply RngFacts.bind_ok in E. destruct E as (durs & rd & Hdur & E).
  apply RngFacts.bind_ok in E. destruct E as (vels & re & Hvel & E).
  apply RngFacts.ret_ok in E. destruct E as [-> _].
  cbn [Song.degrees Song.durations Song.velocities].
  apply RngFacts.pick_ok in Hstart.
  revert Hdur Hvel. unfold SongGen.forRange. intros Hdur Hvel.
  pose proof (MotifFacts.foldM_push_length
                (fun _ _ => Rng.weightedPick ["8n"; "4n"; "2n"] [70; 25; 5]%float)
                _ _ _ _ _ Hdur) as Ldur.
  pose proof (MotifFacts.foldM_push_length
                (fun _ i =>
                   Rng.bind (Rng.gaussian math 0 0.08)
                     (fun g =>
                        Rng.ret (0.6 + g
                                 + (0.5 + 0.35
                                    * Rng.m_sin math
                                        (JS.ofZ i / JS.ofZ (Z.max 1 (len - 1))
                                         * Rng.PI)) * 0.2)%float))
                (Rng.range len) [] rd vels re) as Lvel.
  pose proof (MotifFacts.foldM_push_length
                (fun degrees _ =>
                   Rng.bind (Rng.weightedPick [-1; -2; -3; 1; 2; 3]
                               [35; 10; 5; 35; 10; 5]%float)
                     (fun move =>
                        Rng.ret (Z.max 0 (Z.min (SongGen.lenZ scale - 1)
                                            (List.last degrees 0 + move)))))
                (Rng.range (len - 1)) [startDeg] rb degs rc) as Ldeg.
  rewrite MotifFacts.range_length in Ldur. cbn [List.length] in Ldur.
  assert (Hvel' : List.length vels = Z.to_nat len).
  { rewrite <- (MotifFacts.range_length len). apply Lvel.
    rewrite <- Hvel. apply RngFacts.foldM_ext. intros acc i r0.
    unfold Rng.bind. destruct (Rng.gaussian math 0 0.08 r0) as [[g rg]|]; reflexivity. }
  assert (Hdeg' : List.length degs = S (Z.to_nat (len - 1))).
  { rewrite <- (MotifFacts.range_length (len - 1)). apply Ldeg.
    rewrite <- Hdeg. apply RngFacts.foldM_ext. intros acc i r0.
    unfold Rng.bind.
    destruct (Rng.weightedPick _ _ r0) as [[g rg]|]; reflexivity. }
  assert (G1 : Forall (fun d => 0 <= d <= Z.max 4 (SongGen.lenZ scale - 1)) degs).
  { apply (RngFacts.foldM_inv
             (Forall (fun d => 0 <= d <= Z.max 4 (SongGen.lenZ scale - 1))) _)
      in Hdeg; [exact Hdeg | |].
    - clear. intros _ acc r acc' r' Hacc H.
      apply RngFacts.bind_ok in H. destruct H as (move & r1 & _ & H).
      apply RngFacts.ret_ok in H. destruct H as [-> _].
      apply Forall_app. split; [exact Hacc|]. constructor; [lia | constructor].
    - constructor; [|constructor].
      cbn in Hstart. lia. }
  assert (G2 : Forall (fun d => In d ["8n"; "4n"; "2n"]) durs).
  { apply (MotifFacts.foldM_push_forall
             (fun d => In d ["8n"; "4n"; "2n"])
             (fun _ _ => Rng.weightedPick ["8n"; "4n"; "2n"] [70; 25; 5]%float)
             _ _ _ _ _) in Hdur; [exact Hdur | | constructor].
    intros _ _ r0 b r0' Hb. eapply RngFacts.weightedPick_ok, Hb. }
  assert (G3 : List.length durs = List.length vels) by lia.
  assert (G4 : (durs = [] /\ List.length degs = 1%nat)
               \/ List.length degs = List.length durs).
  { clear - Hdeg' Ldur.
    destruct durs as [|d durs]; [left; split; [reflexivity|] | right];
      cbn [List.length] in Ldur |- *; lia. }
  split; [exact G1|]. split; [exact G2|]. split; [exact G3|].
  split; [exact G4|].
  clear - Hdeg'. intro Hnil. rewrite Hnil in Hdeg'. discriminate Hdeg'.
Qed.

(** X17.  Mirroring a motif twice gives the motif back, provided no note
    other than a rest sits at degree [2 * first + 1]: such a note would be
    mirrored onto -1, the marker of a rest, and stay there.  Rests,
    durations and velocities are kept by each mirroring. *)
Theorem invertMotif_involution :
  forall (m : Song.Motif),
    Forall (fun d => d = 2 * hd 0 (Song.degrees m) + 1 -> d = -1) (Song.degrees m) ->
    SongGen.invertMotif (SongGen.invertMotif m) = m
    /\ Song.durations (SongGen.invertMotif m) = Song.durations m
    /\ Song.velocities (SongGen.invertMotif m) = Song.velocities m
    /\ List.length (Song.degrees (SongGen.invertMotif m))
       = List.length (Song.degrees m).
Proof.
  intros [degs durs vels]. cbn [Song.degrees].
  destruct degs as [|first rest]; intro H.
  - repeat split.
  - cbn [hd] in H.
    assert (E1 : SongGen.invertMotif (Song.mkMotif (first :: rest) durs vels)
                 = Song.mkMotif
                     (first :: map (fun d => if d =? -1 then -1
                                             else first - (d - first)) rest)
                     durs vels).
    { unfold SongGen.invertMotif.
      cbn [Song.degrees Song.durations Song.velocities map].
      do 2 f_equal. destruct (Z.eqb_spec first (-1)); lia. }
    rewrite E1. cbn [Song.degrees Song.durations Song.velocities].
    split; [|repeat split; cbn [List.length]; now rewrite length_map].
    unfold SongGen.invertMotif.
    cbn [Song.degrees Song.durations Song.velocities map].
    f_equal. f_equal.
    + destruct (Z.eqb_spec first (-1)); lia.
    + inversion H as [|? ? _ Hrest]; subst.
      rewrite map_map. rewrite <- (map_id rest) at 2.
      apply map_ext_in. intros d Hd.
      rewrite Forall_forall in Hrest. specialize (Hrest d Hd).
      destruct (Z.eqb_spec d (-1)) as [->|Hn]; [reflexivity|].
      destruct (Z.eqb_spec (first - (d - first)) (-1)) as [E|E]; lia.
Qed.

Lemma invertMotif_involution_witness :
  SongGen.invertMotif
    (SongGen.invertMotif (Song.mkMotif [2; 3; -1; 0] ["8n"; "4n"; "8n"; "2n"] []))
  = Song.mkMotif [2; 3; -1; 0] ["8n"; "4n"; "8n"; "2n"] []
  /\ Song.durations
       (SongGen.invertMotif (Song.mkMotif [2; 3; -1; 0] ["8n"; "4n"; "8n"; "2n"] []))
     = Song.durations (Song.mkMotif [2; 3; -1; 0] ["8n"; "4n"; "8n"; "2n"] [])
  /\ Song.velocities
       (SongGen.invertMotif (Song.mkMotif [2; 3; -1; 0] ["8n"; "4n"; "8n"; "2n"] []))
     = Song.velocities (Song.mkMotif [2; 3; -1; 0] ["8n"; "4n"; "8n"; "2n"] [])
  /\ List.length
       (Song.degrees
          (SongGen.invertMotif (Song.mkMotif [2; 3; -1; 0] ["8n"; "4n"; "8n"; "2n"] [])))
     = List.length
         (Song.degrees (Song.mkMotif [2; 3; -1; 0] ["8n"; "4n"; "8n"; "2n"] [])).
Proof.
  apply (invertMotif_involution
           (Song.mkMotif [2; 3; -1; 0] ["8n"; "4n"; "8n"; "2n"] [])).
  cbn [Song.degrees hd]. repeat constructor; lia.
Defined.

(** ** song.ts: the section generators *)
Module GenFacts.
Import JS Rng Presets Song SongGen RngFacts Instruments.

Lemma foldM_inv_in {A S} (I : S -> Prop) (f : S -> A -> Gen S) (l : list A) :
  (forall a s r s' r', In a l -> I s -> f s a r = Ok (s', r') -> I s') ->
  forall s r s' r', I s -> foldM f l s r = Ok (s', r') -> I s'.
Proof.
  induction l as [|a l IH]; intros Hstep s r s' r' HI H.
  - apply ret_ok in H. destruct H as [-> _]. exact HI.
  - cbn [foldM] in H. apply bind_ok in H. destruct H as (s1 & r1 & Hf & H).
    eapply IH; [| |exact H].
    + intros a0 s0 r0 s0' r0' Hin. apply Hstep. now right.
    + eapply Hstep; [now left | exact HI | exact Hf].
Qed.

Lemma in_range (n a : Z) : In a (range n) -> 0 <= a < n.
Proof.
  unfold range. intro H. apply in_map_iff in H. destruct H as (k & <- & Hk).
  apply in_seq in Hk. lia.
Qed.

Lemma Forall_snoc {A} (P : A -> Prop) (l : list A) (a : A) :
  Forall P l -> P a -> Forall P (l ++ [a]).
Proof. intros Hl Ha. apply Forall_app. split; [exact Hl | now constructor]. Qed.

Lemma jsrem_4 (step : Z) : 0 <= step -> 0 <= jsrem step 4 < 4.
Proof. intro H. unfold jsrem. apply Z.rem_bound_pos; lia. Qed.

End GenFacts.

(** X18.  Every drum event of a section lies on the sixteenth grid inside
    the section: its time is [bar:beat:sixteenth] with the bar among the
    section's bars and beat and sixteenth in 0..3, for every preset and
    pattern; the builder's own generator is left as it was. *)
Theorem generateDrums_on_grid :
  forall (preset : Presets.LofiPreset) (section : Song.SongSection)
         (sectionStartBar : Z) (r : Rng.Rng),
    match SongGen.generateDrums preset section sectionStartBar r with
    | JS.Ok (events, r') =>
        r' = r
        /\ Forall (fun d =>
                     exists bar beat sixteenth,
                       0 <= bar < Song.bars section
                       /\ 0 <= beat < 4 /\ 0 <= sixteenth < 4
                       /\ Song.dtime d
                          = Song.timeString (sectionStartBar + bar) beat sixteenth)
                  events
    | JS.Throw _ => True
    end.
Proof.
  intros preset section start r.
  destruct (SongGen.generateDrums preset section start r) as [[events r']|msg] eqn:E;
    [|exact I].
  revert E. unfold SongGen.generateDrums, SongGen.forRange. intro E.
  apply RngFacts.forked_ok in E. destruct E as [-> [r1 E]].
  split; [reflexivity|].
  apply RngFacts.bind_ok in E. destruct E as (basic & ra & _ & E).
  apply RngFacts.bind_ok in E. destruct E as (fill & rb & _ & E).
  apply RngFacts.bind_ok in E. destruct E as (useFill & rc & _ & E).
  revert E. apply GenFacts.foldM_inv_in; [|constructor].
  intros bar evs r0 evs' r0' Hbar Hevs.
  apply GenFacts.in_range in Hbar.
  apply GenFacts.foldM_inv_in; [|exact Hevs].
  clear evs r0 evs' r0' Hevs.
  intros step evs r0 evs' r0' Hstep Hevs H.
  apply GenFacts.in_range in Hstep.
  assert (Hgrid : forall id v,
             (fun d =>
                exists bar beat sixteenth,
                  0 <= bar < Song.bars section
                  /\ 0 <= beat < 4 /\ 0 <= sixteenth < 4
                  /\ Song.dtime d
                     = Song.timeString (start + bar) beat sixteenth)
               (Song.mkDrum (Song.timeString (start + bar) (step / 4)
                               (JS.jsrem step 4)) id v)).
  { intros id v. exists bar, (step / 4), (JS.jsrem step 4).
    pose proof (GenFacts.jsrem_4 step ltac:(lia)).
    assert (0 <= step / 4 < 4)
      by (split; [apply Z.div_pos; lia | apply Z.div_lt_upper_bound; lia]).
    repeat split; lia. }
  apply RngFacts.bind_ok in H. destruct H as (kickOn & rk & _ & H).
  apply RngFacts.bind_ok in H. destruct H as (snareOn & rs & _ & H).
  match type of H with
  | (if ?c then _ else _) _ = _ => destruct c
  end; apply RngFacts.ret_ok in H; destruct H as [-> _];
    destruct kickOn, snareOn;
    repeat (apply GenFacts.Forall_snoc; [|apply Hgrid]); exact Hevs.
Qed.

Module TagFacts.
Import JS Rng Presets Song SongGen RngFacts Instruments GenFacts EdgeViews.

Ltac gen_step H :=
  first
    [ apply ret_ok in H; destruct H as [? _]; subst
    | let a := fresh "a" in
      let r := fresh "r" in
      let E := fresh "E" in
      apply bind_ok in H; destruct H as (a & r & E & H)
    | match type of H with
      | (if ?c then _ else _) _ = _ => destruct c
      | (let '(_, _) := ?p in _) _ = _ => destruct p
      end ].

Lemma forStep_inv {S} (I : S -> Prop) (n step : Z) (f : S -> Z -> Gen S) :
  (forall a s r s' r', I s -> f s a r = Ok (s', r') -> I s') ->
  forall s r s' r', I s -> forStep n step f s r = Ok (s', r') -> I s'.
Proof.
  intros Hstep s r s' r' HI. unfold forStep.
  destruct ((step <=? 0) && (0 <? n)); [discriminate|].
  now apply foldM_inv.
Qed.

Section WithMath.
Variable math : MathLib.

Lemma resolveChords_pad key progression preset start sectionBars r evs r' :
  resolveChords math key progression preset start sectionBars r = Ok (evs, r') ->
  Forall (tagged pad) evs.
Proof.
  unfold resolveChords. intro H.
  apply forked_ok in H. destruct H as [_ [r1 H]].
  revert H. apply forStep_inv; [|constructor].
  clear. intros bar evs r evs' r' Hevs H.
  apply bind_ok in H. destruct H as ([degree quality] & ra & _ & H).
  apply bind_ok in H. destruct H as (q & rb & _ & H).
  apply bind_ok in H. destruct H as (mode & rc & _ & H).
  apply bind_ok in H. destruct H as (chordNotes & rd & _ & H).
  apply bind_ok in H. destruct H as (voicing & re & _ & H).
  destruct mode; repeat gen_step H;
    (apply Forall_app; split; [exact Hevs|]);
    rewrite Forall_map; apply Forall_forall;
    try (intros [i v] _; reflexivity); intros v _; reflexivity.
Qed.

Lemma melodySlot_melody m scale key progression preset slotStartBar evs r evs' r' :
  melodySlot math m scale key progression preset slotStartBar evs r = Ok (evs', r') ->
  Forall (tagged melody) evs -> Forall (tagged melody) evs'.
Proof.
  unfold melodySlot. intros H Hevs.
  gen_step H. destruct a as [evs1 sixteenth]. gen_step H.
  revert E.
  apply (foldM_inv (fun st : list InstrumentNoteEvent * Z =>
                      Forall (tagged melody) (fst st))); [|exact Hevs].
  clear. intros [i deg] [evs sixteenth] r st' r' Hevs H.
  cbn [fst] in Hevs.
  repeat gen_step H; cbn [fst]; try exact Hevs.
  apply Forall_snoc; [exact Hevs | reflexivity].
Qed.

Lemma generateMelody_melody motif scale section key progression preset start r evs r' :
  generateMelody math motif scale section key progression preset start r
  = Ok (evs, r') ->
  Forall (tagged melody) evs.
Proof.
  unfold generateMelody, forRange. intro H.
  apply forked_ok in H. destruct H as [_ [r1 H]].
  destruct (Song.name section).
  - gen_step H. constructor.
  - revert H. apply foldM_inv; [|constructor].
    clear. intros slot evs r0 evs' r0' Hevs H.
    gen_step H. eapply melodySlot_melody; eassumption.
  - revert H. apply foldM_inv; [|constructor].
    clear. intros slot evs r0 evs' r0' Hevs H.
    do 2 gen_step H. eapply melodySlot_melody; eassumption.
  - revert H. apply foldM_inv; [|constructor].
    clear. intros slot evs r0 evs' r0' Hevs H.
    do 2 gen_step H; [now gen_step H|].
    eapply melodySlot_melody; eassumption.
  - revert H. apply foldM_inv; [|constructor].
    clear. intros slot evs r0 evs' r0' Hevs H.
    eapply melodySlot_melody; eassumption.
Qed.

Lemma generateMelody_intro motif scale section key progression preset start r evs r' :
  Song.name section = intro ->
  generateMelody math motif scale section key progression preset start r
  = Ok (evs, r') ->
  evs = [].
Proof.
  unfold generateMelody. intros Hn H. rewrite Hn in H.
  apply forked_ok in H. destruct H as [_ [r1 H]].
  apply ret_ok in H. now destruct H.
Qed.

Lemma generateBass_bass key progression preset section start r evs r' :
  generateBass math key progression preset section start r = Ok (evs, r') ->
  Forall (tagged bass) evs.
Proof.
  unfold generateBass, forRange. intro H.
  apply forked_ok in H. destruct H as [_ [r1 H]].
  revert H. apply foldM_inv; [|constructor].
  clear. intros bar evs r evs' r' Hevs H.
  gen_step H. revert H. apply forStep_inv; [|exact Hevs].
  clear. intros beat evs r evs' r' Hevs H.
  do 3 gen_step H.
  gen_step H; repeat gen_step H;
    repeat (apply Forall_snoc; [|reflexivity]); exact Hevs.
Qed.

Lemma generateTexture_edge key progression preset section start r evs r' :
  isEdge (Song.name section) = true ->
  generateTexture math key progression preset section start r = Ok (evs, r') ->
  evs = [].
Proof.
  unfold generateTexture. intros Hn H. rewrite Hn in H.
  apply forked_ok in H. destruct H as [_ [r1 H]].
  apply ret_ok in H. now destruct H.
Qed.

Lemma generateExtraInstrument_edge id key progression preset section start r evs r' :
  isEdge (Song.name section) = true ->
  generateExtraInstrument math id key progression preset section start r
  = Ok (evs, r') ->
  evs = [].
Proof.
  unfold generateExtraInstrument. intros Hn H. rewrite Hn in H.
  apply forked_ok in H. destruct H as [_ [r1 H]].
  apply ret_ok in H. now destruct H.
Qed.

Lemma lowLayer_edge drop floor vel voice key progression preset section start evs :
  isEdge (Song.name section) = true ->
  lowLayer drop floor vel voice key progression preset section start = Ok evs ->
  evs = [].
Proof.
  unfold lowLayer. intros Hn H. rewrite Hn in H. now injection H.
Qed.

End WithMath.
End TagFacts.

Module EdgeFacts.
Import JS Rng Presets Song SongGen RngFacts Instruments GenFacts TagFacts EdgeViews.

Section WithMath.
Variable math : MathLib.

Lemma tagged_in (id : InstrumentId) (voices : list InstrumentId)
  (l : list InstrumentNoteEvent) :
  In id voices -> Forall (tagged id) l ->
  Forall (fun e => In (Song.instrument e) voices) l.
Proof.
  intros Hin. apply Forall_impl. intros e He. unfold tagged in He. now rewrite He.
Qed.

Lemma buildSection_edge key progression preset motif scale name sectionBars
  startBar r s r' :
  buildSection math key progression preset motif scale name sectionBars startBar r
  = Ok (s, r') ->
  edgeOk s.
Proof.
  unfold buildSection. intro H.
  apply bind_ok in H. destruct H as (chords & r1 & Hchords & H).
  apply bind_ok in H. destruct H as (mel & r2 & Hmel & H).
  apply bind_ok in H. destruct H as (bas & r3 & Hbas & H).
  apply bind_ok in H. destruct H as (tex & r4 & Htex & H).
  apply bind_ok in H. destruct H as (withSub & r5 & _ & H).
  apply bind_ok in H. destruct H as (all1 & r6 & Hall1 & H).
  apply bind_ok in H. destruct H as (withContra & r7 & _ & H).
  apply bind_ok in H. destruct H as (all2 & r8 & Hall2 & H).
  apply bind_ok in H. destruct H as (all3 & r9 & Hall3 & H).
  apply bind_ok in H. destruct H as (drums & r10 & _ & H).
  apply ret_ok in H. destruct H as [-> _].
  unfold edgeOk. cbn [Song.name Song.instrumentEvents].
  destruct (edgeVoices name) as [voices|] eqn:Hv; [|exact I].
  assert (Hedge : isEdge name = true) by (destruct name; try discriminate; reflexivity).
  apply resolveChords_pad in Hchords.
  pose proof (generateMelody_melody _ _ _ _ _ _ _ _ _ _ _ Hmel) as Hmel'.
  apply generateBass_bass in Hbas.
  apply generateTexture_edge in Htex; [|exact Hedge]. subst tex.
  assert (Hbase : Forall (fun e => In (Song.instrument e) voices)
                         (chords ++ mel ++ bas ++ [])).
  { destruct name; try discriminate; injection Hv as <-.
    - apply generateMelody_intro in Hmel; [|reflexivity]. subst mel.
      repeat (apply Forall_app; split); try constructor.
      + eapply tagged_in; [|exact Hchords]. cbn. tauto.
      + eapply tagged_in; [|exact Hbas]. cbn. tauto.
    - repeat (apply Forall_app; split); try constructor.
      + eapply tagged_in; [|exact Hchords]. cbn. tauto.
      + eapply tagged_in; [|exact Hmel']. cbn. tauto.
      + eapply tagged_in; [|exact Hbas]. cbn. tauto. }
  assert (H1 : Forall (fun e => In (Song.instrument e) voices) all1).
  { destruct withSub.
    - apply bind_ok in Hall1. destruct Hall1 as (ev & ra & Hev & Hall1).
      apply liftR_ok in Hev. destruct Hev as [Hev _].
      apply lowLayer_edge in Hev; [|exact Hedge]. subst ev.
      apply ret_ok in Hall1. destruct Hall1 as [-> _].
      now rewrite app_nil_r.
    - apply ret_ok in Hall1. destruct Hall1 as [-> _]. exact Hbase. }
  assert (H2 : Forall (fun e => In (Song.instrument e) voices) all2).
  { destruct withContra.
    - apply bind_ok in Hall2. destruct Hall2 as (ev & ra & Hev & Hall2).
      apply liftR_ok in Hev. destruct Hev as [Hev _].
      apply lowLayer_edge in Hev; [|exact Hedge]. subst ev.
      apply ret_ok in Hall2. destruct Hall2 as [-> _].
      now rewrite app_nil_r.
    - apply ret_ok in Hall2. destruct Hall2 as [-> _]. exact H1. }
  revert Hall3. apply foldM_inv; [|exact H2].
  clear - Hedge. intros x evs r evs' r' Hevs H.
  apply bind_ok in H. destruct H as (on & ra & _ & H).
  destruct on.
  - apply bind_ok in H. destruct H as (ev & rb & Hev & H).
    apply generateExtraInstrument_edge in Hev; [|exact Hedge]. subst ev.
    apply ret_ok in H. destruct H as [-> _]. now rewrite app_nil_r.
  - apply ret_ok in H. destruct H as [-> _]. exact Hevs.
Qed.

End WithMath.
End EdgeFacts.

(** X19.  Opening and closing sections are written for few voices: in
    every Song that [build] returns, the instrument events of an intro are
    pad and bass events only, and those of an outro are pad, melody and
    bass events only -- texture, sub-bass, contrabass and the extra
    instruments stay out of both, whatever the draws. *)
Theorem build_edge_sections_voices :
  forall (math : Rng.MathLib) (b : SongGen.SongBuilder),
    match SongGen.build math b with
    | JS.Ok (song, _) => Forall EdgeViews.edgeOk (Song.sections song)
    | JS.Throw _ => True
    end.
Proof.
  intros math b. unfold SongGen.build.
  destruct (SongGen.buildGen math b (SongGen.b_rng b)) as [[song r']|m] eqn:E;
    [|exact I].
  apply (BuildFacts.buildGen_ok math EdgeViews.edgeOk) in E.
  - apply E.
  - intros. eapply EdgeFacts.buildSection_edge. eassumption.
Qed.

Module LowLayerFacts.
Import JS Rng Presets Song SongGen Instruments GenFacts EdgeViews.

Lemma fold_low (drop floor : Z) (vel : float) (voice : InstrumentId)
  (key : string) (progression : ChordProgressionTemplate) (preset : LofiPreset)
  (start : Z) (allowed : list Z) :
  forall (l : list Z) (acc : Result (list InstrumentNoteEvent))
         (evs : list InstrumentNoteEvent),
    (forall a, In a l -> In a allowed) ->
    fold_left (fun (acc : Result (list InstrumentNoteEvent)) bar =>
      bindR acc (fun events =>
      bindR (templateAt progression
               (jsrem (bar / chordBarsOf preset) (progLen progression)))
            (fun template =>
      let root := MusicTheory.root
                    (MusicTheory.resolveChordFromTemplate key (scaleType preset)
                       template) in
      let n := root - drop in
      if n <? floor then Ok events
      else Ok (events ++ [mkNote (timeString (start + bar) 0 0)
                            (MusicTheory.midiToName n)
                            (if chordBarsOf preset =? 2 then "2m" else "1n")
                            vel voice]))))
      l acc = Ok evs ->
    exists evs0,
      acc = Ok evs0
      /\ (Forall (lowNote floor voice start allowed) evs0 ->
          Forall (lowNote floor voice start allowed) evs)
      /\ (List.length evs <= List.length evs0 + List.length l)%nat.
Proof.
  induction l as [|bar l IH]; intros acc evs Hsub H.
  - cbn [fold_left] in H. exists evs. repeat split; [exact H | tauto | cbn; lia].
  - cbn [fold_left] in H. apply IH in H; [|intros a Ha; apply Hsub; now right].
    destruct H as (evs1 & Hacc & Hall & Hlen).
    destruct acc as [evs0|m]; [|discriminate].
    exists evs0. split; [reflexivity|].
    cbn [bindR] in Hacc.
    destruct (templateAt progression _) as [template|m]; [|discriminate].
    cbn [bindR] in Hacc. cbv zeta in Hacc.
    destruct (Z.ltb_spec
                (MusicTheory.root
                   (MusicTheory.resolveChordFromTemplate key (scaleType preset)
                      template) - drop) floor) as [Hlt|Hge];
      injection Hacc as <-.
    + split; [exact Hall | cbn [List.length]; lia].
    + split.
      * intro H0. apply Hall. apply Forall_snoc; [exact H0|].
        unfold lowNote. cbn [Song.note Song.instrument Song.time].
        rewrite MusicTheoryMore.nameToMidi_of_name. repeat split; [lia|].
        exists bar. split; [apply Hsub; now left | reflexivity].
      * rewrite length_app in Hlen. cbn [List.length] in *. lia.
Qed.

End LowLayerFacts.

Module LowLayerBars.
Import JS Rng Presets Song SongGen Instruments GenFacts EdgeViews BarViews.

Lemma seq_sorted (n start : nat) :
  StronglySorted Z.lt (map Z.of_nat (seq start n)).
Proof.
  revert start. induction n as [|n IH]; intro start; cbn [seq map];
    constructor; [apply IH|].
  rewrite Forall_map. apply Forall_forall. intros k Hk.
  apply in_seq in Hk. lia.
Qed.

Lemma range_sorted (n : Z) : StronglySorted Z.lt (range n).
Proof. apply seq_sorted. Qed.

Lemma fold_low_bars (drop floor : Z) (vel : float) (voice : InstrumentId)
  (key : string) (progression : ChordProgressionTemplate) (preset : LofiPreset)
  (start : Z) :
  forall (l : list Z) (acc : Result (list InstrumentNoteEvent))
         (evs : list InstrumentNoteEvent),
    StronglySorted Z.lt l ->
    fold_left (fun (acc : Result (list InstrumentNoteEvent)) bar =>
      bindR acc (fun events =>
      bindR (templateAt progression
               (jsrem (bar / chordBarsOf preset) (progLen progression)))
            (fun template =>
      let root := MusicTheory.root
                    (MusicTheory.resolveChordFromTemplate key (scaleType preset)
                       template) in
      let n := root - drop in
      if n <? floor then Ok events
      else Ok (events ++ [mkNote (timeString (start + bar) 0 0)
                            (MusicTheory.midiToName n)
                            (if chordBarsOf preset =? 2 then "2m" else "1n")
                            vel voice]))))
      l acc = Ok evs ->
    exists evs0 added bs,
      acc = Ok evs0
      /\ evs = evs0 ++ added
      /\ StronglySorted Z.lt bs
      /\ Forall (fun b => In b l) bs
      /\ map Song.time added = map (fun b => timeString (start + b) 0 0) bs.
Proof.
  induction l as [|bar l IH]; intros acc evs Hs H.
  - cbn [fold_left] in H. exists evs, [], [].
    rewrite app_nil_r. repeat split; try constructor. exact H.
  - inversion Hs as [|? ? Hs' Hbar]; subst.
    cbn [fold_left] in H. apply IH in H; [|exact Hs'].
    destruct H as (evs1 & added1 & bs1 & Hacc & -> & Hsorted & Hin & Htimes).
    destruct acc as [evs0|m]; [|discriminate].
    cbn [bindR] in Hacc.
    destruct (templateAt progression _) as [template|m]; [|discriminate].
    cbn [bindR] in Hacc. cbv zeta in Hacc.
    destruct (_ <? floor); injection Hacc as <-.
    + exists evs0, added1, bs1. repeat split; try assumption.
      eapply Forall_impl; [|exact Hin]. intros b Hb. now right.
    + eexists evs0, (_ :: added1), (bar :: bs1).
      split; [reflexivity|]. split; [now rewrite <- app_assoc|].
      split; [|split].
      * constructor; [exact Hsorted|].
        rewrite Forall_forall in Hin, Hbar |- *. intros b Hb.
        apply Hbar, Hin, Hb.
      * constructor; [now left|].
        eapply Forall_impl; [|exact Hin]. intros b Hb. now right.
      * cbn [map Song.time]. now rewrite Htimes.
Qed.

Lemma lowLayer_onePerBar drop floor vel voice key progression preset section start
  evs :
  lowLayer drop floor vel voice key progression preset section start = Ok evs ->
  onePerBar start (bars section) evs.
Proof.
  unfold lowLayer. destruct (isEdge (Song.name section)).
  - intro H. injection H as <-. exists []. repeat split; constructor.
  - intro H. apply fold_low_bars in H; [|apply range_sorted].
    destruct H as (evs0 & added & bs & Hacc & -> & Hsorted & Hin & Htimes).
    injection Hacc as <-. cbn [app].
    exists bs. repeat split; [exact Hsorted | | exact Htimes].
    eapply Forall_impl; [|exact Hin]. intros b Hb. now apply in_range.
Qed.

End LowLayerBars.

(** X20.  The low layers keep to their register.  [generateSubbass] writes
    no note below MIDI pitch 20 and [generateContrabass] none below 28 --
    a chord whose root would fall lower gets no note; every note they write
    carries their own instrument id and sits on the first beat of a bar of
    the section, and the bars of successive notes ascend strictly, so that
    no bar carries two. *)
Theorem low_layers_keep_register :
  forall (key : string) (progression : Presets.ChordProgressionTemplate)
         (preset : Presets.LofiPreset) (section : Song.SongSection)
         (sectionStartBar : Z),
    match SongGen.generateSubbass key progression preset section sectionStartBar with
    | JS.Ok events =>
        Forall (EdgeViews.lowNote 20 Instruments.subbass sectionStartBar
                  (Rng.range (Song.bars section))) events
        /\ (List.length events <= Z.to_nat (Song.bars section))%nat
        /\ BarViews.onePerBar sectionStartBar (Song.bars section) events
    | JS.Throw _ => True
    end
    /\ match SongGen.generateContrabass key progression preset section
               sectionStartBar with
       | JS.Ok events =>
           Forall (EdgeViews.lowNote 28 Instruments.contrabass sectionStartBar
                     (Rng.range (Song.bars section))) events
           /\ (List.length events <= Z.to_nat (Song.bars section))%nat
           /\ BarViews.onePerBar sectionStartBar (Song.bars section) events
       | JS.Throw _ => True
       end.
Proof.
  intros key progression preset section start.
  split.
  - destruct (SongGen.generateSubbass key progression preset section start)
      as [events|m] eqn:E; [|exact I].
    pose proof (LowLayerBars.lowLayer_onePerBar _ _ _ _ _ _ _ _ _ _ E) as Hbars.
    revert E. unfold SongGen.generateSubbass, SongGen.lowLayer.
    destruct (SongGen.isEdge (Song.name section)).
    + intro E. injection E as <-. repeat split; try constructor; [cbn; lia | exact Hbars].
    + intro E.
      apply LowLayerFacts.fold_low with (allowed := Rng.range (Song.bars section))
        in E; [|tauto].
      destruct E as (evs0 & Hacc & Hall & Hlen). injection Hacc as <-.
      split; [apply Hall; constructor|]. split; [|exact Hbars].
      rewrite MotifFacts.range_length in Hlen. cbn [List.length] in Hlen. lia.
  - destruct (SongGen.generateContrabass key progression preset section start)
      as [events|m] eqn:E; [|exact I].
    pose proof (LowLayerBars.lowLayer_onePerBar _ _ _ _ _ _ _ _ _ _ E) as Hbars.
    revert E. unfold SongGen.generateContrabass, SongGen.lowLayer.
    destruct (SongGen.isEdge (Song.name section)).
    + intro E. injection E as <-. repeat split; try constructor; [cbn; lia | exact Hbars].
    + intro E.
      apply LowLayerFacts.fold_low with (allowed := Rng.range (Song.bars section))
        in E; [|tauto].
      destruct E as (evs0 & Hacc & Hall & Hlen). injection Hacc as <-.
      split; [apply Hall; constructor|]. split; [|exact Hbars].
      rewrite MotifFacts.range_length in Hlen. cbn [List.length] in Hlen. lia.
Qed.

(** ** music-theory.ts: related keys *)
(** X24.  [pickRelatedKey] never answers with the key it was given when
    that key is on the circle of fifths: the answer is the key one or two
    steps away in either direction, the circle being closed (after "F"
    comes "C").  A key that is not on the circle, such as "Am", comes back
    unchanged and no number is drawn. *)
Theorem pickRelatedKey_neighbour :
  forall (currentKey : string) (r : Rng.Rng),
    match MusicTheoryRest.pickRelatedKey currentKey r with
    | JS.Ok (k, r') =>
        match JS.indexOf MusicTheory.CIRCLE_OF_FIFTHS currentKey with
        | Some idx =>
            k <> currentKey
            /\ exists d, In d [1; 2; 10; 11]
                         /\ k = MusicTheoryRest.circleAt ((idx + d) mod 12)
        | None => k = currentKey /\ r' = r
        end
    | JS.Throw _ => True
    end.
Proof.
  intros currentKey r.
  destruct (MusicTheoryRest.pickRelatedKey currentKey r) as [[k r']|m] eqn:E;
    [|exact I].
  revert E. unfold MusicTheoryRest.pickRelatedKey.
  destruct (JS.indexOf MusicTheory.CIRCLE_OF_FIFTHS currentKey) as [idx|] eqn:Hidx.
  - intro E. apply RngFacts.pick_ok in E.
    apply MusicTheoryMore.indexOf_some in Hidx. destruct Hidx as [Hr Hn].
    cbn [List.length MusicTheory.CIRCLE_OF_FIFTHS] in Hr.
    assert (Hcases : idx = 0 \/ idx = 1 \/ idx = 2 \/ idx = 3 \/ idx = 4 \/ idx = 5
                     \/ idx = 6 \/ idx = 7 \/ idx = 8 \/ idx = 9 \/ idx = 10
                     \/ idx = 11) by lia.
    repeat (destruct Hcases as [-> | Hcases]); try subst idx;
      subst currentKey; vm_compute in E;
      repeat (destruct E as [<- | E]); try contradiction;
      (split; [discriminate|]);
      first [ exists 1; split; [cbn; tauto | reflexivity]
            | exists 2; split; [cbn; tauto | reflexivity]
            | exists 10; split; [cbn; tauto | reflexivity]
            | exists 11; split; [cbn; tauto | reflexivity] ].
  - intro E. apply RngFacts.ret_ok in E. exact E.
Qed.

(** ** song.ts: chords *)
Module ChordFacts.
Import JS Rng Presets Song SongGen RngFacts.

Lemma chance_total (p : float) (r : Rng) :
  exists b, chance p r = Ok (b, mkRng (state r + RngViews.increment)).
Proof.
  unfold chance, bind. destruct (next_state r) as (x & ->).
  eexists. reflexivity.
Qed.

End ChordFacts.

(** X25.  [maybeSusQuality] always returns, and only ever turns "maj"
    into "sus2" or "sus4" and "min" into "sus4"; every other quality comes
    back as it is.  With a probability of 0 or less it draws no number. *)
Theorem maybeSusQuality_only_suspends_triads :
  forall (q : string) (prob : float) (r : Rng.Rng),
    exists (q' : string) (r' : Rng.Rng),
      SongGen.maybeSusQuality q prob r = JS.Ok (q', r')
      /\ (q' = q
          \/ (q = "maj" /\ (q' = "sus2" \/ q' = "sus4"))
          \/ (q = "min" /\ q' = "sus4"))
      /\ (if PrimFloat.leb prob 0 then r' = r else True).
Proof.
  intros q prob r. unfold SongGen.maybeSusQuality.
  destruct (PrimFloat.leb prob 0).
  - exists q, r. repeat split. now left.
  - unfold Rng.bind at 1.
    destruct (ChordFacts.chance_total prob r) as (hit & ->).
    destruct hit; cbn [negb]; [|eexists _, _; repeat split; now left].
    destruct (String.eqb_spec q "maj") as [->|Hmaj].
    + unfold Rng.bind.
      destruct (ChordFacts.chance_total 0.5 (Rng.mkRng (Rng.state r + RngViews.increment)))
        as (c & ->).
      eexists _, _. split; [reflexivity|]. split; [|exact I].
      right. left. split; [reflexivity|]. destruct c; tauto.
    + destruct (String.eqb_spec q "min") as [->|Hmin].
      * eexists _, _. split; [reflexivity|]. split; [|exact I]. tauto.
      * eexists _, _. split; [reflexivity|]. split; [|exact I]. now left.
Qed.

(** X26.  The chord under a bar repeats with the progression: for a bar
    that is not negative, [chordAtBar] gives the same root one progression
    length later.  On an empty progression it throws. *)
Theorem chordAtBar_periodic :
  forall (key : string) (progression : Presets.ChordProgressionTemplate)
         (preset : Presets.LofiPreset) (bar : Z),
    0 <= bar ->
    SongGen.chordAtBar key progression preset (bar + SongGen.progLen progression)
    = SongGen.chordAtBar key progression preset bar
    /\ exists msg, SongGen.chordAtBar key [] preset bar = JS.Throw msg.
Proof.
  intros key progression preset bar Hbar. split.
  - unfold SongGen.chordAtBar. f_equal. f_equal.
    unfold JS.jsrem, SongGen.progLen.
    destruct progression as [|t l].
    + cbn [List.length Z.of_nat]. now rewrite Z.add_0_r.
    + cbn [List.length].
      rewrite !Z.rem_mod_nonneg by lia.
      replace (bar + Z.of_nat (S (List.length l)))
        with (bar + 1 * Z.of_nat (S (List.length l))) by lia.
      apply Z.mod_add. lia.
  - unfold SongGen.chordAtBar, SongGen.templateAt.
    destruct (_ <? 0); [|destruct (Z.to_nat _)]; eexists; reflexivity.
Qed.

Lemma chordAtBar_periodic_witness :
  SongGen.chordAtBar "C" [(1, "maj7"); (6, "min7"); (2, "min7"); (5, "dom7")]
    Presets.PRESET_CHILLHOP
    (5 + SongGen.progLen [(1, "maj7"); (6, "min7"); (2, "min7"); (5, "dom7")])
  = SongGen.chordAtBar "C" [(1, "maj7"); (6, "min7"); (2, "min7"); (5, "dom7")]
      Presets.PRESET_CHILLHOP 5
  /\ exists msg, SongGen.chordAtBar "C" [] Presets.PRESET_CHILLHOP 5 = JS.Throw msg.
Proof.
  apply (chordAtBar_periodic "C" [(1, "maj7"); (6, "min7"); (2, "min7"); (5, "dom7")]
           Presets.PRESET_CHILLHOP 5).
  lia.
Defined.

(** ** engine.ts and mixer.ts *)
Module EngineMore.
Import JS Song Engine EngineViews.

Lemma clear_own_timeline (tr : Scheduler.T) :
  Transport.timeline (Transport.clearAll (map Transport.rid (Transport.timeline tr)) tr)
  = [].
Proof.
  rewrite SchedulerFacts.clearAll_timeline.
  apply SchedulerFacts.filter_none. apply Forall_forall. intros r Hr.
  now rewrite SchedulerFacts.existsb_rid.
Qed.

Lemma playSong_owns (song : Song) (e : LofiEngine) :
  map Transport.rid (Transport.timeline (transport e)) = scheduledIds e ->
  ownsSchedule (playSong song e).
Proof.
  intro Hids. unfold playSong.
  cbn [clearScheduled configureSynths configureFX applyParamOverrides call
       transport currentSong scheduledIds currentSectionName params calls].
  rewrite SchedulerFacts.schedule_eq.
  unfold ownsSchedule.
  cbn [transport currentSong scheduledIds Transport.timeline].
  rewrite <- Hids, clear_own_timeline. cbn [app].
  split; [reflexivity | eexists; reflexivity].
Qed.

Section WithMath.
Variable math : Rng.MathLib.

Lemma start_owns (seed : option Z) (now : Z) (e e' : LofiEngine) :
  ownsSchedule e -> start math seed now e = Ok e' -> ownsSchedule e'.
Proof.
  intros [Hids Hsong]. unfold start.
  destruct (currentSong e) as [song|] eqn:Hc, seed as [s|];
    try (destruct (SongGen.buildSong math _) as [song'|m]; cbn [bindR];
         intro H; [|discriminate]; injection H as <-; now apply playSong_owns).
  intro H. injection H as <-. unfold ownsSchedule.
  cbn [call transport currentSong scheduledIds]. rewrite Hc. now split.
Qed.

Lemma randomize_owns (now : Z) (e e' : LofiEngine) :
  ownsSchedule e -> randomize math now e = Ok e' -> ownsSchedule e'.
Proof.
  intros [Hids Hsong]. unfold randomize, start. cbn [call currentSong].
  destruct (SongGen.buildSong math now) as [song'|m]; cbn [bindR];
    intro H; [|discriminate].
  injection H as <-. apply playSong_owns.
  cbn [transport scheduledIds call clearScheduled].
  rewrite <- Hids, clear_own_timeline. reflexivity.
Qed.

Lemma onSongEndHook_owns (now : Z) (e e' : LofiEngine) :
  ownsSchedule e -> onSongEndHook math now e = Ok e' -> ownsSchedule e'.
Proof.
  intros [Hids Hsong]. unfold onSongEndHook.
  destruct (SongGen.buildSong math now) as [song'|m]; cbn [bindR];
    intro H; [|discriminate].
  injection H as <-. apply playSong_owns.
  cbn [transport scheduledIds call clearScheduled].
  rewrite <- Hids, clear_own_timeline. reflexivity.
Qed.

Lemma apply_owns (op : Op) (e e' : LofiEngine) :
  ownsSchedule e -> apply math op e = Ok e' -> ownsSchedule e'.
Proof.
  intros He. destruct op as [seed now|now| |merged|sectionName|now|];
    cbn [apply].
  - now apply start_owns.
  - now apply randomize_owns.
  - intro H. injection H as <-. destruct He as [Hids Hsong].
    unfold ownsSchedule, stop.
    cbn [call transport currentSong scheduledIds]. now split.
  - intro H. injection H as <-. destruct He as [Hids Hsong].
    unfold ownsSchedule, setParams, applyParamOverrides.
    cbn [call transport currentSong scheduledIds]. now split.
  - intro H. injection H as <-. destruct He as [Hids Hsong].
    unfold ownsSchedule, onBarHook.
    cbn [transport currentSong scheduledIds]. now split.
  - now apply onSongEndHook_owns.
  - intro H. injection H as <-. destruct He as [Hids Hsong].
    unfold ownsSchedule, dispose.
    cbn [transport currentSong scheduledIds stop call clearScheduled].
    rewrite <- Hids, clear_own_timeline. now split.
Qed.

Lemma applyAll_owns (ops : list Op) :
  forall e e', ownsSchedule e -> applyAll math ops e = Ok e' -> ownsSchedule e'.
Proof.
  induction ops as [|op ops IH]; intros e e' He; cbn [applyAll].
  - intro H. now injection H as <-.
  - destruct (apply math op e) as [e1|m] eqn:E; cbn [bindR]; [|discriminate].
    apply IH. eapply apply_owns; eassumption.
Qed.

End WithMath.

End EngineMore.

(** X21.  Exactly one Song's schedule is ever on the transport.  After any
    sequence of [start], [randomize], [stop], [setParams], [dispose] and
    firings of the [onBar] and [onSongEnd] hooks on a new engine, the
    transport holds the registrations that [schedule] made for the current
    Song, in the order it made them, and nothing else -- no callback of a
    replaced Song is left -- and [scheduledIds] lists their handles; with
    no current Song the transport is empty. *)
Theorem engine_owns_one_schedule :
  forall (math : Rng.MathLib) (ops : list EngineViews.Op),
    match EngineViews.applyAll math ops Engine.create with
    | JS.Ok e => EngineViews.ownsSchedule e
    | JS.Throw _ => True
    end.
Proof.
  intros math ops.
  destruct (EngineViews.applyAll math ops Engine.create) as [e|m] eqn:E; [|exact I].
  eapply EngineMore.applyAll_owns; [|exact E].
  split; reflexivity.
Qed.

Module MixerFacts.
Import JS Song Engine EngineViews.

Lemma mixer_calls_eq (e : LofiEngine) (cs : list Call) :
  mixerOf (call cs e) = fold_left (fun m c => perform c m) cs (mixerOf e).
Proof. unfold mixerOf, call. cbn [calls]. apply fold_left_app. Qed.

Lemma mixerOf_playSong (song : Song) (e : LofiEngine) :
  mixerOf (playSong song e)
  = fold_left (fun m c => perform c m)
      [ InstrumentsConfigurePreset (Presets.name (preset song));
        InstrumentsApplyVolumes (p_instrumentVolumes (params e));
        MixerConfigureFX (fx_reverbDecay (fxParams song)) (fx_reverbMix (fxParams song))
          (fx_delayMix (fxParams song)) (fx_filterCutoff (fxParams song));
        TransportSetSwing (swing song);
        TransportSetBpm (p_tempo (params e));
        MixerApplyParams (p_filterCutoff (params e)) (p_reverbMix (params e))
          (p_delayMix (params e)) (p_crackleMix (params e)) (p_volume (params e));
        InstrumentsApplyVolumes (p_instrumentVolumes (params e));
        MixerCancelVolumeScheduled;
        MixerSetVolume (p_volume (params e));
        CrackleBgStart; TransportStart ]
      (mixerOf e).
Proof.
  unfold playSong.
  cbn [clearScheduled configureSynths configureFX applyParamOverrides call
       transport currentSong scheduledIds currentSectionName params calls].
  destruct (Scheduler.schedule song (Scheduler.mkOptions true true) _) as [ids tr].
  unfold mixerOf. cbn [calls call].
  rewrite <- !app_assoc. rewrite fold_left_app. reflexivity.
Qed.

Lemma setParams_muted (merged : LofiParams) (e : LofiEngine) :
  PrimFloat.ltb 0 (Mixer.masterGain (mixerOf e)) = false ->
  Mixer.masterGain (mixerOf (setParams merged e)) = Mixer.masterGain (mixerOf e).
Proof.
  intro H. unfold setParams, applyParamOverrides.
  rewrite mixer_calls_eq. cbn [fold_left perform params].
  unfold Mixer.applyParams. cbn [Mixer.masterGain].
  unfold mixerOf in *. cbn [calls]. now rewrite H.
Qed.

Lemma last_cons_default {A} (q : A) (ps : list A) (d1 d2 : A) :
  last (q :: ps) d1 = last (d1 :: q :: ps) d2.
Proof.
  cbn [last]. revert q. induction ps as [|x ps IH]; intro q; [reflexivity|].
  cbn [last] in *. apply IH.
Qed.

Lemma setParams_all_muted (ps : list LofiParams) :
  forall e,
    PrimFloat.ltb 0 (Mixer.masterGain (mixerOf e)) = false ->
    Mixer.masterGain (mixerOf (fold_left (fun e p => setParams p e) ps e))
    = Mixer.masterGain (mixerOf e)
    /\ params (fold_left (fun e p => setParams p e) ps e) = last ps (params e)
    /\ currentSong (fold_left (fun e p => setParams p e) ps e) = currentSong e.
Proof.
  induction ps as [|p ps IH]; intros e H; [now repeat split|].
  cbn [fold_left].
  pose proof (setParams_muted p e H) as Hp.
  destruct (IH (setParams p e)) as (Hg & Hpar & Hsong); [now rewrite Hp|].
  rewrite Hg, Hp, Hpar, Hsong. repeat split.
  change (params (setParams p e)) with p.
  destruct ps as [|q ps]; [reflexivity|]. apply last_cons_default.
Qed.

End MixerFacts.

(** X22.  When a Song starts to play, the engine's own parameters win over
    the Song's effect parameters: after [playSong] the filter cutoff, the
    reverb and delay mixes, the crackle level and the master gain are those
    of [params] -- the master gain also when it was 0 before -- and of the
    Song's [fxParams] only the reverb decay reaches the mixer; the crackle
    bed is running. *)
Theorem playSong_mixer_follows_params :
  forall (song : Song.Song) (e : Engine.LofiEngine),
    let p := Engine.params e in
    let m := EngineViews.mixerOf (Engine.playSong song e) in
    Mixer.masterGain m = Engine.p_volume p
    /\ Mixer.filterFrequency m = Engine.p_filterCutoff p
    /\ Mixer.drumFilterFrequency m = Engine.p_filterCutoff p
    /\ Mixer.reverbWet m = Engine.p_reverbMix p
    /\ Mixer.drumReverbWet m = (Engine.p_reverbMix p * 0.9)%float
    /\ Mixer.delayWet m = Engine.p_delayMix p
    /\ Mixer.crackleGain m = Engine.p_crackleMix p
    /\ Mixer.reverbDecay m = Song.fx_reverbDecay (Song.fxParams song)
    /\ Mixer.drumReverbDecay m
       = (Song.fx_reverbDecay (Song.fxParams song) * 0.85)%float
    /\ Mixer.crackleBgOn m = true.
Proof.
  intros song e p m. subst p m.
  rewrite MixerFacts.mixerOf_playSong.
  cbn [fold_left EngineViews.perform].
  repeat split.
Qed.

(** X23.  Volume changes made while the engine is stopped do not reach
    the mixer until playback resumes.  After [stop] the master gain is 0
    and stays 0 through any number of [setParams] calls, because
    [applyParams] only writes the volume to a master gain above 0; the
    values are kept in [params], and [start] without a seed then sets the
    master gain to the volume last given. *)
Theorem stopped_volume_waits_for_start :
  forall (math : Rng.MathLib) (now : Z) (e : Engine.LofiEngine) (song : Song.Song)
         (ps : list Engine.LofiParams),
    Engine.currentSong e = Some song ->
    let stopped := fold_left (fun e p => Engine.setParams p e) ps (Engine.stop e) in
    Mixer.masterGain (EngineViews.mixerOf stopped) = 0%float
    /\ exists e',
         Engine.start math None now stopped = JS.Ok e'
         /\ Mixer.masterGain (EngineViews.mixerOf e')
            = Engine.p_volume (last ps (Engine.params e)).
Proof.
  intros math now e song ps Hsong stopped.
  assert (Hstop : Mixer.masterGain (EngineViews.mixerOf (Engine.stop e)) = 0%float).
  { unfold Engine.stop. rewrite MixerFacts.mixer_calls_eq. reflexivity. }
  destruct (MixerFacts.setParams_all_muted ps (Engine.stop e))
    as (Hg & Hpar & Hcur); [now rewrite Hstop|].
  fold stopped in Hg, Hpar, Hcur.
  split; [now rewrite Hg|].
  unfold Engine.start. rewrite Hcur. cbn [Engine.stop Engine.call Engine.currentSong].
  rewrite Hsong. eexists. split; [reflexivity|].
  rewrite MixerFacts.mixer_calls_eq. cbn [fold_left EngineViews.perform].
  cbn [Mixer.setCrackleBg Mixer.setVolume Mixer.cancelVolumeScheduled Mixer.masterGain].
  rewrite Hpar. reflexivity.
Qed.

Lemma stopped_volume_waits_for_start_witness :
  let e := Engine.playSong SchedulerSpec.twelveBars Engine.create in
  let ps := [ Engine.mkParams 0.08 0.15 1200 [] 0.4 75 0.5;
              Engine.mkParams 0.08 0.15 1200 [] 0.4 75 0.25 ]%float in
  let stopped := fold_left (fun e p => Engine.setParams p e) ps (Engine.stop e) in
  Mixer.masterGain (EngineViews.mixerOf stopped) = 0%float
  /\ exists e',
       Engine.start (Rng.mkMath (fun x => x) (fun x => x) (fun x => x)) None 0 stopped
       = JS.Ok e'
       /\ Mixer.masterGain (EngineViews.mixerOf e')
          = Engine.p_volume (last ps (Engine.params e)).
Proof.
  apply (stopped_volume_waits_for_start
           (Rng.mkMath (fun x => x) (fun x => x) (fun x => x)) 0
           (Engine.playSong SchedulerSpec.twelveBars Engine.create)
           SchedulerSpec.twelveBars).
  reflexivity.
Defined.

(** ** presets.ts and the progression lookups *)
Module PresetFacts.
Import JS Presets Song SongGen PresetViews.

Lemma presets_progressions : forallb progressionsOk PRESETS = true.
Proof. vm_compute. reflexivity. Qed.

Lemma preset_progression (preset : LofiPreset)
  (progression : ChordProgressionTemplate) :
  In preset PRESETS -> In progression (progressions preset) ->
  1 <= chordBarsOf preset /\ 0 < progLen progression.
Proof.
  intros Hp Hprog.
  pose proof presets_progressions as H.
  rewrite forallb_forall in H. specialize (H preset Hp).
  unfold progressionsOk in H. apply andb_true_iff in H. destruct H as [Hc Hall].
  rewrite forallb_forall in Hall. specialize (Hall progression Hprog).
  apply Z.leb_le in Hc. split; [exact Hc|]. unfold progLen.
  destruct progression; [discriminate | cbn [List.length]; lia].
Qed.

Lemma templateAt_total (progression : ChordProgressionTemplate) (x : Z) :
  0 < progLen progression -> 0 <= x ->
  exists t, templateAt progression (jsrem x (progLen progression)) = Ok t.
Proof.
  intros Hlen Hx. unfold templateAt, jsrem.
  pose proof (Z.rem_bound_pos x (progLen progression) Hx Hlen) as Hr.
  destruct (Z.ltb_spec (Z.rem x (progLen progression)) 0) as [Hneg|_]; [lia|].
  destruct (nth_error progression (Z.to_nat (Z.rem x (progLen progression))))
    as [t|] eqn:E; [now exists t|].
  apply nth_error_None in E. unfold progLen in *. lia.
Qed.

Lemma lowLayer_total drop floor vel voice key progression preset section start :
  1 <= chordBarsOf preset -> 0 < progLen progression ->
  exists evs,
    lowLayer drop floor vel voice key progression preset section start = Ok evs.
Proof.
  intros Hc Hlen. unfold lowLayer.
  destruct (isEdge (Song.name section)); [now eexists|].
  assert (Hbars : Forall (fun bar => 0 <= bar) (Rng.range (bars section))).
  { apply Forall_forall. intros bar Hb. apply GenFacts.in_range in Hb. lia. }
  match goal with
  | |- exists evs, fold_left ?F _ (Ok []) = Ok evs =>
      assert (G : forall l evs,
                 Forall (fun bar => 0 <= bar) l ->
                 exists evs', fold_left F l (Ok evs) = Ok evs')
  end.
  { induction l as [|bar l IH]; intros evs Hl.
    - now eexists.
    - inversion Hl as [|? ? Hbar Hl']; subst. cbn [fold_left bindR].
      destruct (templateAt_total progression (bar / chordBarsOf preset) Hlen)
        as (t & Ht); [apply Z.div_pos; lia|].
      rewrite Ht. cbn [bindR]. cbv zeta.
      destruct (_ <? floor); apply IH; exact Hl'. }
  apply G, Hbars.
Qed.

End PresetFacts.

(** X27.  The progression lookups never throw on the presets that ship.
    For every preset of [PRESETS] and each of its progressions,
    [chordAtBar] returns a root for every bar that is not negative, and
    [generateSubbass] and [generateContrabass] return for every section and
    key: no progression is empty and a chord lasts at least one bar. *)
Theorem shipped_progressions_never_throw :
  forall (preset : Presets.LofiPreset)
         (progression : Presets.ChordProgressionTemplate)
         (key : string) (section : Song.SongSection) (sectionStartBar bar : Z),
    In preset Presets.PRESETS ->
    In progression (Presets.progressions preset) ->
    0 <= bar ->
    (exists root, SongGen.chordAtBar key progression preset bar = JS.Ok root)
    /\ (exists events,
          SongGen.generateSubbass key progression preset section sectionStartBar
          = JS.Ok events)
    /\ (exists events,
          SongGen.generateContrabass key progression preset section sectionStartBar
          = JS.Ok events).
Proof.
  intros preset progression key section start bar Hp Hprog Hbar.
  destruct (PresetFacts.preset_progression preset progression Hp Hprog)
    as [Hc Hlen].
  split; [|split].
  - unfold SongGen.chordAtBar.
    destruct (PresetFacts.templateAt_total progression bar Hlen Hbar) as (t & ->).
    cbn [JS.bindR]. now eexists.
  - now apply PresetFacts.lowLayer_total.
  - now apply PresetFacts.lowLayer_total.
Qed.

Lemma shipped_progressions_never_throw_witness :
  (exists root,
      SongGen.chordAtBar "Am" (hd [] (Presets.progressions Presets.PRESET_BOOMBAP))
        Presets.PRESET_BOOMBAP 9 = JS.Ok root)
  /\ (exists events,
        SongGen.generateSubbass "Am"
          (hd [] (Presets.progressions Presets.PRESET_BOOMBAP))
          Presets.PRESET_BOOMBAP (Song.mkSection Song.verse 4 8 [] [] 0) 4
        = JS.Ok events)
  /\ (exists events,
        SongGen.generateContrabass "Am"
          (hd [] (Presets.progressions Presets.PRESET_BOOMBAP))
          Presets.PRESET_BOOMBAP (Song.mkSection Song.verse 4 8 [] [] 0) 4
        = JS.Ok events).
Proof.
  apply (shipped_progressions_never_throw Presets.PRESET_BOOMBAP
           (hd [] (Presets.progressions Presets.PRESET_BOOMBAP))
           "Am" (Song.mkSection Song.verse 4 8 [] [] 0) 4 9).
  - vm_compute. tauto.
  - vm_compute. tauto.
  - lia.
Defined.

(** ** song.ts: registers and the time grid *)
Module RegisterFacts.
Import JS Rng Presets Song SongGen RngFacts Instruments GenFacts TagFacts RegisterViews.

Section WithMath.
Variable math : MathLib.

Lemma generateTexture_register key progression preset section start r evs r' :
  generateTexture math key progression preset section start r = Ok (evs, r') ->
  r' = r /\ Forall (inRegister 72 84 texture) evs.
Proof.
  unfold generateTexture, forRange. intro H.
  apply forked_ok in H. destruct H as [-> [r1 H]]. split; [reflexivity|].
  destruct (isEdge (Song.name section)).
  - apply ret_ok in H. destruct H as [-> _]. constructor.
  - revert H. apply foldM_inv; [|constructor].
    clear. intros bar evs r evs' r' Hevs. cbv beta zeta. intro H.
    apply bind_ok in H. destruct H as (template & r1 & _ & H).
    apply bind_ok in H. destruct H as (tones & r2 & _ & H).
    revert H.
    destruct (filter (fun m => (72 <=? m) && (m <=? 84))
                (map (fun m => m + 24) tones)) as [|z l] eqn:Hhigh; intro H.
    + apply ret_ok in H. destruct H as [-> _]. exact Hevs.
    + apply bind_ok in H. destruct H as (hit & r3 & _ & H).
      revert H. destruct hit; cbn [negb]; intro H.
      * apply bind_ok in H. destruct H as (idx & r4 & _ & H).
        apply bind_ok in H. destruct H as (tone & r5 & Htone & H).
        apply bind_ok in H. destruct H as (beat & r6 & _ & H).
        apply bind_ok in H. destruct H as (sixteen & r7 & _ & H).
        apply bind_ok in H. destruct H as (g & r8 & _ & H).
        apply ret_ok in H. destruct H as [-> _].
        apply Forall_snoc; [exact Hevs|].
        apply index_ok in Htone. destruct Htone as (_ & _ & Htone).
        apply nth_error_In in Htone. rewrite <- Hhigh in Htone.
        apply filter_In in Htone. destruct Htone as [_ Hrange].
        unfold inRegister. cbn [Song.note Song.instrument].
        rewrite MusicTheoryMore.nameToMidi_of_name. split; [lia | reflexivity].
      * apply ret_ok in H. destruct H as [-> _]. exact Hevs.
Qed.

Lemma generateExtraInstrument_register id key progression preset section start
  r evs r' :
  generateExtraInstrument math id key progression preset section start r
  = Ok (evs, r') ->
  r' = r /\ Forall (inRegister 36 84 id) evs.
Proof.
  unfold generateExtraInstrument. intro H.
  apply forked_ok in H. destruct H as [-> [r1 H]]. split; [reflexivity|].
  destruct (isEdge (Song.name section)).
  - apply ret_ok in H. destruct H as [-> _]. constructor.
  - revert H. apply forStep_inv; [|constructor].
    clear. intros bar evs r evs' r' Hevs H.
    apply bind_ok in H. destruct H as ([degree quality] & r1 & _ & H).
    apply bind_ok in H. destruct H as (mode & r2 & _ & H).
    apply bind_ok in H. destruct H as (chordNotes & r3 & _ & H).
    apply bind_ok in H. destruct H as (isArpeggio & r4 & _ & H).
    revert H. apply foldM_inv; [|exact Hevs].
    clear. intros [i midi] evs r evs' r' Hevs. cbv beta iota zeta.
    destruct ((midi <? 36) || (84 <? midi)) eqn:Hout; intro H.
    + apply ret_ok in H. destruct H as [-> _]. exact Hevs.
    + apply bind_ok in H. destruct H as (jitter & r1 & _ & H).
      apply ret_ok in H. destruct H as [-> _].
      apply Forall_snoc; [exact Hevs|].
      unfold inRegister. cbn [Song.note Song.instrument].
      rewrite MusicTheoryMore.nameToMidi_of_name.
      apply orb_false_iff in Hout. split; [lia | reflexivity].
Qed.

End WithMath.
End RegisterFacts.

(** X28.  The upper voices keep to their register.  Every note that
    [generateTexture] writes is a texture note between MIDI pitches 72 and
    84, and every note that [generateExtraInstrument] writes carries the
    instrument id it was called for and lies between 36 and 84: chord tones
    outside are left out.  Neither advances the builder's own generator. *)
Theorem upper_voices_keep_register :
  forall (math : Rng.MathLib) (id : Instruments.InstrumentId) (key : string)
         (progression : Presets.ChordProgressionTemplate)
         (preset : Presets.LofiPreset) (section : Song.SongSection)
         (sectionStartBar : Z) (r : Rng.Rng),
    match SongGen.generateTexture math key progression preset section
            sectionStartBar r with
    | JS.Ok (events, r') =>
        r' = r
        /\ Forall (RegisterViews.inRegister 72 84 Instruments.texture) events
    | JS.Throw _ => True
    end
    /\ match SongGen.generateExtraInstrument math id key progression preset
               section sectionStartBar r with
       | JS.Ok (events, r') =>
           r' = r /\ Forall (RegisterViews.inRegister 36 84 id) events
       | JS.Throw _ => True
       end.
Proof.
  intros math id key progression preset section start r. split.
  - destruct (SongGen.generateTexture math key progression preset section start r)
      as [[events r']|m] eqn:E; [|exact I].
    eapply RegisterFacts.generateTexture_register, E.
  - destruct (SongGen.generateExtraInstrument math id key progression preset
                section start r) as [[events r']|m] eqn:E; [|exact I].
    eapply RegisterFacts.generateExtraInstrument_register, E.
Qed.

Module GridFacts.
Import JS Rng Presets Song SongGen RngFacts Instruments GenFacts TagFacts GridViews.

Lemma onGrid_intro (start bars bar beat sixteenth : Z) :
  0 <= bar < bars -> 0 <= beat < 4 -> 0 <= sixteenth < 4 ->
  onGrid start bars (timeString (start + bar) beat sixteenth).
Proof. intros. exists bar, beat, sixteenth. repeat split; lia. Qed.

Lemma in_rangeStep (n step a : Z) :
  1 <= step -> In a (rangeStep n step) -> 0 <= a < n.
Proof.
  intros Hs H. unfold rangeStep in H. apply in_map_iff in H.
  destruct H as (k & <- & Hk). apply in_range in Hk.
  pose proof (Z.mul_div_le (n + step - 1) step ltac:(lia)). nia.
Qed.

Lemma shape_length (quality : string) (shape : list Z) :
  MusicTheory.tableOr MusicTheory.CHORD_SHAPES quality MusicTheory.CHORD_SHAPES_maj7
  = Ok shape ->
  (List.length shape <= 5)%nat.
Proof.
  unfold MusicTheory.tableOr, JS.get.
  destruct (assoc MusicTheory.CHORD_SHAPES quality) as [s|] eqn:E.
  - intro H. injection H as <-.
    apply MusicTheoryMore2.chord_shape_cases in E. cbn in E.
    repeat (destruct E as [<- | E]); try contradiction; cbn; lia.
  - destruct (mem quality objectPrototypeKeys); [discriminate|].
    intro H. injection H as <-. vm_compute. lia.
Qed.

Lemma buildChord_length (root : Z) (quality : string) (ns : list Z) :
  MusicTheory.buildChord root quality = Ok ns -> (List.length ns <= 5)%nat.
Proof.
  unfold MusicTheory.buildChord.
  destruct (MusicTheory.tableOr _ _ _) as [shape|] eqn:E; [|discriminate].
  cbn [bindR]. intro H. injection H as <-. rewrite length_map.
  eapply shape_length, E.
Qed.

Lemma spreadChord_length (root : Z) (quality : string) (ns : list Z) :
  MusicTheory.spreadChord root quality = Ok ns -> (List.length ns <= 7)%nat.
Proof.
  unfold MusicTheory.spreadChord.
  destruct (MusicTheory.tableOr _ _ _) as [shape|] eqn:E; [|discriminate].
  cbn [bindR]. cbv zeta. intro H. injection H as <-.
  apply shape_length in E.
  etransitivity; [apply filter_length_le|].
  rewrite (Permutation_length (SortFacts.sortZ_perm _)).
  cbn [app List.length].
  match goal with
  | |- context [filter ?p ?l] =>
      pose proof (filter_length_le p l) as Hf; rewrite length_map in Hf;
        destruct (filter p l) as [|u us]
  end; cbn [List.length] in *; lia.
Qed.

Lemma in_combine_seq {A} (i : nat) (a : A) (l : list A) :
  In (i, a) (combine (seq 0 (List.length l)) l) -> (i < List.length l)%nat.
Proof.
  intro H. apply in_combine_l in H. apply in_seq in H. lia.
Qed.

Section WithMath.
Variable math : MathLib.

Lemma resolveChords_grid key progression preset start sectionBars r evs r' :
  1 <= chordBarsOf preset ->
  resolveChords math key progression preset start sectionBars r = Ok (evs, r') ->
  Forall (fun e => onGrid start sectionBars (Song.time e)) evs.
Proof.
  intro Hc. unfold resolveChords, forStep. intro H.
  apply forked_ok in H. destruct H as [_ [r1 H]].
  revert H.
  destruct ((chordBarsOf preset <=? 0) && (0 <? sectionBars)); [discriminate|].
  apply foldM_inv_in; [|constructor].
  intros bar evs0 r0 evs0' r0' Hbar Hevs. cbv beta zeta. intro H.
  apply in_rangeStep in Hbar; [|exact Hc].
  apply bind_ok in H. destruct H as ([degree quality] & ra & _ & H).
  apply bind_ok in H. destruct H as (q & rb & _ & H).
  apply bind_ok in H. destruct H as (mode & rc & _ & H).
  apply bind_ok in H. destruct H as (chordNotes & rd & Hchord & H).
  apply bind_ok in H. destruct H as (voicing & re & Hvoicing & H).
  assert (Hlen : (List.length chordNotes <= 7)%nat).
  { apply liftR_ok in Hchord. destruct Hchord as [Hchord _].
    revert Hchord. destruct mode;
      try (destruct (MusicTheory.buildChord _ _) as [ns|] eqn:E; [|discriminate];
           cbn [bindR]; intro Hchord; injection Hchord as <-;
           apply buildChord_length in E;
           pose proof (filter_length_le (fun n => 28 <=? n)
                         (map (fun n => n - 12) ns)) as Hf;
           rewrite length_map in Hf; lia).
    intro Hchord. apply spreadChord_length in Hchord. exact Hchord. }
  assert (Hvlen : List.length voicing = List.length chordNotes).
  { apply (foldM_prefix
             (fun (pre : list (nat * Z)) (acc : list (string * float)) =>
                List.length acc = List.length pre)) with (pre := []) in Hvoicing.
    - rewrite Hvoicing. cbn [app]. rewrite length_combine, length_seq. lia.
    - clear. intros pre [i n] acc r acc' r' Hacc. cbv beta iota zeta. intro H.
      apply bind_ok in H. destruct H as (jitter & r1 & _ & H).
      apply ret_ok in H. destruct H as [-> _].
      rewrite !length_app, Hacc. reflexivity.
    - reflexivity. }
  assert (Hheld : forall (d : string) (l : list (string * float)),
             Forall (fun e => onGrid start sectionBars (Song.time e))
               (map (fun v => mkNote (timeString (start + bar) 0 0) (fst v) d
                                (snd v) pad) l)).
  { intros d l. rewrite Forall_map. apply Forall_forall. intros v _.
    cbn [Song.time]. apply onGrid_intro; lia. }
  assert (Harp : forall (ordering : list (string * float)),
             List.length ordering = List.length voicing ->
             Forall (fun e => onGrid start sectionBars (Song.time e))
               (map (fun '(i, v) =>
                       mkNote (timeString (start + bar) (Z.of_nat i * 2 / 4)
                                 (jsrem (Z.of_nat i * 2) 4))
                              (fst v) "8n" (snd v) pad)
                    (combine (seq 0 (List.length ordering)) ordering))).
  { intros ordering Ho. rewrite Forall_map. apply Forall_forall.
    intros [i v] Hi. apply in_combine_seq in Hi. cbn [Song.time].
    pose proof (jsrem_4 (Z.of_nat i * 2) ltac:(lia)).
    apply onGrid_intro; [lia | | lia].
    split; [apply Z.div_pos; lia | apply Z.div_lt_upper_bound; lia]. }
  revert H. destruct mode; intro H.
  - apply ret_ok in H. destruct H as [-> _].
    apply Forall_app. split; [exact Hevs | apply Hheld].
  - apply bind_ok in H. destruct H as (c & rf & _ & H).
    apply ret_ok in H. destruct H as [-> _].
    apply Forall_app. split; [exact Hevs|]. apply Harp.
    destruct c; [reflexivity | apply length_rev].
  - apply bind_ok in H. destruct H as (c & rf & _ & H).
    apply ret_ok in H. destruct H as [-> _].
    apply Forall_app. split; [exact Hevs|]. apply Harp.
    destruct c; [reflexivity | apply length_rev].
  - apply ret_ok in H. destruct H as [-> _].
    apply Forall_app. split; [exact Hevs | apply Hheld].
Qed.

Lemma generateBass_grid key progression preset section start r evs r' :
  generateBass math key progression preset section start r = Ok (evs, r') ->
  Forall (fun e => onGrid start (bars section) (Song.time e)) evs.
Proof.
  unfold generateBass, forRange, forStep. intro H.
  apply forked_ok in H. destruct H as [_ [r1 H]].
  revert H. apply foldM_inv_in; [|constructor].
  intros bar evs0 r0 evs0' r0' Hbar Hevs. cbv beta zeta. intro H.
  apply in_range in Hbar.
  apply bind_ok in H. destruct H as (template & ra & _ & H).
  revert H.
  match goal with
  | |- (if ?g then _ else _) _ = _ -> _ => destruct g; [discriminate|]
  end.
  apply foldM_inv_in; [|exact Hevs].
  intros beat evs1 rb evs1' rb' Hbeat Hevs1. cbv beta zeta. intro H.
  assert (Hb : 0 <= beat < 4).
  { destruct (match Song.name section with
              | intro | outro | bridge => true
              | _ => false
              end); apply in_rangeStep in Hbeat; lia. }
  apply bind_ok in H. destruct H as (useFifth & rc & _ & H).
  apply bind_ok in H. destruct H as (g & rd & _ & H).
  apply bind_ok in H. destruct H as (pickup & re & _ & H).
  revert H.
  match goal with
  | |- (if ?c then _ else _) _ = _ -> _ => destruct c; intro H
  end.
  - apply bind_ok in H. destruct H as (nextTemplate & rf & _ & H).
    apply ret_ok in H. destruct H as [-> _].
    repeat (apply Forall_snoc); [exact Hevs1 | |];
      cbn [Song.time]; apply onGrid_intro; lia.
  - apply ret_ok in H. destruct H as [-> _].
    apply Forall_snoc; [exact Hevs1|].
    cbn [Song.time]; apply onGrid_intro; lia.
Qed.

End WithMath.
End GridFacts.

(** X29.  Pad and bass events lie on the sixteenth grid inside their
    section.  When a chord lasts at least one bar, every event that
    [resolveChords] writes -- held chords and arpeggios alike -- has a time
    [bar:beat:sixteenth] with the bar among the section's bars and beat and
    sixteenth in 0..3, and so has every event of [generateBass], pickup
    notes included. *)
Theorem pad_and_bass_on_grid :
  forall (math : Rng.MathLib) (key : string)
         (progression : Presets.ChordProgressionTemplate)
         (preset : Presets.LofiPreset) (section : Song.SongSection)
         (sectionStartBar : Z) (r : Rng.Rng),
    1 <= SongGen.chordBarsOf preset ->
    match SongGen.resolveChords math key progression preset sectionStartBar
            (Song.bars section) r with
    | JS.Ok (events, _) =>
        Forall (fun e => GridViews.onGrid sectionStartBar (Song.bars section)
                           (Song.time e)) events
    | JS.Throw _ => True
    end
    /\ match SongGen.generateBass math key progression preset section
               sectionStartBar r with
       | JS.Ok (events, _) =>
           Forall (fun e => GridViews.onGrid sectionStartBar (Song.bars section)
                              (Song.time e)) events
       | JS.Throw _ => True
       end.
Proof.
  intros math key progression preset section start r Hc. split.
  - destruct (SongGen.resolveChords math key progression preset start
                (Song.bars section) r) as [[events r']|m] eqn:E; [|exact I].
    eapply GridFacts.resolveChords_grid; eassumption.
  - destruct (SongGen.generateBass math key progression preset section start r)
      as [[events r']|m] eqn:E; [|exact I].
    eapply GridFacts.generateBass_grid; eassumption.
Qed.

Lemma pad_and_bass_on_grid_witness :
  match SongGen.resolveChords (Rng.mkMath (fun x => x) (fun x => x) (fun x => x))
          "C" (hd [] (Presets.progressions Presets.PRESET_CHILLHOP))
          Presets.PRESET_CHILLHOP 4
          (Song.bars (Song.mkSection Song.verse 4 8 [] [] 0)) (Rng.new 1) with
  | JS.Ok (events, _) =>
      Forall (fun e => GridViews.onGrid 4
                         (Song.bars (Song.mkSection Song.verse 4 8 [] [] 0))
                         (Song.time e)) events
  | JS.Throw _ => True
  end
  /\ match SongGen.generateBass (Rng.mkMath (fun x => x) (fun x => x) (fun x => x))
             "C" (hd [] (Presets.progressions Presets.PRESET_CHILLHOP))
             Presets.PRESET_CHILLHOP (Song.mkSection Song.verse 4 8 [] [] 0) 4
             (Rng.new 1) with
     | JS.Ok (events, _) =>
         Forall (fun e => GridViews.onGrid 4
                            (Song.bars (Song.mkSection Song.verse 4 8 [] [] 0))
                            (Song.time e)) events
     | JS.Throw _ => True
     end.
Proof.
  apply (pad_and_bass_on_grid (Rng.mkMath (fun x => x) (fun x => x) (fun x => x))
           "C" (hd [] (Presets.progressions Presets.PRESET_CHILLHOP))
           Presets.PRESET_CHILLHOP (Song.mkSection Song.verse 4 8 [] [] 0) 4
           (Rng.new 1)).
  vm_compute. discriminate.
Defined.

Example resolveChords_chillhop_returns :
  exists events r',
    SongGen.resolveChords (Rng.mkMath (fun x => x) (fun x => x) (fun x => x))
      "C" (hd [] (Presets.progressions Presets.PRESET_CHILLHOP))
      Presets.PRESET_CHILLHOP 4 8 (Rng.new 1) = JS.Ok (events, r')
    /\ events <> [].
Proof. eexists _, _. split; [vm_compute; reflexivity | discriminate]. Qed.
